(** * Dashboard core: grid layout history and placement, scrolling graph buffer

    A shallow embedding of
    - [ConfigurableLayout.tsx]: the undo/redo reducer [stateHistoryReducer]
      and the panel placement [addItem];
    - the second layout component of the repository (the one built on
      [maxArray] and [intervalsIntersect]), whose [addItem] refines the
      placement against the panels above;
    - [Graph.js]: the sample buffer ([add]), [render] with its guards and
      its pruning pass, [renderGraph] with the loop of [getTicks], the
      axis scaling ([niceNum], [getAxisScaling], [getYAxisScaling]) and
      the plot coordinates ([scale]).

    Grid coordinates are integers (grid cells), modelled in [Z].  Graph
    samples are JavaScript numbers, that is IEEE 754 binary64 values: the
    model keeps NaN and the two infinities apart from the finite values,
    writes a finite value as the rational it denotes, and rounds the
    result of every arithmetic operation to the nearest binary64 value,
    ties to even, with overflow to the infinities and gradual underflow.
    The two zeros are one value. *)

From Stdlib Require Import Ascii String ZArith List Bool Lia QArith Qabs Qround
  Qpower Qreduction Lqa.
Import ListNotations.

Local Open Scope Z_scope.

(* ================================================================== *)
(** * JavaScript array primitives used by the sources *)
(* ================================================================== *)

Module JsArray.

(** [arr[i]]: [None] stands for [undefined] (index out of range). *)
Definition at_index {A} (arr : list A) (i : Z) : option A :=
  if i <? 0 then None else nth_error arr (Z.to_nat i).

(** [arr.splice(start, deleteCount)], the array left behind.  A negative
    [start] counts from the end; [deleteCount] is clamped to what is
    there. *)
Definition splice {A} (arr : list A) (start deleteCount : Z) : list A :=
  let len := Z.of_nat (length arr) in
  let actualStart :=
    if start <? 0 then Z.max (len + start) 0 else Z.min start len in
  let actualDeleteCount :=
    Z.min (Z.max deleteCount 0) (len - actualStart) in
  firstn (Z.to_nat actualStart) arr
    ++ skipn (Z.to_nat (actualStart + actualDeleteCount)) arr.

(** [arr.push(v)]. *)
Definition push {A} (arr : list A) (v : A) : list A := arr ++ [v].

(** [arr.shift()], the array left behind (nothing happens when empty). *)
Definition shift {A} (arr : list A) : list A := tl arr.

(** What [Math.max(...arr)] yields over integers: [-Infinity] for the
    empty spread. *)
Inductive maxResult := NegInfinity | Finite (z : Z).

Definition Math_max (arr : list Z) : maxResult :=
  fold_left
    (fun acc v =>
       match acc with
       | NegInfinity => Finite v
       | Finite a => Finite (Z.max a v)
       end)
    arr NegInfinity.

Definition isFinite (n : maxResult) : bool :=
  match n with Finite _ => true | NegInfinity => false end.

End JsArray.

(* ================================================================== *)
(** * Grid items (shared by both layout components) *)
(* ================================================================== *)

Inductive ConfigurableView :=
| FIELD_VIEW | GRAPH_VIEW | CONFIG_VIEW | TELEMETRY_VIEW | CAMERA_VIEW
| OPMODE_VIEW.

Record GridItemLayoutType := mkLayout {
  x : Z;
  y : Z;
  w : Z;
  h : Z;
  isDraggable : bool;
  isResizable : bool
}.

Record GridItemType := mkItem {
  id : string;
  view : ConfigurableView;
  layout : GridItemLayoutType
}.

Definition GridSnapshot := list GridItemType.

Definition ConfigurableView_eq_dec (a b : ConfigurableView) : {a = b} + {a <> b}.
Proof. decide equality. Defined.

Definition GridItemLayoutType_eq_dec (a b : GridItemLayoutType) :
  {a = b} + {a <> b}.
Proof. decide equality; try apply bool_dec; apply Z.eq_dec. Defined.

Definition GridItemType_eq_dec (a b : GridItemType) : {a = b} + {a <> b}.
Proof.
  decide equality.
  - apply GridItemLayoutType_eq_dec.
  - apply ConfigurableView_eq_dec.
  - apply string_dec.
Defined.

Definition GridSnapshot_eq_dec (a b : GridSnapshot) : {a = b} + {a <> b} :=
  list_eq_dec GridItemType_eq_dec a b.

(** lodash [isEqual(value, payload)] where [payload] is an array of grid
    items and [value] is such an array or [undefined]. *)
Definition isEqual (value : option GridSnapshot) (payload : GridSnapshot) : bool :=
  match value with
  | None => false
  | Some v => if GridSnapshot_eq_dec v payload then true else false
  end.

(** The rectangle spans of a panel, and the two new-item constants. *)
Definition bottom (e : GridItemType) : Z := y (layout e) + h (layout e).
Definition right (e : GridItemType) : Z := x (layout e) + w (layout e).

Definition ITEM_WIDTH : Z := 2.
Definition ITEM_HEIGHT : Z := 4.
Definition GRID_COL : Z := 6.

(** Two half-open spans [[a, b)] and [[c, d)] share a cell. *)
Definition spansOverlap (a b c d : Z) : Prop :=
  exists t, (a <= t < b) /\ (c <= t < d).

(** Two panels overlap when their spans share a cell on both axes. *)
Definition overlap (p q : GridItemLayoutType) : Prop :=
  spansOverlap (x p) (x p + w p) (x q) (x q + w q)
  /\ spansOverlap (y p) (y p + h p) (y q) (y q + h q).

(* ================================================================== *)
(** * ConfigurableLayout.tsx *)
(* ================================================================== *)

Module ConfigurableLayout.
Import JsArray.

(** The default grids.  Their ids come from [uuidv4()]; four distinct
    strings stand for them. *)
Definition item (uuid : string) (v : ConfigurableView) (px py pw ph : Z)
  : GridItemType :=
  mkItem uuid v (mkLayout px py pw ph true true).

Definition DEFAULT_GRID : GridSnapshot :=
  [ item "uuid-0" FIELD_VIEW 0 0 2 9; item "uuid-1" GRAPH_VIEW 2 0 2 9;
    item "uuid-2" CONFIG_VIEW 4 0 2 7;
    item "uuid-3" TELEMETRY_VIEW 4 7 2 2 ].

Definition DEFAULT_GRID_MEDIUM : GridSnapshot :=
  [ item "uuid-0" FIELD_VIEW 0 0 2 13; item "uuid-1" GRAPH_VIEW 2 0 2 13;
    item "uuid-2" CONFIG_VIEW 4 0 2 11;
    item "uuid-3" TELEMETRY_VIEW 4 11 2 2 ].

Definition DEFAULT_GRID_TALL : GridSnapshot :=
  [ item "uuid-0" FIELD_VIEW 0 0 2 18; item "uuid-1" GRAPH_VIEW 2 0 2 18;
    item "uuid-2" CONFIG_VIEW 4 0 2 14;
    item "uuid-3" TELEMETRY_VIEW 4 11 2 4 ].

Inductive StateHistoryCommand := APPEND | UNDO | REDO.

Inductive StateHistoryAction :=
| Action_APPEND (payload : GridSnapshot)
| Action_UNDO
| Action_REDO.

Record StateHistoryReducerState := mkState {
  gridStateHistory : list GridSnapshot;
  actionHistory : list StateHistoryCommand;
  currentHistoryPosition : Z;
  (** [undefined] is [None]; the reducer reads it out of the history by
      index. *)
  currentHead : option GridSnapshot
}.

(** The state handed to [useReducer]. *)
Definition initialState : StateHistoryReducerState :=
  mkState [] [] (-1) (Some []).

(** [actionHistory[actionHistory.length - 1]] is UNDO or REDO. *)
Definition lastActionMovedCursor (actions : list StateHistoryCommand) : bool :=
  match at_index actions (Z.of_nat (length actions) - 1) with
  | Some UNDO | Some REDO => true
  | _ => false
  end.

Definition shouldAppend (state : StateHistoryReducerState)
           (payload : GridSnapshot) : bool :=
  if (length (gridStateHistory state) =? 0)%nat then true
  else
    let a := true in
    let a :=
      if isEqual (at_index (gridStateHistory state)
                           (currentHistoryPosition state)) payload
      then false else a in
    let a :=
      if lastActionMovedCursor (actionHistory state)
      then (if isEqual (currentHead state) payload then false else a)
      else a in
    a.

Definition stateHistoryReducer (state : StateHistoryReducerState)
           (action : StateHistoryAction) : StateHistoryReducerState :=
  match action with
  | Action_APPEND payload =>
      if shouldAppend state payload then
        let newGridStateHistory := gridStateHistory state in
        let len := Z.of_nat (length newGridStateHistory) in
        let newGridStateHistory :=
          if negb (currentHistoryPosition state =? len - 1)
          then splice newGridStateHistory
                      (currentHistoryPosition state + 1)
                      (len - currentHistoryPosition state)
          else newGridStateHistory in
        let newGridStateHistory := push newGridStateHistory payload in
        let newActionHistory := actionHistory state ++ [APPEND] in
        let newCurrentHistoryPosition := currentHistoryPosition state + 1 in
        let newCurrentHead :=
          at_index newGridStateHistory newCurrentHistoryPosition in
        mkState newGridStateHistory newActionHistory
                newCurrentHistoryPosition newCurrentHead
      else state
  | Action_UNDO =>
      if currentHistoryPosition state >? 0 then
        let newActionHistory := actionHistory state ++ [UNDO] in
        let newCurrentHistoryPosition := currentHistoryPosition state - 1 in
        let newCurrentHead :=
          at_index (gridStateHistory state) newCurrentHistoryPosition in
        mkState (gridStateHistory state) newActionHistory
                newCurrentHistoryPosition newCurrentHead
      else state
  | Action_REDO =>
      if currentHistoryPosition state
         <? Z.of_nat (length (gridStateHistory state)) - 1 then
        let newActionHistory := actionHistory state ++ [REDO] in
        let newCurrentHistoryPosition := currentHistoryPosition state + 1 in
        let newCurrentHead :=
          at_index (gridStateHistory state) newCurrentHistoryPosition in
        mkState (gridStateHistory state) newActionHistory
                newCurrentHistoryPosition newCurrentHead
      else state
  end.

(** Dispatching the same action [n] times, and a list of appends. *)
Fixpoint dispatchN (n : nat) (action : StateHistoryAction)
         (state : StateHistoryReducerState) : StateHistoryReducerState :=
  match n with
  | O => state
  | S k => dispatchN k action (stateHistoryReducer state action)
  end.

Definition appendAll (payloads : list GridSnapshot)
           (state : StateHistoryReducerState) : StateHistoryReducerState :=
  fold_left (fun s p => stateHistoryReducer s (Action_APPEND p))
            payloads state.

(** [addItem]: where the new panel goes.  [COLS] is 6 here as well. *)
Definition COLS : Z := 6.

Definition placement (currentHead : GridSnapshot) : Z * Z :=
  let desiredX := 0 in
  let gridMaxY := Math_max (map bottom currentHead) in
  let gridMaxY :=
    match gridMaxY with Finite g => g | NegInfinity => 0 end in
  if negb (length currentHead =? 0)%nat then
    match Math_max (map right
                        (filter (fun e => bottom e =? gridMaxY)
                                currentHead)) with
    | Finite maxX =>
        if maxX <=? COLS - ITEM_WIDTH
        then (maxX, gridMaxY - ITEM_HEIGHT)
        else (desiredX, gridMaxY)
    | NegInfinity =>
        (* the filter keeps the panels that attain [gridMaxY], so this
           spread is never empty: see [placement_maxX_finite] *)
        (desiredX, gridMaxY - ITEM_HEIGHT)
    end
  else (desiredX, gridMaxY).

Definition newItem (currentHead : GridSnapshot) (isLayoutLocked : bool)
           (uuid : string) (v : ConfigurableView) : GridItemType :=
  let '(desiredX, gridMaxY) := placement currentHead in
  mkItem uuid v
         (mkLayout desiredX gridMaxY ITEM_WIDTH ITEM_HEIGHT
                   (negb isLayoutLocked) (negb isLayoutLocked)).

(** The payload [addItem] dispatches with APPEND. *)
Definition addItem (currentHead : GridSnapshot) (isLayoutLocked : bool)
           (uuid : string) (v : ConfigurableView) : GridSnapshot :=
  currentHead ++ [newItem currentHead isLayoutLocked uuid v].

End ConfigurableLayout.

(* ================================================================== *)
(** * The layout component built on [maxArray] and [intervalsIntersect] *)
(* ================================================================== *)

Module RefinedLayout.

(** The [for] loop of [maxArray] over the remaining positions [ra], [rb]
    of [a] and [b]. *)
Fixpoint maxArray_loop (a b ra rb : list Z) : list Z :=
  match ra, rb with
  | ai :: ra', bi :: rb' =>
      if ai >? bi then a
      else if bi >? ai then b
      else maxArray_loop a b ra' rb'
  | _, _ => a
  end.

(** [maxArray(a, b)]; [None] is the thrown
    'cannot compare arrays with different lengths'. *)
Definition maxArray (a b : list Z) : option (list Z) :=
  if (length a =? length b)%nat then Some (maxArray_loop a b a b) else None.

(** [intervalsIntersect([a, b], [c, d])]. *)
Definition intervalsIntersect (a b c d : Z) : bool :=
  Z.max a c <? Z.min b d.

(** [pairs.reduce(maxArray, init)], stopping at the first throw. *)
Definition reduce_maxArray (pairs : list (list Z)) (init : list Z)
  : option (list Z) :=
  fold_left
    (fun acc cur => match acc with Some a => maxArray a cur | None => None end)
    pairs (Some init).

(** The first phase of [addItem]: bottom and left edge of the tentative
    place, after the wrap to the row below. *)
Definition tentative (gridItems : GridSnapshot) : option (Z * Z) :=
  match reduce_maxArray (map (fun e => [bottom e; right e]) gridItems)
                        [0; 0] with
  | Some (newItemBotMin :: newItemLeft :: _) =>
      if newItemLeft + ITEM_WIDTH >? GRID_COL
      then Some (newItemBotMin + ITEM_HEIGHT, 0)
      else Some (newItemBotMin, newItemLeft)
  | _ => None
  end.

(** The minimum top that keeps the new item clear of the items above. *)
Definition newItemTopMin (gridItems : GridSnapshot) (newItemLeft : Z) : Z :=
  fold_left
    (fun bottom_ acc => Z.max bottom_ acc)
    (map bottom
         (filter
            (fun e =>
               intervalsIntersect newItemLeft (newItemLeft + ITEM_WIDTH)
                                  (x (layout e)) (x (layout e) + w (layout e)))
            gridItems))
    0.

(** The new panel; [None] when [maxArray] throws. *)
Definition newItem (gridItems : GridSnapshot) (isLayoutLocked : bool)
           (uuid : string) (v : ConfigurableView) : option GridItemType :=
  match tentative gridItems with
  | Some (newItemBotMin, newItemLeft) =>
      let newItemTop :=
        Z.max (newItemBotMin - ITEM_HEIGHT)
              (newItemTopMin gridItems newItemLeft) in
      Some (mkItem uuid v
                   (mkLayout newItemLeft newItemTop ITEM_WIDTH ITEM_HEIGHT
                             (negb isLayoutLocked) (negb isLayoutLocked)))
  | None => None
  end.

(** The grid [addItem] hands to [setGrid]. *)
Definition addItem (gridItems : GridSnapshot) (isLayoutLocked : bool)
           (uuid : string) (v : ConfigurableView) : option GridSnapshot :=
  match newItem gridItems isLayoutLocked uuid v with
  | Some e => Some (gridItems ++ [e])
  | None => None
  end.

End RefinedLayout.

(* ================================================================== *)
(** * JavaScript numbers *)
(* ================================================================== *)

Module JsNumber.

(** A number is NaN, one of the infinities, or a finite value, written as
    the rational it denotes. *)
Inductive number := NaN | NegInf | PosInf | Fin (q : Q).

Definition num (z : Z) : number := Fin (inject_Z z).

Definition isNaN (a : number) : bool :=
  match a with NaN => true | _ => false end.


Definition Qlt_bool (a b : Q) : bool := negb (Qle_bool b a).

(** Sign of a number that is not NaN; a finite zero counts as [Eq]. *)
Definition sign (a : number) : comparison :=
  match a with
  | NaN => Eq
  | NegInf => Lt
  | PosInf => Gt
  | Fin q => (q ?= 0)%Q
  end.

Definition signedInf (s : comparison) : number :=
  match s with Lt => NegInf | Gt => PosInf | Eq => NaN end.

Definition mulSign (s t : comparison) : comparison :=
  match s, t with
  | Eq, _ | _, Eq => Eq
  | Lt, Lt | Gt, Gt => Gt
  | _, _ => Lt
  end.

Definition neg (a : number) : number :=
  match a with
  | NaN => NaN
  | NegInf => PosInf
  | PosInf => NegInf
  | Fin q => Fin (- q)%Q
  end.

(** ** Rounding to binary64

    A binary64 value has 53 significant bits and a last place of weight
    at least [2^-1074]; the values from [2^1024] on are out of range.
    [round64 q] is the binary64 value nearest to the rational [q], ties
    to the even significand, which is what every arithmetic operation of
    the language returns for the exact result [q]. *)

(** The binary exponent of a positive rational: the [k] with
    [2^k <= q < 2^(k+1)]. *)
Definition ilog2 (q : Q) : Z :=
  let k := Z.log2 (Qnum q) - Z.log2 (Zpos (Qden q)) in
  if Qle_bool (2 ^ k) q then k else k - 1.

(** The nearest integer, ties to even. *)
Definition roundHalfEven (x : Q) : Z :=
  let f := Qfloor x in
  match (x - inject_Z f ?= 1 # 2)%Q with
  | Lt => f
  | Gt => f + 1
  | Eq => if Z.even f then f else f + 1
  end.

(** The exponent of the last place of the binary64 values around a
    positive rational. *)
Definition lastPlace (a : Q) : Z := Z.max (ilog2 a - 52) (-1074).

(** The nearest multiple of the last place. *)
Definition nearest (a : Q) : Q :=
  let e := lastPlace a in
  (inject_Z (roundHalfEven (a / 2 ^ e)) * 2 ^ e)%Q.

Definition roundPos (a : Q) : number :=
  let r := nearest a in
  if Qle_bool (2 ^ 1024) r then PosInf else Fin (Qred r).

Definition round64 (q : Q) : number :=
  match (q ?= 0)%Q with
  | Eq => Fin 0
  | Gt => roundPos q
  | Lt => neg (roundPos (- q))
  end.

(** ** Arithmetic *)

(** [a + b] *)
Definition plus (a b : number) : number :=
  match a, b with
  | NaN, _ | _, NaN => NaN
  | PosInf, NegInf | NegInf, PosInf => NaN
  | PosInf, _ | _, PosInf => PosInf
  | NegInf, _ | _, NegInf => NegInf
  | Fin p, Fin q => round64 (p + q)
  end.

(** [a - b] *)
Definition minus (a b : number) : number :=
  match a, b with
  | Fin p, Fin q => round64 (p - q)
  | _, _ => plus a (neg b)
  end.

(** [a * b]; infinity times zero is NaN. *)
Definition times (a b : number) : number :=
  match a, b with
  | NaN, _ | _, NaN => NaN
  | Fin p, Fin q => round64 (p * q)
  | _, _ => signedInf (mulSign (sign a) (sign b))
  end.

(** [a / b]; a zero divisor is the positive zero, as every zero divisor
    of the sources is (a difference of equal numbers, or a product or
    power that is not negative). *)
Definition divide (a b : number) : number :=
  match a, b with
  | NaN, _ | _, NaN => NaN
  | Fin p, Fin q =>
      if Qeq_bool q 0 then signedInf (p ?= 0)%Q else round64 (p / q)
  | Fin _, _ => Fin 0
  | _, Fin q =>
      signedInf (mulSign (sign a) (if Qlt_bool q 0 then Lt else Gt))
  | _, _ => NaN
  end.

(** [a < b] and [a <= b]; false as soon as one side is NaN. *)
Definition lt (a b : number) : bool :=
  match a, b with
  | NaN, _ | _, NaN => false
  | Fin p, Fin q => Qlt_bool p q
  | NegInf, NegInf => false
  | NegInf, _ => true
  | _, PosInf => match a with PosInf => false | _ => true end
  | _, _ => false
  end.

Definition le (a b : number) : bool :=
  match a, b with
  | NaN, _ | _, NaN => false
  | Fin p, Fin q => Qle_bool p q
  | NegInf, _ => true
  | _, PosInf => true
  | _, _ => false
  end.

(** [Math.min(a, b)] and [Math.max(a, b)]: NaN when an argument is. *)
Definition Math_min (a b : number) : number :=
  match a, b with
  | NaN, _ | _, NaN => NaN
  | _, _ => if le a b then a else b
  end.

Definition Math_max (a b : number) : number :=
  match a, b with
  | NaN, _ | _, NaN => NaN
  | _, _ => if le a b then b else a
  end.

(** [Math.abs(a)] *)
Definition Math_abs (a : number) : number :=
  match a with
  | NaN => NaN
  | NegInf | PosInf => PosInf
  | Fin q => Fin (Qabs q)
  end.

(** [Math.floor(a)] *)
Definition Math_floor (a : number) : number :=
  match a with
  | Fin q => Fin (inject_Z (Qfloor q))
  | _ => a
  end.

(** The decimal exponent of a positive rational [a / b]: the [k] with
    [10^k <= a / b < 10^(k+1)].  [log10_up] counts how often the
    denominator can be multiplied by ten and stay below the numerator,
    [log10_down] how often the numerator must be multiplied by ten to
    reach the denominator. *)
Fixpoint log10_up (fuel : nat) (a b k : Z) : Z :=
  match fuel with
  | O => k
  | S f => if b * 10 <=? a then log10_up f a (b * 10) (k + 1) else k
  end.

Fixpoint log10_down (fuel : nat) (a b m : Z) : Z :=
  match fuel with
  | O => m
  | S f => if a * 10 <? b then log10_down f (a * 10) b (m + 1) else m
  end.

Definition ilog10 (q : Q) : Z :=
  let a := Qnum q in
  let b := Zpos (Qden q) in
  if b <=? a then log10_up (S (Z.to_nat (Z.log2 a))) a b 0
  else - log10_down (S (Z.to_nat (Z.log2 b))) a b 1.

(** [Math.floor(Math.log10(a))].  The logarithm of a negative number is
    NaN, that of zero is [-Infinity].  [Math.log10] is an approximation
    that depends on the engine; the model takes the floor of the exact
    logarithm, which is what an engine returns unless its rounded
    logarithm reaches an integer that the exact one does not. *)
Definition Math_floor_log10 (a : number) : number :=
  match a with
  | NaN | NegInf => NaN
  | PosInf => PosInf
  | Fin q =>
      match (q ?= 0)%Q with
      | Lt => NaN
      | Eq => NegInf
      | Gt => num (ilog10 q)
      end
  end.

(** [Math.pow(10, e)] for an exponent that is integral or infinite (it is
    always the result of [Math.floor] in the sources): the power of ten,
    rounded once. *)
Definition Math_pow10 (e : number) : number :=
  match e with
  | NaN => NaN
  | NegInf => Fin 0
  | PosInf => PosInf
  | Fin k => round64 (Qpower 10 (Qfloor k))
  end.

(** [Number.MAX_VALUE] = (2^53 - 1) * 2^971 and
    [Number.MIN_VALUE] = 2^-1074. *)
Definition MAX_VALUE : number := num ((2 ^ 53 - 1) * 2 ^ 971).
Definition MIN_VALUE_Q : Q := Qmake 1 (2 ^ 1074).
Definition MIN_VALUE : number := Fin MIN_VALUE_Q.

End JsNumber.

(* ================================================================== *)
(** * Graph.js *)
(* ================================================================== *)

Module Graph.
Import JsNumber.

Record Options := mkOptions {
  windowMs : number;
  colors : list string;
  lineWidth : number;
  padding : number;
  keySpacing : number;
  keyLineLength : number;
  gridLineWidth : number;
  gridLineColor : string;
  fontSize : number;
  textColor : string;
  maxTicks : number
}.

Definition DEFAULT_OPTIONS : Options :=
  mkOptions (num 5000)
            ["#2979ff"; "#dd2c00"; "#4caf50"; "#7c4dff"; "#ffa000"]%string
            (num 2) (num 15) (num 4) (num 12) (num 1)
            "rgb(120, 120, 120)" (num 14) "rgb(50, 50, 50)" (num 7).

(** ** Axis scaling *)

Definition niceNum (range : number) (round : bool) : number :=
  let exponent := Math_floor_log10 range in
  let fraction := divide range (Math_pow10 exponent) in
  let niceFraction :=
    if round then
      if lt fraction (Fin (3 # 2)) then num 1
      else if lt fraction (num 3) then num 2
      else if lt fraction (num 7) then num 5
      else num 10
    else if le fraction (num 1) then num 1
    else if le fraction (num 2) then num 2
    else if le fraction (num 5) then num 5
    else num 10 in
  times niceFraction (Math_pow10 exponent).

Record Axis := mkAxis {
  min : number;
  max : number;
  spacing : number
}.

Definition getAxisScaling (min max maxTicks : number) : Axis :=
  let range := niceNum (minus max min) false in
  let tickSpacing := niceNum (divide range (minus maxTicks (num 1))) true in
  let niceMin := times (Math_floor (divide min tickSpacing)) tickSpacing in
  let niceMax :=
    times (plus (Math_floor (divide max tickSpacing)) (num 1)) tickSpacing in
  mkAxis niceMin niceMax tickSpacing.

(** [scale(value, fromLow, fromHigh, toLow, toHigh)] *)
Definition scale (value fromLow fromHigh toLow toHigh : number) : number :=
  let frac := divide (minus toHigh toLow) (minus fromHigh fromLow) in
  plus toLow (times frac (minus value fromLow)).

(** ** The sample buffer *)

(** One [{ name, value }] entry of a sample. *)
Record Pair := mkPair {
  name : string;
  value : number
}.

Definition Sample := list Pair.

(** [this.data[k]]: two parallel arrays and the colour picked at
    creation ([None] when the palette is empty). *)
Record Series := mkSeries {
  ts : list number;
  vs : list number;
  color : option string
}.

(** [this.data]: the own properties of the object, that is the series by
    name, in the order of their creation.  [Object_keys] below gives the
    order in which the language enumerates them. *)
Definition Data := list (string * Series).

Record GraphState := mkGraph {
  options : Options;
  data : Data;
  beginGraphNowMs : number;     (* in telemetry time *)
  beginRenderTimeMs : number    (* in browser time *)
}.

(** The constructor followed by [reset()]. *)
Definition reset (o : Options) : GraphState := mkGraph o [] NaN NaN.

Fixpoint lookup (d : Data) (k : string) : option Series :=
  match d with
  | [] => None
  | (k', s) :: d' => if String.eqb k' k then Some s else lookup d' k
  end.

Definition hasOwnProperty (d : Data) (k : string) : bool :=
  match lookup d k with Some _ => true | None => false end.

Fixpoint update (d : Data) (k : string) (f : Series -> Series) : Data :=
  match d with
  | [] => []
  | (k', s) :: d' =>
      if String.eqb k' k then (k', f s) :: d' else (k', s) :: update d' k f
  end.

(** [sample.reduce((acc, { name, value }) =>
      (name === 'time' ? value : acc), NaN)] *)
Definition sampleTime (sample : Sample) : number :=
  fold_left
    (fun acc p => if String.eqb (name p) "time" then value p else acc)
    sample NaN.

(** [o.colors[Object.keys(this.data).length % o.colors.length]] *)
Definition nextColor (o : Options) (d : Data) : option string :=
  match colors o with
  | [] => None
  | _ => nth_error (colors o) (length d mod length (colors o))%nat
  end.

(** The body of the inner loop of [add] for one entry of a sample whose
    time is [t].

    The name "__proto__" is not a property like the others: the
    assignment [this.data[name] = {...}] then runs the setter that
    [this.data] inherits from [Object.prototype], which replaces the
    prototype of [this.data] by the new object and creates no own
    property; [this.data[name]] reads that object back, and the two
    pushes go to it.  [hasOwnProperty], [Object.keys] and
    [Object.values] see own properties only, so nothing reads the object
    again, and the next such pair starts a new one: the pair leaves the
    buffer as it is. *)
Definition addPair (o : Options) (t : number) (d : Data) (series : Pair)
  : Data :=
  if String.eqb (name series) "time" then d
  else if isNaN (value series) then d
  else if String.eqb (name series) "__proto__" then d
  else
    let d :=
      if negb (hasOwnProperty d (name series))
      then d ++ [(name series, mkSeries [] [] (nextColor o d))]
      else d in
    update d (name series)
           (fun s => mkSeries (JsArray.push (ts s) t)
                              (JsArray.push (vs s) (value series))
                              (color s)).

Definition addSample (o : Options) (d : Data) (sample : Sample) : Data :=
  let t := sampleTime sample in
  fold_left (addPair o t) sample d.

(** [add(samples)]; [now] is what [Date.now()] returns during the call. *)
Definition add (samples : list Sample) (now : number) (g : GraphState)
  : GraphState :=
  let o := options g in
  let d := fold_left (addSample o) samples (data g) in
  if isNaN (beginGraphNowMs g) && (0 <? length samples)%nat then
    let maxT := sampleTime (last samples []) in
    mkGraph o d (minus maxT (num 250)) now
  else mkGraph o d (beginGraphNowMs g) (beginRenderTimeMs g).

(** A run of [add] calls, each with its batch and its clock reading. *)
Definition addAll (calls : list (list Sample * number)) (g : GraphState)
  : GraphState :=
  fold_left (fun g c => add (fst c) (snd c) g) calls g.

(** ** Axis scaling over the buffer *)

Definition minMax (d : Data) : number * number :=
  fold_left
    (fun acc ks =>
       fold_left
         (fun mm v => (Math_min v (fst mm), Math_max v (snd mm)))
         (vs (snd ks)) acc)
    d (MAX_VALUE, MIN_VALUE).

Definition getYAxisScaling (g : GraphState) : Axis :=
  let '(min, max) := minMax (data g) in
  if lt (Math_abs (minus min max)) (round64 (1 # 1000000)) then
    getAxisScaling (minus min (num 1)) (plus max (num 1))
                   (maxTicks (options g))
  else getAxisScaling min max (maxTicks (options g)).

(** ** Rendering *)

(** The test of the pruning loop on the front timestamp. *)
Definition expired (o : Options) (graphNowMs t : number) : bool :=
  lt (plus (plus t (windowMs o)) (num 250)) graphNowMs.

(** [while (ts.length > 0 && ts[0] + o.windowMs + 250 < graphNowMs)
      { ts.shift(); vs.shift(); }] *)
Fixpoint pruneLoop (o : Options) (graphNowMs : number)
         (ts vs : list number) : list number * list number :=
  match ts with
  | [] => (ts, vs)
  | t :: ts' =>
      if expired o graphNowMs t
      then pruneLoop o graphNowMs ts' (JsArray.shift vs)
      else (ts, vs)
  end.

Definition pruneSeries (o : Options) (graphNowMs : number) (s : Series)
  : Series :=
  let '(ts', vs') := pruneLoop o graphNowMs (ts s) (vs s) in
  mkSeries ts' vs' (color s).

Definition prune (o : Options) (graphNowMs : number) (d : Data) : Data :=
  map (fun ks => (fst ks, pruneSeries o graphNowMs (snd ks))) d.

(** The loop that looks for a series with a sample left. *)
Fixpoint allEmpty (d : Data) : bool :=
  match d with
  | [] => true
  | (_, s) :: d' => if (length (ts s) =? 0)%nat then allEmpty d' else false
  end.

(** ** Enumeration order of the series

    [Object.keys(this.data)] lists the names that are array indices (the
    canonical decimal numerals below 2^32 - 1) first, in ascending
    numeric order, and then the other names in the order of their
    creation. *)

Definition digitValue (c : ascii) : option N :=
  let n := N_of_ascii c in
  if ((48 <=? n) && (n <=? 57))%N then Some (n - 48)%N else None.

Fixpoint decimal (s : string) (acc : N) : option N :=
  match s with
  | EmptyString => Some acc
  | String c r =>
      match digitValue c with
      | Some v => decimal r (10 * acc + v)%N
      | None => None
      end
  end.

Definition arrayIndex (k : string) : option N :=
  match k with
  | EmptyString => None
  | String c r =>
      if Ascii.eqb c "0" && negb (String.eqb r "") then None
      else
        match decimal k 0 with
        | Some n => if (n <? 2 ^ 32 - 1)%N then Some n else None
        | None => None
        end
  end.

Fixpoint insertIndex (n : N) (k : string) (l : list (N * string))
  : list (N * string) :=
  match l with
  | [] => [(n, k)]
  | (n', k') :: r =>
      if (n <=? n')%N then (n, k) :: l else (n', k') :: insertIndex n k r
  end.

Definition indexKeys (d : Data) : list (N * string) :=
  fold_right
    (fun ks acc =>
       match arrayIndex (fst ks) with
       | Some n => insertIndex n (fst ks) acc
       | None => acc
       end)
    [] d.

Definition stringKeys (d : Data) : list string :=
  filter (fun k => match arrayIndex k with Some _ => false | None => true end)
         (map fst d).

Definition Object_keys (d : Data) : list string :=
  map snd (indexKeys d) ++ stringKeys d.

(** ** Ticks *)

(** The first loop of [getTicks(axis)],
    [for (let i = axis.min; i <= axis.max; i += axis.spacing)
       ticks.push(i)].
    Nothing in the source bounds the number of rounds; [None] says that
    the loop has not ended after [fuel] tests of its condition. *)
Fixpoint tickLoop (fuel : nat) (axis : Axis) (i : number)
         (ticks : list number) : option (list number) :=
  match fuel with
  | O => None
  | S fuel' =>
      if le i (max axis)
      then tickLoop fuel' axis (plus i (spacing axis)) (JsArray.push ticks i)
      else Some ticks
  end.

(** [getTicks(axis)], up to the strings: its second loop turns every tick
    into a string ([formatTicks], [toFixed]), one string per tick, which
    the model leaves out. *)
Definition getTicks (fuel : nat) (axis : Axis) : option (list number) :=
  tickLoop fuel axis (min axis) [].

(** What reaches the canvas, at the grain of the calls in [render] and
    [renderGraph]. *)
Inductive DrawOp :=
| ClearCanvas
| ScaleToCssPixels
| RenderKey (names : list string)
| RenderAxisLabels (ticks : list number)
| RenderGridLines (numTicksX numTicksY : nat)
| RenderGraphLines (axis : Axis) (graphNowMs : number).

(** How [render] goes on after the pruning: it has returned false, or it
    calls [renderGraph] and returns true once that call has returned. *)
Inductive Next :=
| ReturnFalse
| Draw (graphNowMs : number).

Definition graphNow (g : GraphState) (now : number) : number :=
  plus (beginGraphNowMs g) (minus now (beginRenderTimeMs g)).

(** [render()] up to the call of [renderGraph]; [now] is what
    [Date.now()] returns during the call.  The result is the graph left
    behind, how the call goes on, and the canvas operations so far. *)
Definition render (g : GraphState) (now : number)
  : GraphState * Next * list DrawOp :=
  if isNaN (beginGraphNowMs g) then (g, ReturnFalse, [ClearCanvas])
  else
    let graphNowMs := graphNow g now in
    let g' := mkGraph (options g) (prune (options g) graphNowMs (data g))
                      (beginGraphNowMs g) (beginRenderTimeMs g) in
    if allEmpty (data g') then (g', ReturnFalse, [ClearCanvas])
    else
      (g', Draw graphNowMs,
       [ClearCanvas; ScaleToCssPixels; RenderKey (Object_keys (data g'))]).

(** [renderGraph(...)]: the axis, the ticks, then the three drawing
    calls.  It returns when [getTicks] does. *)
Definition renderGraph (fuel : nat) (g : GraphState) (graphNowMs : number)
  : option (list DrawOp) :=
  let axis := getYAxisScaling g in
  match getTicks fuel axis with
  | Some ticks =>
      Some [RenderAxisLabels ticks; RenderGridLines 5 (length ticks);
            RenderGraphLines axis graphNowMs]
  | None => None
  end.

(** The whole call of [render()]: the graph left behind, the returned
    boolean and the canvas operations; [None] when [getTicks] has not
    returned after [fuel] tests of its loop condition. *)
Definition renderCall (fuel : nat) (g : GraphState) (now : number)
  : option (GraphState * bool * list DrawOp) :=
  match render g now with
  | (g', ReturnFalse, ops) => Some (g', false, ops)
  | (g', Draw graphNowMs, ops) =>
      match renderGraph fuel g' graphNowMs with
      | Some ops' => Some (g', true, ops ++ ops')
      | None => None
      end
  end.

(** The samples [renderGraphLines] walks through for one series:
    [ts[j]] with [vs[j]] for every [j < ts.length]. *)
Fixpoint plotted (ts vs : list number) : list (number * option number) :=
  match ts with
  | [] => []
  | t :: ts' => (t, hd_error vs) :: plotted ts' (tl vs)
  end.

Definition plottedPoints (g : GraphState) (k : string)
  : list (number * option number) :=
  match lookup (data g) k with
  | Some s => plotted (ts s) (vs s)
  | None => []
  end.

(** A run of [render] calls at the given clock readings. *)
Definition renderAll (clock : list number) (g : GraphState) : GraphState :=
  fold_left (fun g now => fst (fst (render g now))) clock g.

End Graph.

(* ================================================================== *)
(** * Vocabulary of the statements *)
(* ================================================================== *)

(** The states the reducer can be in: whatever a run of actions makes of
    the initial state. *)
Inductive reachable : ConfigurableLayout.StateHistoryReducerState -> Prop :=
| reachable_init : reachable ConfigurableLayout.initialState
| reachable_step s a :
    reachable s -> reachable (ConfigurableLayout.stateHistoryReducer s a).

(** The largest element of a list, 0 for the empty list. *)
Definition maxOr0 (l : list Z) : Z :=
  match l with
  | [] => 0
  | a :: r => fold_left Z.max r a
  end.

(** The lowest bottom edge of a panel set, and the right-most right edge
    among the panels that reach it; both 0 without panels. *)
Definition bottomMost (panels : GridSnapshot) : Z :=
  maxOr0 (map bottom panels).

Definition rightEdgeAtBottom (panels : GridSnapshot) : Z :=
  maxOr0 (map right
              (filter (fun e => bottom e =? bottomMost panels) panels)).

(** A panel whose edges lie in the grid quadrant. *)
Definition inQuadrant (e : GridItemType) : Prop :=
  0 <= bottom e /\ 0 <= right e.

(** The wrap test of the two components, on these quantities. *)
Definition wraps (panels : GridSnapshot) : bool :=
  rightEdgeAtBottom panels + ITEM_WIDTH >? GRID_COL.

(** Lexicographic order on (bottom, right) pairs. *)
Definition lexLe (p q : Z * Z) : Prop :=
  fst p < fst q \/ (fst p = fst q /\ snd p <= snd q).

(** The cursor is [-1] on an empty history and inside the history
    otherwise, and the head is the snapshot under the cursor. *)
Definition cursorOk (s : ConfigurableLayout.StateHistoryReducerState) : Prop :=
  let hist := ConfigurableLayout.gridStateHistory s in
  let pos := ConfigurableLayout.currentHistoryPosition s in
  (length hist = 0%nat /\ pos = -1)
  \/ (0 <= pos < Z.of_nat (length hist)
      /\ ConfigurableLayout.currentHead s = JsArray.at_index hist pos).

(** After appends only, the cursor is on the last snapshot. *)
Definition cursorAtEnd (s : ConfigurableLayout.StateHistoryReducerState) : Prop :=
  ConfigurableLayout.currentHistoryPosition s
  = Z.of_nat (length (ConfigurableLayout.gridStateHistory s)) - 1.

(** The clock anchor of a graph. *)
Definition anchor (g : Graph.GraphState) : JsNumber.number * JsNumber.number :=
  (Graph.beginGraphNowMs g, Graph.beginRenderTimeMs g).

(** The time the last sample of a batch carries. *)
Definition lastSampleTime (samples : list Graph.Sample) : JsNumber.number :=
  Graph.sampleTime (last samples []).

(** Timestamps that never go down from one entry to the next. *)
Fixpoint nondecreasing (ts : list JsNumber.number) : bool :=
  match ts with
  | [] => true
  | t1 :: r =>
      match r with
      | [] => true
      | t2 :: _ => JsNumber.le t1 t2 && nondecreasing r
      end
  end.

(** The timestamps and the values buffered under a name (none when the
    series does not exist). *)
Definition seriesTs (d : Graph.Data) (k : string) : list JsNumber.number :=
  match Graph.lookup d k with Some s => Graph.ts s | None => [] end.

Definition seriesVs (d : Graph.Data) (k : string) : list JsNumber.number :=
  match Graph.lookup d k with Some s => Graph.vs s | None => [] end.

(** Whether [add] stores the entry under the name [k]: the entry carries
    that name, the name is not the reserved one and the value is not NaN. *)
Definition storedUnder (k : string) (p : Graph.Pair) : bool :=
  String.eqb (Graph.name p) k
  && negb (String.eqb (Graph.name p) "time")
  && negb (JsNumber.isNaN (Graph.value p)).

(** The values of a sample that [add] stores under a name, in order. *)
Definition storedValues (sample : Graph.Sample) (k : string)
  : list JsNumber.number :=
  map Graph.value (filter (storedUnder k) sample).

(** What a batch appends to the series of a name: for each sample, in
    order, the time of the sample once per stored value, and the stored
    values. *)
Definition batchTs (samples : list Graph.Sample) (k : string)
  : list JsNumber.number :=
  flat_map (fun sample => repeat (Graph.sampleTime sample)
                                 (length (storedValues sample k)))
           samples.

Definition batchVs (samples : list Graph.Sample) (k : string)
  : list JsNumber.number :=
  flat_map (fun sample => storedValues sample k) samples.

(** No entry of the sample is named "time". *)
Definition noTimePair (sample : Graph.Sample) : Prop :=
  forall p, In p sample -> Graph.name p <> "time"%string.

(** Every buffered value satisfies [P]. *)
Definition allValues (P : JsNumber.number -> bool) (d : Graph.Data) : Prop :=
  forall k s v, In (k, s) d -> In v (Graph.vs s) -> P v = true.



(** An entry stamped NaN. *)
Definition nanStamped (p : JsNumber.number * option JsNumber.number) : bool :=
  JsNumber.isNaN (fst p).

(* ================================================================== *)
(** * The handlers of the layout components *)
(* ================================================================== *)

(** The items of react-grid-layout's [Layout[]]: the key [i], the
    rectangle and the two optional flags. *)
Module Rgl.

Record Layout := mkLayout {
  i : string;
  x : Z;
  y : Z;
  w : Z;
  h : Z;
  isDraggable : option bool;
  isResizable : option bool
}.

End Rgl.

Module LayoutHandlers.

(** [currentHead.filter((e) => e.id != id)], the payload of [removeItem]. *)
Definition removeItem (currentHead : GridSnapshot) (rid : string)
  : GridSnapshot :=
  filter (fun e => negb (String.eqb (id e) rid)) currentHead.

(** [currentHead.map((item) => ({ i: item.id, ...item.layout }))], the
    [layout] prop handed to the grid. *)
Definition layoutProp (currentHead : GridSnapshot) : list Rgl.Layout :=
  map (fun item =>
         Rgl.mkLayout (id item) (x (layout item)) (y (layout item))
                      (w (layout item)) (h (layout item))
                      (Some (isDraggable (layout item)))
                      (Some (isResizable (layout item))))
      currentHead.

(** [value ?? true] *)
Definition orTrue (value : option bool) : bool :=
  match value with Some b => b | None => true end.

(** The payload of [onLayoutChange(layout)]. *)
Definition onLayoutChange (currentHead : GridSnapshot)
           (layout_ : list Rgl.Layout) : GridSnapshot :=
  map (fun e =>
         match find (fun it => String.eqb (Rgl.i it) (id e)) layout_ with
         | Some newLayoutValue =>
             let newLayout :=
               mkLayout (Rgl.x newLayoutValue) (Rgl.y newLayoutValue)
                        (Rgl.w newLayoutValue) (Rgl.h newLayoutValue)
                        (orTrue (Rgl.isDraggable newLayoutValue))
                        (orTrue (Rgl.isResizable newLayoutValue)) in
             mkItem (id e) (view e) newLayout
         | None => e
         end)
      currentHead.

(** [{ ...i.layout, isResizable: !toBeLocked, isDraggable: !toBeLocked }]
    put into the item, as [clickFAB] does. *)
Definition setLock (toBeLocked : bool) (e : GridItemType) : GridItemType :=
  mkItem (id e) (view e)
         (mkLayout (x (layout e)) (y (layout e)) (w (layout e))
                   (h (layout e)) (negb toBeLocked) (negb toBeLocked)).

End LayoutHandlers.

(* ================================================================== *)
(** * The reducer over shared item objects *)
(* ================================================================== *)

(** [clickFAB] assigns to [i.layout] of the items of the current head, and
    the snapshots of the history hold those same item objects.  Here a
    snapshot is an array of references into a heap of item objects, and
    lodash's [isEqual] compares what the references point to. *)
Module SharedLayout.
Import JsArray.

Definition ref := nat.
Definition Heap := list GridItemType.
Definition Snapshot := list ref.

Definition deref (heap : Heap) (r : ref) : option GridItemType :=
  nth_error heap r.

Definition contents (heap : Heap) (snap : Snapshot)
  : list (option GridItemType) :=
  map (deref heap) snap.

(** [item.layout = newLayout] on the object at [r]. *)
Fixpoint assign (heap : Heap) (r : ref) (f : GridItemType -> GridItemType)
  : Heap :=
  match heap, r with
  | [], _ => []
  | e :: heap', O => f e :: heap'
  | e :: heap', S r' => e :: assign heap' r' f
  end.

Definition option_item_eq_dec (a b : option GridItemType)
  : {a = b} + {a <> b}.
Proof. decide equality. apply GridItemType_eq_dec. Defined.

Definition isEqual (heap : Heap) (value : option Snapshot)
           (payload : Snapshot) : bool :=
  match value with
  | None => false
  | Some v =>
      if list_eq_dec option_item_eq_dec (contents heap v)
                     (contents heap payload)
      then true else false
  end.

Inductive StateHistoryAction :=
| Action_APPEND (payload : Snapshot)
| Action_UNDO
| Action_REDO.

Record StateHistoryReducerState := mkState {
  gridStateHistory : list Snapshot;
  actionHistory : list ConfigurableLayout.StateHistoryCommand;
  currentHistoryPosition : Z;
  currentHead : option Snapshot
}.

Definition initialState : StateHistoryReducerState :=
  mkState [] [] (-1) (Some []).

Definition shouldAppend (heap : Heap) (state : StateHistoryReducerState)
           (payload : Snapshot) : bool :=
  if (length (gridStateHistory state) =? 0)%nat then true
  else
    let a := true in
    let a :=
      if isEqual heap (at_index (gridStateHistory state)
                                (currentHistoryPosition state)) payload
      then false else a in
    let a :=
      if ConfigurableLayout.lastActionMovedCursor (actionHistory state)
      then (if isEqual heap (currentHead state) payload then false else a)
      else a in
    a.

(** [stateHistoryReducer], reading the item objects in [heap]. *)
Definition stateHistoryReducer (heap : Heap)
           (state : StateHistoryReducerState) (action : StateHistoryAction)
  : StateHistoryReducerState :=
  match action with
  | Action_APPEND payload =>
      if shouldAppend heap state payload then
        let newGridStateHistory := gridStateHistory state in
        let len := Z.of_nat (length newGridStateHistory) in
        let newGridStateHistory :=
          if negb (currentHistoryPosition state =? len - 1)
          then splice newGridStateHistory
                      (currentHistoryPosition state + 1)
                      (len - currentHistoryPosition state)
          else newGridStateHistory in
        let newGridStateHistory := push newGridStateHistory payload in
        let newActionHistory :=
          actionHistory state ++ [ConfigurableLayout.APPEND] in
        let newCurrentHistoryPosition := currentHistoryPosition state + 1 in
        let newCurrentHead :=
          at_index newGridStateHistory newCurrentHistoryPosition in
        mkState newGridStateHistory newActionHistory
                newCurrentHistoryPosition newCurrentHead
      else state
  | Action_UNDO =>
      if currentHistoryPosition state >? 0 then
        let newActionHistory :=
          actionHistory state ++ [ConfigurableLayout.UNDO] in
        let newCurrentHistoryPosition := currentHistoryPosition state - 1 in
        let newCurrentHead :=
          at_index (gridStateHistory state) newCurrentHistoryPosition in
        mkState (gridStateHistory state) newActionHistory
                newCurrentHistoryPosition newCurrentHead
      else state
  | Action_REDO =>
      if currentHistoryPosition state
         <? Z.of_nat (length (gridStateHistory state)) - 1 then
        let newActionHistory :=
          actionHistory state ++ [ConfigurableLayout.REDO] in
        let newCurrentHistoryPosition := currentHistoryPosition state + 1 in
        let newCurrentHead :=
          at_index (gridStateHistory state) newCurrentHistoryPosition in
        mkState (gridStateHistory state) newActionHistory
                newCurrentHistoryPosition newCurrentHead
      else state
  end.

(** [clickFAB]: the callback of [currentHead.map] assigns the new layout to
    each item object, in order, and returns the object; the payload is a
    new array of the same objects.  The result is the heap after the
    assignments, the reducer state after the dispatch and the new value of
    [isLayoutLocked]; [None] when [currentHead] is [undefined]. *)
Definition clickFAB (heap : Heap) (state : StateHistoryReducerState)
           (isLayoutLocked : bool)
  : option (Heap * StateHistoryReducerState * bool) :=
  let toBeLocked := negb isLayoutLocked in
  match currentHead state with
  | None => None
  | Some head =>
      let heap' :=
        fold_left
          (fun hp r => assign hp r (LayoutHandlers.setLock toBeLocked))
          head heap in
      let payload := head in
      Some (heap', stateHistoryReducer heap' state (Action_APPEND payload),
            toBeLocked)
  end.

(** The state of the claims' reducer that a state over references stands
    for: every reference replaced by the item it points to. *)
Definition itemsOf (heap : Heap) (snap : Snapshot) : GridSnapshot :=
  flat_map (fun r => match deref heap r with Some e => [e] | None => [] end)
           snap.

Definition stateOf (heap : Heap) (state : StateHistoryReducerState)
  : ConfigurableLayout.StateHistoryReducerState :=
  ConfigurableLayout.mkState
    (map (itemsOf heap) (gridStateHistory state))
    (actionHistory state)
    (currentHistoryPosition state)
    (option_map (itemsOf heap) (currentHead state)).

Definition actionOf (heap : Heap) (action : StateHistoryAction)
  : ConfigurableLayout.StateHistoryAction :=
  match action with
  | Action_APPEND payload =>
      ConfigurableLayout.Action_APPEND (itemsOf heap payload)
  | Action_UNDO => ConfigurableLayout.Action_UNDO
  | Action_REDO => ConfigurableLayout.Action_REDO
  end.

(** Every reference of the state and of the action points to an object. *)
Definition allocated (heap : Heap) (snap : Snapshot) : Prop :=
  Forall (fun r => (r < length heap)%nat) snap.

Definition stateAllocated (heap : Heap) (state : StateHistoryReducerState)
  : Prop :=
  Forall (allocated heap) (gridStateHistory state)
  /\ (forall head, currentHead state = Some head -> allocated heap head).

Definition actionAllocated (heap : Heap) (action : StateHistoryAction)
  : Prop :=
  match action with
  | Action_APPEND payload => allocated heap payload
  | _ => True
  end.

End SharedLayout.

(* ================================================================== *)
(** * The plot coordinates of renderGraphLines *)
(* ================================================================== *)

Module GraphLines.
Import JsNumber Graph.

(** [scale(ts[j] - graphNowMs + o.windowMs, 0, o.windowMs, 0, width)] *)
Definition plotX (o : Options) (width graphNowMs t : number) : number :=
  scale (plus (minus t graphNowMs) (windowMs o))
        (num 0) (windowMs o) (num 0) width.

(** [scale(vs[j], axis.min, axis.max, height, 0)] *)
Definition plotY (axis : Axis) (height v : number) : number :=
  scale v (min axis) (max axis) height (num 0).

(** [o.colors[i % o.colors.length]], the colour of the line of the [i]-th
    name of [Object.keys(this.data)]. *)
Definition lineColor (o : Options) (i : nat) : option string :=
  match colors o with
  | [] => None
  | _ => nth_error (colors o) (i mod length (colors o))%nat
  end.

End GraphLines.

(* ================================================================== *)
(** * Vocabulary of the further statements *)
(* ================================================================== *)

(** The graphs a run of [add] and [render] calls makes of a fresh one. *)
Inductive graphReachable (o : Graph.Options) : Graph.GraphState -> Prop :=
| graphReachable_reset : graphReachable o (Graph.reset o)
| graphReachable_add g samples now :
    graphReachable o g -> graphReachable o (Graph.add samples now g)
| graphReachable_render g now :
    graphReachable o g ->
    graphReachable o (fst (fst (Graph.render g now))).

(** The states the reducer over references can be in; the item objects
    may change and new ones may appear between two dispatches. *)
Inductive sharedReachable : SharedLayout.StateHistoryReducerState -> Prop :=
| sharedReachable_init : sharedReachable SharedLayout.initialState
| sharedReachable_step heap s a :
    sharedReachable s ->
    sharedReachable (SharedLayout.stateHistoryReducer heap s a).

(** The value of the loop variable of [getTicks] after [j] rounds. *)
Definition tickAt (axis : Graph.Axis) (j : nat) : JsNumber.number :=
  Nat.iter j (fun i => JsNumber.plus i (Graph.spacing axis)) (Graph.min axis).

(** What holds of the buffer of every such graph. *)
Definition bufferOk (d : Graph.Data) : Prop :=
  NoDup (map fst d)
  /\ ~ In "time"%string (map fst d)
  /\ (forall k s, In (k, s) d -> length (Graph.ts s) = length (Graph.vs s)).

(* ================================================================== *)
(** * The history reducer *)
(* ================================================================== *)

Section History.
Import JsArray ConfigurableLayout.

Implicit Types (s : StateHistoryReducerState) (p : GridSnapshot).

Local Abbreviation len s := (Z.of_nat (length (gridStateHistory s))).
Local Abbreviation pos s := (currentHistoryPosition s).

Lemma at_index_in_range {A} (l : list A) (i : Z) :
  0 <= i < Z.of_nat (length l) -> exists v, at_index l i = Some v.
Proof.
  intros Hi. unfold at_index.
  destruct (i <? 0) eqn:E; [apply Z.ltb_lt in E; lia|].
  destruct (nth_error l (Z.to_nat i)) eqn:N; [eauto|].
  apply nth_error_None in N. lia.
Qed.

Lemma at_index_out_of_range {A} (l : list A) (i : Z) :
  Z.of_nat (length l) <= i -> at_index l i = None.
Proof.
  intros Hi. unfold at_index.
  destruct (i <? 0) eqn:E; [reflexivity|].
  apply nth_error_None. lia.
Qed.

Lemma at_index_push {A} (l : list A) (v : A) :
  at_index (push l v) (Z.of_nat (length l)) = Some v.
Proof.
  unfold at_index, push.
  destruct (Z.of_nat (length l) <? 0) eqn:E; [apply Z.ltb_lt in E; lia|].
  rewrite Nat2Z.id, nth_error_app2 by lia.
  now rewrite Nat.sub_diag.
Qed.

(** Splicing away everything behind the cursor keeps the first
    [pos + 1] snapshots. *)
Lemma splice_after_cursor {A} (l : list A) (i : Z) :
  -1 <= i < Z.of_nat (length l) ->
  splice l (i + 1) (Z.of_nat (length l) - i) = firstn (Z.to_nat (i + 1)) l.
Proof.
  intros Hi. unfold splice.
  destruct (i + 1 <? 0) eqn:E; [apply Z.ltb_lt in E; lia|].
  replace (Z.min (i + 1) (Z.of_nat (length l))) with (i + 1) by lia.
  rewrite skipn_all2 by lia.
  apply app_nil_r.
Qed.

Lemma cursorOk_bounds s : cursorOk s -> -1 <= pos s < len s.
Proof. intros [[H0 H1]|[H0 _]]; lia. Qed.

(** An append that is applied: the snapshots up to the cursor, then the
    payload, with the cursor on it. *)
Lemma append_applied s p :
  cursorOk s -> shouldAppend s p = true ->
  stateHistoryReducer s (Action_APPEND p)
  = mkState (firstn (Z.to_nat (pos s + 1)) (gridStateHistory s) ++ [p])
            (actionHistory s ++ [APPEND]) (pos s + 1) (Some p).
Proof.
  intros Hok Happ. apply cursorOk_bounds in Hok.
  cbn [stateHistoryReducer]. rewrite Happ.
  assert (E : (if negb (pos s =? len s - 1)
               then splice (gridStateHistory s) (pos s + 1) (len s - pos s)
               else gridStateHistory s)
              = firstn (Z.to_nat (pos s + 1)) (gridStateHistory s)).
  { destruct (pos s =? len s - 1) eqn:E; cbn [negb].
    - apply Z.eqb_eq in E. rewrite firstn_all2; [reflexivity|lia].
    - apply splice_after_cursor. lia. }
  rewrite E. f_equal.
  replace (pos s + 1)
    with (Z.of_nat (length (firstn (Z.to_nat (pos s + 1))
                                   (gridStateHistory s)))) at 2
    by (rewrite length_firstn; lia).
  apply at_index_push.
Qed.

Lemma cursorOk_step s a : cursorOk s -> cursorOk (stateHistoryReducer s a).
Proof.
  intros H. destruct a as [p| |].
  - destruct (shouldAppend s p) eqn:Happ.
    + rewrite append_applied by assumption.
      pose proof (cursorOk_bounds s H).
      right. cbn [gridStateHistory currentHistoryPosition currentHead].
      rewrite length_app, length_firstn. cbn [length]. split; [lia|].
      replace (pos s + 1)
        with (Z.of_nat (length (firstn (Z.to_nat (pos s + 1))
                                       (gridStateHistory s))))  at 2
        by (rewrite length_firstn; lia).
      symmetry. apply at_index_push.
    + cbn [stateHistoryReducer]. now rewrite Happ.
  - cbn [stateHistoryReducer].
    destruct (pos s >? 0) eqn:E; [|exact H].
    apply Z.gtb_lt in E.
    right. cbn [gridStateHistory currentHistoryPosition currentHead].
    destruct H as [[H0 H1]|[H0 H1]]; [lia|]. split; [lia|reflexivity].
  - cbn [stateHistoryReducer].
    destruct (pos s <? len s - 1) eqn:E; [|exact H].
    apply Z.ltb_lt in E.
    right. cbn [gridStateHistory currentHistoryPosition currentHead].
    destruct H as [[H0 H1]|[H0 H1]]; [lia|]. split; [lia|reflexivity].
Qed.

Lemma reachable_cursorOk s : reachable s -> cursorOk s.
Proof.
  induction 1 as [|s a _ IH]; [left; split; reflexivity|].
  now apply cursorOk_step.
Qed.

Lemma append_keeps_cursorAtEnd s p :
  cursorOk s -> cursorAtEnd s ->
  cursorAtEnd (stateHistoryReducer s (Action_APPEND p)).
Proof.
  unfold cursorAtEnd. intros Hok Hend. cbn [stateHistoryReducer].
  destruct (shouldAppend s p); [|exact Hend].
  cbn [gridStateHistory currentHistoryPosition].
  rewrite Hend, Z.eqb_refl. cbn [negb].
  unfold push. rewrite length_app. cbn [length]. lia.
Qed.

Lemma appendAll_invariant payloads s :
  cursorOk s -> cursorAtEnd s ->
  cursorOk (appendAll payloads s) /\ cursorAtEnd (appendAll payloads s).
Proof.
  revert s. induction payloads as [|p ps IH]; intros s Hok Hend.
  - now split.
  - cbn [appendAll fold_left]. apply IH.
    + now apply cursorOk_step.
    + now apply append_keeps_cursorAtEnd.
Qed.

Lemma undoN_spec n s :
  cursorOk s ->
  let s' := dispatchN n Action_UNDO s in
  cursorOk s'
  /\ gridStateHistory s' = gridStateHistory s
  /\ (pos s' = Z.max (Z.min 0 (pos s)) (pos s - Z.of_nat n))
  /\ (n = 0%nat \/ pos s <= 0 -> currentHead s' = currentHead s).
Proof.
  revert s. induction n as [|n IH]; intros s Hok.
  - cbn. repeat split; auto; try lia.
  - cbn [dispatchN].
    pose proof (cursorOk_step s Action_UNDO Hok) as Hok'.
    specialize (IH _ Hok'). cbn zeta in IH.
    destruct IH as (I1 & I2 & I3 & I4).
    revert Hok' I1 I2 I3 I4. cbn [stateHistoryReducer].
    destruct (pos s >? 0) eqn:E.
    + cbn [gridStateHistory currentHistoryPosition currentHead].
      intros. apply Z.gtb_lt in E.
      repeat split; auto; try lia.
    + intros. rewrite Z.gtb_ltb in E. apply Z.ltb_ge in E.
      repeat split; auto; try lia;
        try (intros _; apply I4; now right).
Qed.

Lemma redoN_spec n s :
  cursorOk s ->
  let s' := dispatchN n Action_REDO s in
  cursorOk s'
  /\ gridStateHistory s' = gridStateHistory s
  /\ (pos s' = Z.min (Z.max (pos s) (len s - 1)) (pos s + Z.of_nat n))
  /\ (n = 0%nat \/ len s - 1 <= pos s -> currentHead s' = currentHead s).
Proof.
  revert s. induction n as [|n IH]; intros s Hok.
  - cbn. repeat split; auto; try lia.
  - cbn [dispatchN].
    pose proof (cursorOk_step s Action_REDO Hok) as Hok'.
    specialize (IH _ Hok'). cbn zeta in IH.
    destruct IH as (I1 & I2 & I3 & I4).
    revert Hok' I1 I2 I3 I4. cbn [stateHistoryReducer].
    destruct (pos s <? len s - 1) eqn:E.
    + cbn [gridStateHistory currentHistoryPosition currentHead].
      intros. apply Z.ltb_lt in E.
      repeat split; auto; try lia.
    + intros. apply Z.ltb_ge in E.
      repeat split; auto; try lia;
        try (intros _; apply I4; now right).
Qed.

(** C2 (history round-trip).  Take any run of appends from the initial
    state, then undo [n] times and redo [n] times: the head snapshot is
    the one the appends left. *)
Theorem history_round_trip (payloads : list GridSnapshot) (n : nat) :
  let s := appendAll payloads initialState in
  currentHead (dispatchN n Action_REDO (dispatchN n Action_UNDO s))
  = currentHead s.
Proof.
  intros s.
  assert (Hinit : cursorOk initialState) by (left; split; reflexivity).
  destruct (appendAll_invariant payloads initialState Hinit eq_refl)
    as [Hok Hend]. fold s in Hok, Hend. unfold cursorAtEnd in Hend.
  destruct (undoN_spec n s Hok) as (U1 & U2 & U3 & U4).
  set (u := dispatchN n Action_UNDO s) in *.
  destruct (redoN_spec n u U1) as (R1 & R2 & R3 & R4).
  set (r := dispatchN n Action_REDO u) in *.
  destruct Hok as [[H0 H1]|[H0 H1]].
  - (* empty history: neither action does anything *)
    rewrite R4, U4; auto; right; rewrite ?U2, ?H0; cbn; lia.
  - assert (Hpos : pos r = pos s) by (rewrite R3, U2, U3; lia).
    destruct R1 as [[R0 _]|[_ Rh]].
    + rewrite R2, U2 in R0. lia.
    + rewrite Rh, Hpos, R2, U2. now symmetry.
Qed.

(** C3 (redo truncation).  In a state the reducer can reach whose cursor
    is below the last index, an append that is applied keeps the
    snapshots up to the cursor, drops every snapshot after it and puts
    the payload last with the cursor on it; nothing is stored beyond the
    new cursor, and a redo right after returns the same state. *)
Theorem append_after_undo_truncates s p :
  reachable s ->
  pos s < len s - 1 ->
  shouldAppend s p = true ->
  let s' := stateHistoryReducer s (Action_APPEND p) in
  gridStateHistory s'
  = firstn (Z.to_nat (pos s + 1)) (gridStateHistory s) ++ [p]
  /\ pos s' = pos s + 1
  /\ pos s' = len s' - 1
  /\ (forall i, pos s' < i -> at_index (gridStateHistory s') i = None)
  /\ stateHistoryReducer s' Action_REDO = s'.
Proof.
  intros Hreach Hbelow Happ s'.
  pose proof (reachable_cursorOk s Hreach) as Hok.
  pose proof (cursorOk_bounds s Hok) as Hb.
  subst s'. rewrite append_applied by assumption.
  cbn [gridStateHistory currentHistoryPosition stateHistoryReducer].
  assert (Hlen : Z.of_nat (length (firstn (Z.to_nat (pos s + 1))
                                          (gridStateHistory s) ++ [p]))
                 = pos s + 2).
  { rewrite length_app, length_firstn. cbn [length]. lia. }
  repeat split.
  - lia.
  - intros i Hi. apply at_index_out_of_range. lia.
  - rewrite Hlen.
    destruct (pos s + 1 <? pos s + 2 - 1) eqn:E; [|reflexivity].
    apply Z.ltb_lt in E. lia.
Qed.

(** Two appends and one undo: the cursor is below the last index, and a
    third, different snapshot is appended. *)
Lemma append_after_undo_truncates_witness :
  let s := stateHistoryReducer
             (appendAll [DEFAULT_GRID; DEFAULT_GRID_MEDIUM] initialState)
             Action_UNDO in
  let s' := stateHistoryReducer s (Action_APPEND DEFAULT_GRID_TALL) in
  gridStateHistory s' = [DEFAULT_GRID; DEFAULT_GRID_TALL]
  /\ pos s' = 1
  /\ stateHistoryReducer s' Action_REDO = s'.
Proof.
  intros s s'.
  assert (Hreach : reachable s).
  { unfold s, appendAll. cbn [fold_left]. repeat constructor. }
  destruct (append_after_undo_truncates s DEFAULT_GRID_TALL Hreach)
    as (H1 & H2 & _ & _ & H5).
  - vm_compute. reflexivity.
  - vm_compute. reflexivity.
  - fold s' in H1, H2, H5. split; [|split].
    + rewrite H1. reflexivity.
    + rewrite H2. reflexivity.
    + exact H5.
Defined.

End History.

(* ================================================================== *)
(** * Panel placement *)
(* ================================================================== *)

Section Placement.
Import JsArray.

Implicit Types (e : GridItemType) (items : GridSnapshot).

(** ** Maxima of lists *)

Lemma fold_max_ge_init (l : list Z) (a : Z) : a <= fold_left Z.max l a.
Proof.
  revert a. induction l as [|v l IH]; intros a; cbn; [lia|].
  specialize (IH (Z.max a v)). lia.
Qed.

Lemma fold_max_ge_elem (l : list Z) (a v : Z) :
  In v l -> v <= fold_left Z.max l a.
Proof.
  revert a. induction l as [|u l IH]; intros a; cbn; [tauto|].
  intros [->|Hin]; [|now apply IH].
  pose proof (fold_max_ge_init l (Z.max a v)). lia.
Qed.

Lemma fold_max_attained (l : list Z) (a : Z) :
  fold_left Z.max l a = a \/ In (fold_left Z.max l a) l.
Proof.
  revert a. induction l as [|u l IH]; intros a; cbn; [now left|].
  destruct (IH (Z.max a u)) as [E|Hin]; [|now right; right].
  rewrite E. destruct (Z.max_spec a u) as [[_ ->]|[_ ->]]; auto.
Qed.

Lemma maxOr0_ge (l : list Z) (v : Z) : In v l -> v <= maxOr0 l.
Proof.
  destruct l as [|a r]; cbn; [tauto|].
  intros [->|Hin]; [apply fold_max_ge_init|now apply fold_max_ge_elem].
Qed.

Lemma maxOr0_attained (l : list Z) : l <> [] -> In (maxOr0 l) l.
Proof.
  destruct l as [|a r]; [congruence|]. intros _. cbn.
  destruct (fold_max_attained r a) as [->|Hin]; auto.
Qed.

Lemma Math_max_fold (l : list Z) (a : Z) :
  fold_left
    (fun acc v =>
       match acc with
       | NegInfinity => Finite v
       | Finite a => Finite (Z.max a v)
       end) l (Finite a)
  = Finite (fold_left Z.max l a).
Proof. revert a. induction l as [|v l IH]; intros a; cbn; auto. Qed.

Lemma Math_max_nonempty (l : list Z) :
  l <> [] -> Math_max l = Finite (maxOr0 l).
Proof.
  destruct l as [|a r]; [congruence|]. intros _.
  unfold Math_max. cbn. apply Math_max_fold.
Qed.

(** ** The bottom-most panels *)

Lemma bottomMost_ge items e : In e items -> bottom e <= bottomMost items.
Proof. intros Hin. apply maxOr0_ge. now apply in_map. Qed.

Lemma bottomMost_attained items :
  items <> [] -> exists e, In e items /\ bottom e = bottomMost items.
Proof.
  intros Hne.
  assert (H : map bottom items <> []) by (destruct items; cbn; congruence).
  apply maxOr0_attained in H. apply in_map_iff in H.
  destruct H as (e & He & Hin). eauto.
Qed.

Lemma atBottom_nonempty items :
  items <> [] ->
  filter (fun e => bottom e =? bottomMost items) items <> [].
Proof.
  intros Hne. destruct (bottomMost_attained items Hne) as (e & Hin & He).
  assert (H : In e (filter (fun e => bottom e =? bottomMost items) items)).
  { apply filter_In. split; [assumption|]. now apply Z.eqb_eq. }
  intros E. rewrite E in H. exact H.
Qed.

Lemma rightEdge_ge items e :
  In e items -> bottom e = bottomMost items ->
  right e <= rightEdgeAtBottom items.
Proof.
  intros Hin He. apply maxOr0_ge, in_map, filter_In.
  split; [assumption|]. now apply Z.eqb_eq.
Qed.

Lemma rightEdge_attained items :
  items <> [] ->
  exists e, In e items /\ bottom e = bottomMost items
            /\ right e = rightEdgeAtBottom items.
Proof.
  intros Hne. pose proof (atBottom_nonempty items Hne) as Hf.
  assert (H : map right (filter (fun e => bottom e =? bottomMost items)
                                items) <> []).
  { destruct (filter _ items); cbn; congruence. }
  apply maxOr0_attained in H. apply in_map_iff in H.
  destruct H as (e & He & Hin). apply filter_In in Hin.
  destruct Hin as [Hin Hb]. apply Z.eqb_eq in Hb. eauto.
Qed.

(** ** ConfigurableLayout.tsx *)

(** The spread that yields [maxX] is never empty. *)
Lemma placement_maxX_finite items :
  items <> [] ->
  Math_max (map right (filter (fun e => bottom e =? bottomMost items) items))
  = Finite (rightEdgeAtBottom items).
Proof.
  intros Hne. apply Math_max_nonempty.
  pose proof (atBottom_nonempty items Hne).
  destruct (filter _ items); cbn; congruence.
Qed.

Lemma placement_nonempty items :
  items <> [] ->
  ConfigurableLayout.placement items
  = if rightEdgeAtBottom items <=? ConfigurableLayout.COLS - ITEM_WIDTH
    then (rightEdgeAtBottom items, bottomMost items - ITEM_HEIGHT)
    else (0, bottomMost items).
Proof.
  intros Hne. unfold ConfigurableLayout.placement.
  rewrite (Math_max_nonempty (map bottom items))
    by (destruct items; cbn; congruence).
  fold (bottomMost items).
  destruct items as [|e0 items']; [congruence|].
  cbn [length Nat.eqb negb].
  now rewrite placement_maxX_finite.
Qed.

(** ** The refined component *)

Lemma lexLe_trans p q r : lexLe p q -> lexLe q r -> lexLe p r.
Proof. unfold lexLe. intros [?|[? ?]] [?|[? ?]]; lia. Qed.

Lemma lexLe_antisym p q : lexLe p q -> lexLe q p -> p = q.
Proof.
  destruct p, q. unfold lexLe. cbn.
  intros [?|[? ?]] [?|[? ?]]; try lia. f_equal; lia.
Qed.

Lemma maxArray_pair (a1 a2 b1 b2 : Z) :
  exists m r,
    RefinedLayout.maxArray [a1; a2] [b1; b2] = Some [m; r]
    /\ lexLe (a1, a2) (m, r) /\ lexLe (b1, b2) (m, r)
    /\ ((m, r) = (a1, a2) \/ (m, r) = (b1, b2)).
Proof.
  unfold RefinedLayout.maxArray, lexLe. cbn.
  destruct (a1 >? b1) eqn:E1; [|destruct (b1 >? a1) eqn:E2;
    [|destruct (a2 >? b2) eqn:E3; [|destruct (b2 >? a2) eqn:E4]]];
    rewrite ?Z.gtb_ltb in *;
    repeat match goal with
           | H : (_ <? _) = true |- _ => apply Z.ltb_lt in H
           | H : (_ <? _) = false |- _ => apply Z.ltb_ge in H
           end;
    do 2 eexists; (split; [reflexivity|]); cbn; repeat split; auto; lia.
Qed.

(** The reduction never throws, and yields the lexicographic maximum of
    its start value and the pairs. *)
Lemma reduce_maxArray_spec items (A B : Z) :
  exists M R,
    RefinedLayout.reduce_maxArray
      (map (fun e => [bottom e; right e]) items) [A; B] = Some [M; R]
    /\ lexLe (A, B) (M, R)
    /\ (forall e, In e items -> lexLe (bottom e, right e) (M, R))
    /\ ((M, R) = (A, B)
        \/ exists e, In e items /\ (bottom e, right e) = (M, R)).
Proof.
  unfold RefinedLayout.reduce_maxArray.
  revert A B. induction items as [|e0 items IH]; intros A B.
  - exists A, B. cbn. repeat split; auto; try tauto. right. cbn. lia.
  - cbn [map fold_left].
    destruct (maxArray_pair A B (bottom e0) (right e0))
      as (m & r & -> & HA & He0 & Hsrc).
    destruct (IH m r) as (M & R & Hred & Hmr & Hall & Hatt).
    exists M, R. split; [exact Hred|]. split; [|split].
    + eapply lexLe_trans; eassumption.
    + intros e [<-|Hin]; [eapply lexLe_trans; eassumption|now apply Hall].
    + destruct Hatt as [E|(e & Hin & E)].
      * destruct Hsrc as [E'|E'].
        -- left. congruence.
        -- right. exists e0. split; [now left|congruence].
      * right. exists e. split; [now right|assumption].
Qed.

(** On panels of the grid quadrant the reduction computes the bottom-most
    edge and the right edge at the bottom. *)
Lemma reduce_maxArray_bottomMost items :
  Forall inQuadrant items ->
  RefinedLayout.reduce_maxArray
    (map (fun e => [bottom e; right e]) items) [0; 0]
  = Some [bottomMost items; rightEdgeAtBottom items].
Proof.
  intros Hq. rewrite Forall_forall in Hq.
  destruct (reduce_maxArray_spec items 0 0) as (M & R & -> & H0 & Hall & Hatt).
  assert (E : (M, R) = (bottomMost items, rightEdgeAtBottom items));
    [|now inversion E].
  destruct items as [|e0 items'] eqn:Eitems.
  - destruct Hatt as [E|(e & [] & _)]. exact E.
  - rewrite <- Eitems in *.
    assert (Hne : items <> []) by (rewrite Eitems; congruence).
    destruct (rightEdge_attained items Hne) as (em & Hinm & Hbm & Hrm).
    apply lexLe_antisym.
    + destruct Hatt as [E|(e & Hin & E)].
      * rewrite E. destruct (Hq em Hinm) as [Hb Hr]. unfold lexLe. cbn.
        lia.
      * rewrite <- E. unfold lexLe. cbn.
        pose proof (bottomMost_ge items e Hin) as Hle.
        destruct (Z.eq_dec (bottom e) (bottomMost items)) as [Eb|Nb];
          [|lia].
        right. split; [assumption|now apply rightEdge_ge].
    + rewrite <- Hbm, <- Hrm. now apply Hall.
Qed.

Lemma newItemTopMin_ge items (left : Z) e :
  In e items ->
  RefinedLayout.intervalsIntersect left (left + ITEM_WIDTH)
    (x (layout e)) (x (layout e) + w (layout e)) = true ->
  bottom e <= RefinedLayout.newItemTopMin items left.
Proof.
  intros Hin Hx. unfold RefinedLayout.newItemTopMin.
  apply fold_max_ge_elem, in_map, filter_In. now split.
Qed.

Lemma newItemTopMin_le items (left bound : Z) :
  0 <= bound -> (forall e, In e items -> bottom e <= bound) ->
  RefinedLayout.newItemTopMin items left <= bound.
Proof.
  intros Hb Hall. unfold RefinedLayout.newItemTopMin.
  match goal with |- fold_left _ ?l 0 <= _ => set (bs := l) end.
  change (fold_left Z.max bs 0 <= bound).
  destruct (fold_max_attained bs 0) as [E|Hin].
  - rewrite E. exact Hb.
  - apply in_map_iff in Hin. destruct Hin as (e & <- & Hin).
    apply filter_In in Hin. now apply Hall.
Qed.

Lemma intervalsIntersect_spans (a b c d : Z) :
  spansOverlap a b c d <-> RefinedLayout.intervalsIntersect a b c d = true.
Proof.
  unfold spansOverlap, RefinedLayout.intervalsIntersect.
  rewrite Z.ltb_lt. split.
  - intros (t & ? & ?). lia.
  - intros H. exists (Z.max a c). lia.
Qed.

(** The refined [addItem] never throws. *)
Lemma refined_tentative_total items :
  exists bot left, RefinedLayout.tentative items = Some (bot, left).
Proof.
  unfold RefinedLayout.tentative.
  destruct (reduce_maxArray_spec items 0 0) as (M & R & -> & _).
  destruct (R + ITEM_WIDTH >? GRID_COL); eauto.
Qed.

(** The panel the refined [addItem] places overlaps no panel of the
    grid, whatever the grid. *)
Lemma refined_addItem_no_overlap items locked uuid v :
  exists e',
    RefinedLayout.newItem items locked uuid v = Some e'
    /\ w (layout e') = ITEM_WIDTH /\ h (layout e') = ITEM_HEIGHT
    /\ forall e, In e items -> ~ overlap (layout e') (layout e).
Proof.
  unfold RefinedLayout.newItem.
  destruct (refined_tentative_total items) as (bot & left & ->).
  eexists. split; [reflexivity|]. cbn [layout w h x y].
  split; [reflexivity|]. split; [reflexivity|].
  intros e Hin [Hx Hy]. cbn [layout w h x y] in Hx, Hy.
  apply intervalsIntersect_spans in Hx.
  pose proof (newItemTopMin_ge items left e Hin Hx) as Hle.
  destruct Hy as (t & Ht & Hte). unfold bottom in Hle. lia.
Qed.

(** C1 (placement non-overlap), evaluated on [addItem] of
    ConfigurableLayout.tsx.  The grid holds two panels that do not
    overlap: the field view at (0,0) of size 2x9 and the graph view at
    (2,0) of size 2x6.  [addItem] puts the new 2x4 panel at (2,5), next
    to the bottom-most panel, and its rectangle shares the cells of row 5
    in columns 2 and 3 with the graph view: the two overlap on both
    axes. *)
Theorem addItem_overlaps_panel_above locked uuid v :
  let field := ConfigurableLayout.item "uuid-0" FIELD_VIEW 0 0 2 9 in
  let graph := ConfigurableLayout.item "uuid-1" GRAPH_VIEW 2 0 2 6 in
  let e' := ConfigurableLayout.newItem [field; graph] locked uuid v in
  ~ overlap (layout field) (layout graph)
  /\ ConfigurableLayout.addItem [field; graph] locked uuid v
     = [field; graph; e']
  /\ (x (layout e'), y (layout e'), w (layout e'), h (layout e'))
     = (2, 5, 2, 4)
  /\ overlap (layout e') (layout graph).
Proof.
  cbn zeta. split; [|split; [|split]].
  - intros [(t & Ht1 & Ht2) _]. cbn in Ht1, Ht2. lia.
  - reflexivity.
  - reflexivity.
  - split; [exists 2|exists 5]; cbn; lia.
Qed.

Lemma bottomMost_nonneg items :
  Forall inQuadrant items -> 0 <= bottomMost items.
Proof.
  intros Hq. destruct items as [|e0 items']; [cbn; lia|].
  pose proof (bottomMost_ge (e0 :: items') e0 (or_introl eq_refl)) as Hge.
  apply Forall_inv in Hq. destruct Hq as [Hb _]. lia.
Qed.

(** C6, as stated, fails on the default grid: the right edge at the
    bottom is 6, so the new panel wraps to column 0, and both components
    give it y = 9, the previous bottom, not 9 + 4. *)
Lemma placement_wrap_counterexample :
  let grid := ConfigurableLayout.DEFAULT_GRID in
  ~ (rightEdgeAtBottom grid + ITEM_WIDTH > GRID_COL ->
     (exists e, RefinedLayout.newItem grid true "uuid-4" GRAPH_VIEW = Some e
                /\ x (layout e) = 0
                /\ y (layout e) = bottomMost grid + ITEM_HEIGHT)
     \/ ConfigurableLayout.placement grid
        = (0, bottomMost grid + ITEM_HEIGHT)).
Proof.
  cbn zeta. intros H.
  destruct H as [(e & He & _ & Hy)|H].
  - vm_compute. reflexivity.
  - vm_compute in He. injection He as <-. vm_compute in Hy. discriminate.
  - vm_compute in H. discriminate.
Qed.

(** C6, amended.  On panels of the grid quadrant:
    - the refined component takes (bottomMost, rightEdgeAtBottom) as the
      bottom edge and the left edge of the tentative place, and when
      rightEdgeAtBottom + 2 > 6 it moves the left edge to column 0 and
      the bottom edge to bottomMost + 4; the new panel then has x = 0
      and y = bottomMost in the wrap case, and x = rightEdgeAtBottom and
      y = max (bottomMost - 4) (minimum top) otherwise;
    - on a grid that is not empty ConfigurableLayout.tsx places the new
      panel at (0, bottomMost) in the wrap case and at
      (rightEdgeAtBottom, bottomMost - 4) otherwise. *)
Theorem placement_rule items :
  Forall inQuadrant items ->
  let bm := bottomMost items in
  let re := rightEdgeAtBottom items in
  RefinedLayout.tentative items
  = Some (if wraps items then (bm + ITEM_HEIGHT, 0) else (bm, re))
  /\ (forall locked uuid v,
        exists e,
          RefinedLayout.newItem items locked uuid v = Some e
          /\ x (layout e) = (if wraps items then 0 else re)
          /\ y (layout e)
             = (if wraps items then bm
                else Z.max (bm - ITEM_HEIGHT)
                           (RefinedLayout.newItemTopMin items re)))
  /\ (items <> [] ->
      ConfigurableLayout.placement items
      = if wraps items then (0, bm) else (re, bm - ITEM_HEIGHT)).
Proof.
  intros Hq bm re.
  assert (Ht : RefinedLayout.tentative items
               = Some (if wraps items then (bm + ITEM_HEIGHT, 0)
                       else (bm, re))).
  { unfold RefinedLayout.tentative.
    rewrite reduce_maxArray_bottomMost by assumption.
    fold bm re. unfold wraps. fold re.
    now destruct (re + ITEM_WIDTH >? GRID_COL). }
  split; [exact Ht|]. split.
  - intros locked uuid v. unfold RefinedLayout.newItem. rewrite Ht.
    destruct (wraps items) eqn:W.
    + eexists. split; [reflexivity|]. cbn [layout x y].
      split; [reflexivity|].
      pose proof (bottomMost_nonneg items Hq) as Hbm. fold bm in Hbm.
      pose proof (newItemTopMin_le items 0 bm Hbm
                    (fun e Hin => bottomMost_ge items e Hin)).
      lia.
    + eexists. split; [reflexivity|]. cbn [layout x y]. now split.
  - intros Hne. rewrite placement_nonempty by assumption.
    fold bm re. unfold wraps. fold re.
    unfold ConfigurableLayout.COLS, ITEM_WIDTH, GRID_COL.
    destruct (re <=? 6 - 2) eqn:E1; destruct (re + 2 >? 6) eqn:E2;
      try reflexivity; rewrite Z.gtb_ltb in E2;
      [apply Z.leb_le in E1; apply Z.ltb_lt in E2
      |apply Z.leb_gt in E1; apply Z.ltb_ge in E2]; lia.
Qed.

(** On an empty grid both components put the new panel at the origin. *)
Lemma placement_empty locked uuid v :
  RefinedLayout.newItem [] locked uuid v
  = Some (ConfigurableLayout.newItem [] locked uuid v)
  /\ ConfigurableLayout.placement [] = (0, 0).
Proof. split; reflexivity. Qed.

Lemma placement_rule_witness :
  RefinedLayout.tentative ConfigurableLayout.DEFAULT_GRID = Some (13, 0)
  /\ ConfigurableLayout.placement ConfigurableLayout.DEFAULT_GRID = (0, 9)
  /\ RefinedLayout.tentative ConfigurableLayout.DEFAULT_GRID_TALL
     = Some (18, 4)
  /\ ConfigurableLayout.placement ConfigurableLayout.DEFAULT_GRID_TALL
     = (4, 14).
Proof.
  assert (Hq1 : Forall inQuadrant ConfigurableLayout.DEFAULT_GRID)
    by (repeat (apply Forall_cons; [split; cbn; lia|]); apply Forall_nil).
  assert (Hq2 : Forall inQuadrant ConfigurableLayout.DEFAULT_GRID_TALL)
    by (repeat (apply Forall_cons; [split; cbn; lia|]); apply Forall_nil).
  destruct (placement_rule ConfigurableLayout.DEFAULT_GRID Hq1)
    as (A1 & _ & A3).
  destruct (placement_rule ConfigurableLayout.DEFAULT_GRID_TALL Hq2)
    as (B1 & _ & B3).
  split; [rewrite A1; reflexivity|].
  split; [rewrite A3; [reflexivity|discriminate]|].
  split; [rewrite B1; reflexivity|].
  rewrite B3; [reflexivity|discriminate].
Defined.

End Placement.

(* ================================================================== *)
(** * Rounding to binary64 *)
(* ================================================================== *)

Section Rounding.
Import JsNumber.

Local Open Scope Q_scope.

Lemma pow2_pos (e : Z) : 0 < 2 ^ e.
Proof. apply Qpower_0_lt. reflexivity. Qed.

Lemma pow2_succ (e : Z) : 2 ^ (e + 1) == 2 ^ e * 2.
Proof. rewrite Qpower_plus by discriminate. reflexivity. Qed.

Lemma pow2_le (a b : Z) : (a <= b)%Z -> 2 ^ a <= 2 ^ b.
Proof. intros H. apply Qpower_le_compat_l; [assumption|discriminate]. Qed.

Lemma pow2_lt_inv (a b : Z) : 2 ^ a < 2 ^ b -> (a < b)%Z.
Proof. intros H. apply (Qpower_lt_compat_l_inv 2); [assumption|reflexivity]. Qed.

Lemma Zpow2_Q (n : Z) : (0 <= n)%Z -> inject_Z (2 ^ n) == 2 ^ n.
Proof. intros H. now rewrite Zpower_Qpower. Qed.

(** The binary exponent of a positive rational. *)
Lemma ilog2_spec (q : Q) :
  0 < q -> 2 ^ ilog2 q <= q /\ q < 2 ^ (ilog2 q + 1).
Proof.
  intros Hq. destruct q as [n d]. unfold ilog2. cbn [Qnum Qden].
  assert (Hn : (0 < n)%Z).
  { unfold Qlt in Hq. cbn in Hq. lia. }
  set (a := Z.log2 n). set (b := Z.log2 (Zpos d)).
  destruct (Z.log2_spec n Hn) as [Ha1 Ha2]. fold a in Ha1, Ha2.
  destruct (Z.log2_spec (Zpos d) ltac:(lia)) as [Hb1 Hb2].
  fold b in Hb1, Hb2.
  assert (Ha0 : (0 <= a)%Z) by apply Z.log2_nonneg.
  assert (Hb0 : (0 <= b)%Z) by apply Z.log2_nonneg.
  assert (Hd : 0 < inject_Z (Zpos d)) by reflexivity.
  assert (Eq : n # d == inject_Z n / inject_Z (Zpos d)).
  { rewrite (Qmake_Qdiv n d). reflexivity. }
  assert (Hlo : 2 ^ (a - b - 1) < n # d).
  { rewrite Eq. apply Qlt_shift_div_l; [assumption|].
    apply Qlt_le_trans with (2 ^ (a - b - 1) * 2 ^ (b + 1)).
    - apply Qmult_lt_l; [apply pow2_pos|].
      rewrite <- Zpow2_Q by lia. rewrite <- Zlt_Qlt.
      replace (Z.succ b) with (b + 1)%Z in Hb2 by lia. assumption.
    - rewrite <- Qpower_plus by discriminate.
      replace (a - b - 1 + (b + 1))%Z with a by lia.
      rewrite <- Zpow2_Q by lia. rewrite <- Zle_Qle. assumption. }
  assert (Hhi : n # d < 2 ^ (a - b + 1)).
  { rewrite Eq. apply Qlt_shift_div_r; [assumption|].
    apply Qlt_le_trans with (2 ^ (a + 1)).
    - rewrite <- Zpow2_Q by lia. rewrite <- Zlt_Qlt.
      replace (Z.succ a) with (a + 1)%Z in Ha2 by lia. assumption.
    - replace (a + 1)%Z with (a - b + 1 + b)%Z by lia.
      rewrite Qpower_plus by discriminate.
      apply Qmult_le_l; [apply pow2_pos|].
      rewrite <- Zpow2_Q by lia. rewrite <- Zle_Qle. assumption. }
  destruct (Qle_bool (2 ^ (a - b)) (n # d)) eqn:E.
  - apply Qle_bool_iff in E. split; assumption.
  - replace (a - b - 1 + 1)%Z with (a - b)%Z by lia. split.
    + apply Qlt_le_weak. assumption.
    + apply Qnot_le_lt. intros H. apply Qle_bool_iff in H. congruence.
Qed.

Lemma ilog2_mono (p q : Q) : 0 < p -> p <= q -> (ilog2 p <= ilog2 q)%Z.
Proof.
  intros Hp Hpq.
  destruct (ilog2_spec p Hp) as [Hp1 _].
  destruct (ilog2_spec q ltac:(lra)) as [_ Hq2].
  assert (H : 2 ^ ilog2 p < 2 ^ (ilog2 q + 1)) by lra.
  apply pow2_lt_inv in H. lia.
Qed.

(** Rounding to the nearest integer, ties to even. *)
Lemma roundHalfEven_bounds (x : Q) :
  (Qfloor x <= roundHalfEven x <= Qfloor x + 1)%Z.
Proof.
  unfold roundHalfEven.
  destruct (x - inject_Z (Qfloor x) ?= 1 # 2); [destruct (Z.even _)| |]; lia.
Qed.

Lemma roundHalfEven_Z (z : Z) : roundHalfEven (inject_Z z) = z.
Proof.
  unfold roundHalfEven. rewrite Qfloor_Z.
  assert (H : (inject_Z z - inject_Z z ?= 1 # 2) = Lt).
  { apply Qlt_alt.
    setoid_replace (inject_Z z - inject_Z z) with 0 by ring. reflexivity. }
  now rewrite H.
Qed.

Lemma roundHalfEven_mono (x y : Q) :
  x <= y -> (roundHalfEven x <= roundHalfEven y)%Z.
Proof.
  intros Hxy. pose proof (Qfloor_resp_le x y Hxy) as Hf.
  destruct (Z.eq_dec (Qfloor x) (Qfloor y)) as [E|N].
  - unfold roundHalfEven. rewrite <- E.
    destruct (x - inject_Z (Qfloor x) ?= 1 # 2) eqn:Ex,
             (y - inject_Z (Qfloor x) ?= 1 # 2) eqn:Ey;
      try destruct (Z.even (Qfloor x)); try lia; exfalso;
      first [apply Qeq_alt in Ex | apply Qlt_alt in Ex | apply Qgt_alt in Ex];
      first [apply Qeq_alt in Ey | apply Qlt_alt in Ey | apply Qgt_alt in Ey];
      lra.
  - pose proof (roundHalfEven_bounds x). pose proof (roundHalfEven_bounds y).
    lia.
Qed.

Lemma roundHalfEven_le (x : Q) (z : Z) :
  x <= inject_Z z -> (roundHalfEven x <= z)%Z.
Proof.
  intros H. rewrite <- (roundHalfEven_Z z). now apply roundHalfEven_mono.
Qed.

Lemma roundHalfEven_ge (x : Q) (z : Z) :
  inject_Z z <= x -> (z <= roundHalfEven x)%Z.
Proof.
  intros H. rewrite <- (roundHalfEven_Z z). now apply roundHalfEven_mono.
Qed.

Lemma lastPlace_mono (p q : Q) :
  0 < p -> p <= q -> (lastPlace p <= lastPlace q)%Z.
Proof.
  intros Hp Hpq. unfold lastPlace.
  pose proof (ilog2_mono p q Hp Hpq). lia.
Qed.

Lemma Qdiv_le_mono (p q c : Q) : 0 < c -> p <= q -> p / c <= q / c.
Proof.
  intros Hc H. unfold Qdiv. apply Qmult_le_compat_r; [assumption|].
  apply Qlt_le_weak, Qinv_lt_0_compat. assumption.
Qed.

Lemma Qdiv_pow2 (a b : Z) : 2 ^ a / 2 ^ b == 2 ^ (a - b).
Proof.
  unfold Zminus. rewrite Qpower_plus by discriminate.
  rewrite Qpower_opp. reflexivity.
Qed.

Lemma nearest_nonneg (a : Q) : 0 <= a -> 0 <= nearest a.
Proof.
  intros Ha. unfold nearest. apply Qmult_le_0_compat.
  - change 0 with (inject_Z 0). rewrite <- Zle_Qle.
    apply roundHalfEven_ge. change (inject_Z 0) with 0.
    apply Qle_shift_div_l; [apply pow2_pos|]. lra.
  - apply Qlt_le_weak, pow2_pos.
Qed.

Lemma nearest_mono (p q : Q) : 0 < p -> p <= q -> nearest p <= nearest q.
Proof.
  intros Hp Hpq. assert (Hq : 0 < q) by lra.
  pose proof (lastPlace_mono p q Hp Hpq) as He.
  unfold nearest.
  set (ep := lastPlace p) in *. set (eq := lastPlace q) in *.
  destruct (Z.eq_dec ep eq) as [E|N].
  - rewrite E. apply Qmult_le_compat_r; [|apply Qlt_le_weak, pow2_pos].
    rewrite <- Zle_Qle. apply roundHalfEven_mono.
    apply Qdiv_le_mono; [apply pow2_pos|assumption].
  - assert (Hlt : (ep < eq)%Z) by lia.
    destruct (ilog2_spec p Hp) as [_ Hp2].
    destruct (ilog2_spec q Hq) as [Hq1 _].
    assert (Heq : eq = (ilog2 q - 52)%Z) by (unfold eq, ep, lastPlace in *; lia).
    assert (Hep : (ilog2 p - 52 <= ep)%Z) by (unfold ep, lastPlace; lia).
    set (Lq := ilog2 q) in *. set (Lp := ilog2 p) in *.
    apply Qle_trans with (2 ^ Lq).
    + (* the smaller one stays at or below 2^Lq *)
      assert (Hn : (0 <= Lq - ep)%Z) by lia.
      apply Qle_trans with (inject_Z (2 ^ (Lq - ep)) * 2 ^ ep).
      * apply Qmult_le_compat_r; [|apply Qlt_le_weak, pow2_pos].
        rewrite <- Zle_Qle. apply roundHalfEven_le.
        rewrite Zpow2_Q by assumption.
        apply Qle_shift_div_r; [apply pow2_pos|].
        rewrite <- Qpower_plus by discriminate.
        replace (Lq - ep + ep)%Z with Lq by lia.
        apply Qle_trans with (2 ^ (Lp + 1)); [lra|].
        apply pow2_le. lia.
      * rewrite Zpow2_Q by assumption.
        rewrite <- Qpower_plus by discriminate.
        replace (Lq - ep + ep)%Z with Lq by lia. apply Qle_refl.
    + (* the larger one stays at or above 2^Lq *)
      apply Qle_trans with (inject_Z (2 ^ 52) * 2 ^ eq).
      * rewrite Zpow2_Q by lia.
        rewrite <- Qpower_plus by discriminate.
        replace (52 + eq)%Z with Lq by lia. apply Qle_refl.
      * apply Qmult_le_compat_r; [|apply Qlt_le_weak, pow2_pos].
        rewrite <- Zle_Qle. apply roundHalfEven_ge.
        rewrite Zpow2_Q by lia.
        apply Qle_shift_div_l; [apply pow2_pos|].
        rewrite <- Qpower_plus by discriminate.
        replace (52 + eq)%Z with Lq by lia. assumption.
Qed.

Lemma roundPos_cases (a : Q) :
  (roundPos a = PosInf /\ 2 ^ 1024 <= nearest a)
  \/ (roundPos a = Fin (Qred (nearest a)) /\ nearest a < 2 ^ 1024).
Proof.
  unfold roundPos. destruct (Qle_bool (2 ^ 1024) (nearest a)) eqn:E.
  - left. split; [reflexivity|]. now apply Qle_bool_iff.
  - right. split; [reflexivity|].
    apply Qnot_le_lt. intros H. apply Qle_bool_iff in H. congruence.
Qed.

Lemma roundPos_mono (p q : Q) :
  0 < p -> p <= q -> le (roundPos p) (roundPos q) = true.
Proof.
  intros Hp Hpq. pose proof (nearest_mono p q Hp Hpq) as H.
  destruct (roundPos_cases p) as [[-> Hp1]|[-> Hp1]],
           (roundPos_cases q) as [[-> Hq1]|[-> Hq1]];
    cbn [le]; try reflexivity.
  - exfalso. lra.
  - apply Qle_bool_iff. rewrite !Qred_correct. assumption.
Qed.

Lemma roundPos_nonneg (a : Q) : 0 <= a -> le (Fin 0) (roundPos a) = true.
Proof.
  intros Ha. pose proof (nearest_nonneg a Ha) as H.
  destruct (roundPos_cases a) as [[-> _]|[-> _]]; cbn [le];
    [reflexivity|].
  apply Qle_bool_iff. rewrite Qred_correct. assumption.
Qed.

Lemma le_neg (a b : number) : le a b = true -> le (neg b) (neg a) = true.
Proof.
  destruct a as [| | |p], b as [| | |q]; cbn [le neg]; try congruence.
  intros H. apply Qle_bool_iff in H. apply Qle_bool_iff. lra.
Qed.

Lemma le_trans_number (a b c : number) :
  le a b = true -> le b c = true -> le a c = true.
Proof.
  destruct a as [| | |p], b as [| | |q], c as [| | |r]; cbn [le];
    try congruence.
  intros H1 H2. apply Qle_bool_iff in H1, H2. apply Qle_bool_iff. lra.
Qed.

(** Rounding never gives NaN, and it keeps the order. *)
Lemma round64_cases (q : Q) :
  round64 q = NegInf \/ round64 q = PosInf \/ exists r, round64 q = Fin r.
Proof.
  unfold round64. destruct (q ?= 0).
  - right. right. now exists 0.
  - destruct (roundPos_cases (- q)) as [[-> _]|[-> _]]; cbn [neg];
      [now left|right; right; eauto].
  - destruct (roundPos_cases q) as [[-> _]|[-> _]];
      [right; now left|right; right; eauto].
Qed.

Lemma round64_mono (p q : Q) :
  p <= q -> le (round64 p) (round64 q) = true.
Proof.
  intros Hpq. unfold round64.
  destruct (p ?= 0) eqn:Ep, (q ?= 0) eqn:Eq;
    first [apply Qeq_alt in Ep | apply Qlt_alt in Ep | apply Qgt_alt in Ep];
    first [apply Qeq_alt in Eq | apply Qlt_alt in Eq | apply Qgt_alt in Eq];
    try (exfalso; lra).
  - reflexivity.
  - apply roundPos_nonneg. lra.
  - change (Fin 0) with (neg (Fin 0)). apply le_neg, roundPos_nonneg. lra.
  - apply le_neg, roundPos_mono; lra.
  - apply le_trans_number with (Fin 0).
    + change (Fin 0) with (neg (Fin 0)). apply le_neg, roundPos_nonneg. lra.
    + apply roundPos_nonneg. lra.
  - apply roundPos_mono; lra.
Qed.





(** Rounding keeps a number on its side of a power of two. *)
Lemma nearest_ge_pow2_core (k : Z) (x : Q) :
  (lastPlace x <= k)%Z -> 2 ^ k <= x -> 2 ^ k <= nearest x.
Proof.
  intros He Hx. unfold nearest. set (e := lastPlace x) in *.
  apply Qle_trans with (inject_Z (2 ^ (k - e)) * 2 ^ e).
  - rewrite Zpow2_Q by lia. rewrite <- Qpower_plus by discriminate.
    replace (k - e + e)%Z with k by lia. apply Qle_refl.
  - apply Qmult_le_compat_r; [|apply Qlt_le_weak, pow2_pos].
    rewrite <- Zle_Qle. apply roundHalfEven_ge.
    rewrite Zpow2_Q by lia.
    apply Qle_shift_div_l; [apply pow2_pos|].
    rewrite <- Qpower_plus by discriminate.
    replace (k - e + e)%Z with k by lia. assumption.
Qed.

Lemma nearest_ge_pow2 (k : Z) (x : Q) :
  (-1074 <= k)%Z -> 2 ^ k <= x -> 2 ^ k <= nearest x.
Proof.
  intros Hk Hx.
  assert (Hpos : 0 < x) by (pose proof (pow2_pos k); lra).
  destruct (ilog2_spec x Hpos) as [H1 H2].
  assert (HL : (k <= ilog2 x)%Z).
  { assert (H : 2 ^ k < 2 ^ (ilog2 x + 1)) by lra.
    apply pow2_lt_inv in H. lia. }
  destruct (Z_le_gt_dec (lastPlace x) k) as [He|He].
  - now apply nearest_ge_pow2_core.
  - apply Qle_trans with (2 ^ ilog2 x); [now apply pow2_le|].
    apply nearest_ge_pow2_core; [unfold lastPlace in *; lia|assumption].
Qed.

Lemma nearest_le_pow2 (k : Z) (x : Q) :
  (-1074 <= k)%Z -> 0 < x -> x <= 2 ^ k -> nearest x <= 2 ^ k.
Proof.
  intros Hk Hpos Hx. destruct (ilog2_spec x Hpos) as [H1 _].
  assert (HL : (ilog2 x <= k)%Z).
  { apply (Qpower_le_compat_l_inv 2); [lra|reflexivity]. }
  unfold nearest. set (e := lastPlace x).
  assert (He : (e <= k)%Z) by (unfold e, lastPlace; lia).
  apply Qle_trans with (inject_Z (2 ^ (k - e)) * 2 ^ e).
  - apply Qmult_le_compat_r; [|apply Qlt_le_weak, pow2_pos].
    rewrite <- Zle_Qle. apply roundHalfEven_le.
    rewrite Zpow2_Q by lia.
    apply Qle_shift_div_r; [apply pow2_pos|].
    rewrite <- Qpower_plus by discriminate.
    replace (k - e + e)%Z with k by lia. assumption.
  - rewrite Zpow2_Q by lia. rewrite <- Qpower_plus by discriminate.
    replace (k - e + e)%Z with k by lia. apply Qle_refl.
Qed.

(** A positive rational between two powers of two in the range of the
    format rounds to a finite number between them. *)
Lemma round64_pos_between (k1 k2 : Z) (x : Q) :
  (-1074 <= k1)%Z -> (k2 <= 1023)%Z -> 2 ^ k1 <= x -> x <= 2 ^ k2 ->
  exists r, round64 x = Fin r /\ 2 ^ k1 <= r /\ r <= 2 ^ k2.
Proof.
  intros Hk1 Hk2 H1 H2.
  assert (Hpos : 0 < x) by (pose proof (pow2_pos k1); lra).
  assert (Hk : (k1 <= k2)%Z).
  { apply (Qpower_le_compat_l_inv 2); [lra|reflexivity]. }
  pose proof (nearest_ge_pow2 k1 x Hk1 H1) as Hlo.
  pose proof (nearest_le_pow2 k2 x ltac:(lia) Hpos H2) as Hhi.
  unfold round64.
  assert (E : (x ?= 0) = Gt) by (now apply Qgt_alt).
  rewrite E.
  destruct (roundPos_cases x) as [[_ H]|[-> _]].
  - exfalso.
    assert (2 ^ k2 < 2 ^ 1024)
      by (apply Qpower_lt_compat_l; [lia|reflexivity]).
    lra.
  - eexists. split; [reflexivity|]. rewrite Qred_correct. split; assumption.
Qed.

(** A rational from zero to a power of two rounds to a finite number in
    the same interval. *)
Lemma round64_nonneg_between (k : Z) (x : Q) :
  (-1074 <= k <= 1023)%Z -> 0 <= x -> x <= 2 ^ k ->
  exists r, round64 x = Fin r /\ 0 <= r /\ r <= 2 ^ k.
Proof.
  intros Hk H1 H2. unfold round64.
  destruct (Qcompare_spec x 0) as [E|E|E].
  - exists 0. split; [reflexivity|]. split; [apply Qle_refl|].
    apply Qlt_le_weak, pow2_pos.
  - exfalso. lra.
  - pose proof (nearest_nonneg x H1) as Hlo.
    pose proof (nearest_le_pow2 k x ltac:(lia) E H2) as Hhi.
    destruct (roundPos_cases x) as [[_ H]|[-> _]].
    + exfalso.
      assert (2 ^ k < 2 ^ 1024)
        by (apply Qpower_lt_compat_l; [lia|reflexivity]).
      lra.
    + eexists. split; [reflexivity|]. rewrite Qred_correct.
      split; assumption.
Qed.


End Rounding.

(* ================================================================== *)
(** * Numbers *)
(* ================================================================== *)

Section Numbers.
Import JsNumber.

Implicit Types (a b t : number) (p q : Q).

Lemma Qlt_bool_iff p q : Qlt_bool p q = true <-> (p < q)%Q.
Proof.
  unfold Qlt_bool. rewrite negb_true_iff. split.
  - intros H. apply Qnot_le_lt. intros Hle.
    apply Qle_bool_iff in Hle. congruence.
  - intros H. destruct (Qle_bool q p) eqn:E; [|reflexivity].
    apply Qle_bool_iff in E. apply Qlt_not_le in H. contradiction.
Qed.

Lemma Qlt_bool_false_iff p q : Qlt_bool p q = false <-> (q <= p)%Q.
Proof.
  unfold Qlt_bool. rewrite negb_false_iff. apply Qle_bool_iff.
Qed.

Lemma plus_NaN_l a : plus NaN a = NaN.
Proof. reflexivity. Qed.

Lemma lt_NaN_l a : lt NaN a = false.
Proof. reflexivity. Qed.

Lemma isNaN_round64 q : isNaN (round64 q) = false.
Proof.
  destruct (round64_cases q) as [-> |[-> |[r ->]]]; reflexivity.
Qed.

Lemma isNaN_minus_finite a q : isNaN (minus a (Fin q)) = isNaN a.
Proof. destruct a; try reflexivity. apply isNaN_round64. Qed.

(** Adding or subtracting a finite number keeps the order. *)
Lemma plus_le_mono_r a b q :
  le a b = true -> le (plus a (Fin q)) (plus b (Fin q)) = true.
Proof.
  destruct a as [| | |p], b as [| | |p']; cbn [le plus]; try congruence;
    intros H.
  - destruct (round64_cases (p' + q)) as [-> |[-> |[r ->]]]; reflexivity.
  - destruct (round64_cases (p + q)) as [-> |[-> |[r ->]]]; reflexivity.
  - apply round64_mono. apply Qle_bool_iff in H. lra.
Qed.

Lemma plus_le_mono_l a b q :
  le a b = true -> le (plus (Fin q) a) (plus (Fin q) b) = true.
Proof.
  destruct a as [| | |p], b as [| | |p']; cbn [le plus]; try congruence;
    intros H.
  - destruct (round64_cases (q + p')) as [-> |[-> |[r ->]]]; reflexivity.
  - destruct (round64_cases (q + p)) as [-> |[-> |[r ->]]]; reflexivity.
  - apply round64_mono. apply Qle_bool_iff in H. lra.
Qed.

Lemma minus_le_mono_r a b q :
  le a b = true -> le (minus a (Fin q)) (minus b (Fin q)) = true.
Proof.
  destruct a as [| | |p], b as [| | |p']; cbn [le minus plus neg];
    try congruence; intros H.
  - destruct (round64_cases (p' - q)) as [-> |[-> |[r ->]]]; reflexivity.
  - destruct (round64_cases (p - q)) as [-> |[-> |[r ->]]]; reflexivity.
  - apply round64_mono. apply Qle_bool_iff in H. lra.
Qed.

Lemma le_lt_trans_number a b c :
  le a b = true -> lt b c = true -> lt a c = true.
Proof.
  destruct a as [| | |p], b as [| | |q], c as [| | |r]; cbn [le lt];
    try congruence.
  intros H1 H2. apply Qle_bool_iff in H1. apply Qlt_bool_iff in H2.
  apply Qlt_bool_iff. lra.
Qed.

Lemma le_refl_number a : isNaN a = false -> le a a = true.
Proof.
  destruct a; cbn; try congruence. intros _. apply Qle_bool_iff, Qle_refl.
Qed.







End Numbers.

(* ================================================================== *)
(** * The clock anchor *)
(* ================================================================== *)

Section Anchor.
Import JsNumber Graph.

Implicit Types (g : GraphState) (samples : list Sample) (now : number).

Lemma add_anchor samples now g :
  anchor (add samples now g)
  = if isNaN (beginGraphNowMs g) && (0 <? length samples)%nat
    then (minus (lastSampleTime samples) (num 250), now)
    else anchor g.
Proof.
  unfold add, anchor.
  now destruct (isNaN (beginGraphNowMs g) && (0 <? length samples)%nat).
Qed.

(** Once the graph time is a number, [add] leaves the anchor alone. *)
Lemma addAll_anchored calls g :
  isNaN (beginGraphNowMs g) = false -> anchor (addAll calls g) = anchor g.
Proof.
  revert g. induction calls as [|c calls IH]; intros g Hg; [reflexivity|].
  unfold addAll in *. cbn [fold_left].
  assert (E : anchor (add (fst c) (snd c) g) = anchor g)
    by (rewrite add_anchor, Hg; reflexivity).
  rewrite IH; [exact E|].
  unfold anchor in E. injection E as E _. now rewrite E.
Qed.

(** Empty batches, and batches whose last sample carries no time, leave
    the graph unanchored. *)
Lemma addAll_unanchored calls g :
  isNaN (beginGraphNowMs g) = true ->
  Forall (fun c => fst c = [] \/ isNaN (lastSampleTime (fst c)) = true)
         calls ->
  isNaN (beginGraphNowMs (addAll calls g)) = true.
Proof.
  revert g. induction calls as [|c calls IH]; intros g Hg Hall;
    [exact Hg|].
  unfold addAll in *. cbn [fold_left].
  apply IH; [|now apply Forall_inv_tail in Hall].
  apply Forall_inv in Hall. destruct c as [b n]. cbn [fst snd] in *.
  pose proof (add_anchor b n g) as E. unfold anchor in E.
  rewrite Hg in E. cbn [andb] in E.
  destruct Hall as [->|Hn].
  - cbn in E. injection E as E _. now rewrite E.
  - destruct (0 <? length b)%nat; injection E as E _; rewrite E;
      [|exact Hg].
    unfold num. now rewrite isNaN_minus_finite.
Qed.

(** C4, as stated, fails when the last sample of the first batch carries
    no time: the first call leaves the graph time NaN and only records the
    wall clock, and the next call sets both fields again. *)
Lemma anchor_counterexample :
  let b1 := [[mkPair "a" (num 1)]] in
  let b2 := [[mkPair "time" (num 500); mkPair "a" (num 2)]] in
  let g1 := add b1 (num 1000) (reset DEFAULT_OPTIONS) in
  let g2 := add b2 (num 2000) g1 in
  (0 < length b1)%nat
  /\ anchor g1 = (NaN, num 1000)
  /\ anchor g2 = (num 250, num 2000)
  /\ ~ (anchor g1 = (minus (lastSampleTime b1) (num 250), num 1000)
        /\ anchor g2 = anchor g1).
Proof.
  cbn zeta. split; [cbn; lia|]. split; [reflexivity|].
  split; [reflexivity|]. intros [_ H]. vm_compute in H. discriminate.
Qed.

(** C4, amended.  Start from a fresh graph.  As long as the batches are
    empty or end in a sample without a time, the graph stays unanchored.
    The first batch that is not empty and whose last sample carries a time
    sets the anchor to that time minus 250, paired with the wall clock of
    the call, and no later call changes either field. *)
Theorem anchor_set_once (o : Options)
        (pre post : list (list Sample * number)) samples now :
  Forall (fun c => fst c = [] \/ isNaN (lastSampleTime (fst c)) = true)
         pre ->
  samples <> [] ->
  isNaN (lastSampleTime samples) = false ->
  let g0 := addAll pre (reset o) in
  let g1 := add samples now g0 in
  isNaN (beginGraphNowMs g0) = true
  /\ anchor g1 = (minus (lastSampleTime samples) (num 250), now)
  /\ anchor (addAll post g1) = anchor g1
  /\ addAll (pre ++ (samples, now) :: post) (reset o) = addAll post g1.
Proof.
  intros Hpre Hne Htime g0 g1.
  assert (H0 : isNaN (beginGraphNowMs g0) = true)
    by (apply addAll_unanchored; [reflexivity|assumption]).
  assert (H1 : anchor g1 = (minus (lastSampleTime samples) (num 250), now)).
  { unfold g1. rewrite add_anchor, H0.
    destruct samples; [congruence|reflexivity]. }
  split; [exact H0|]. split; [exact H1|]. split.
  - apply addAll_anchored.
    unfold anchor in H1. injection H1 as E _. rewrite E.
    unfold num. now rewrite isNaN_minus_finite.
  - unfold addAll. now rewrite fold_left_app.
Qed.

Lemma anchor_set_once_witness :
  let pre := [([], num 10); ([[mkPair "a" (num 1)]], num 1000)] in
  let samples := [[mkPair "time" (num 500); mkPair "a" (num 2)]] in
  let post := [([[mkPair "time" (num 900); mkPair "a" (num 3)]], num 3000)] in
  anchor (addAll (pre ++ (samples, num 2000) :: post) (reset DEFAULT_OPTIONS))
  = (num 250, num 2000).
Proof.
  intros pre samples post.
  destruct (anchor_set_once DEFAULT_OPTIONS pre post samples (num 2000))
    as (_ & H1 & H2 & H3).
  - apply Forall_cons; [left; reflexivity|].
    apply Forall_cons; [right; reflexivity|apply Forall_nil].
  - discriminate.
  - reflexivity.
  - exact (eq_trans (f_equal anchor H3) (eq_trans H2 H1)).
Defined.

End Anchor.

(* ================================================================== *)
(** * The sample buffer *)
(* ================================================================== *)

Section Buffer.
Import JsNumber Graph.

Implicit Types (o : Options) (d : Data) (k : string) (t : number).

Lemma lookup_update d k k' (f : Series -> Series) :
  lookup (update d k f) k'
  = if String.eqb k k' then option_map f (lookup d k) else lookup d k'.
Proof.
  induction d as [|[k0 s0] d IH]; cbn [update lookup].
  - now destruct (String.eqb k k').
  - destruct (String.eqb k0 k) eqn:E0; cbn [lookup].
    + apply String.eqb_eq in E0. subst k0.
      destruct (String.eqb k k') eqn:E; [reflexivity|].
      reflexivity.
    + destruct (String.eqb k0 k') eqn:E1.
      * destruct (String.eqb k k') eqn:E; [|reflexivity].
        apply String.eqb_eq in E1, E. subst.
        rewrite String.eqb_refl in E0. discriminate.
      * exact IH.
Qed.

Lemma lookup_app_single d k k' (s : Series) :
  lookup (d ++ [(k, s)]) k'
  = match lookup d k' with
    | Some s' => Some s'
    | None => if String.eqb k k' then Some s else None
    end.
Proof.
  induction d as [|[k0 s0] d IH]; cbn [app lookup]; [reflexivity|].
  now destruct (String.eqb k0 k').
Qed.

(** One entry of a sample: its value goes to the end of its series, with
    the time of the sample. *)
Lemma addPair_appends o t d (p : Pair) k :
  k <> "__proto__"%string ->
  seriesTs (addPair o t d p) k
  = seriesTs d k ++ (if storedUnder k p then [t] else [])
  /\ seriesVs (addPair o t d p) k
     = seriesVs d k ++ (if storedUnder k p then [value p] else []).
Proof.
  intros Hk. unfold addPair, storedUnder, seriesTs, seriesVs.
  destruct (String.eqb (name p) "time") eqn:Et;
    [rewrite andb_false_r; cbn [andb]; now rewrite !app_nil_r|].
  destruct (isNaN (value p)) eqn:En;
    [rewrite andb_false_r; now rewrite !app_nil_r|].
  destruct (String.eqb (name p) "__proto__") eqn:Ep.
  { apply String.eqb_eq in Ep. rewrite Ep.
    assert (E : String.eqb "__proto__" k = false)
      by (apply String.eqb_neq; congruence).
    rewrite E. cbn [andb]. now rewrite !app_nil_r. }
  cbn [negb]. rewrite !andb_true_r, lookup_update.
  unfold hasOwnProperty.
  destruct (String.eqb (name p) k) eqn:Ek.
  - apply String.eqb_eq in Ek. subst k.
    destruct (lookup d (name p)) as [s|] eqn:El; cbn [negb].
    + rewrite El. cbn. now split.
    + rewrite lookup_app_single, El, String.eqb_refl. cbn. now split.
  - destruct (lookup d (name p)) as [s|] eqn:El; cbn [negb].
    + now rewrite !app_nil_r.
    + rewrite lookup_app_single, Ek.
      destruct (lookup d k); now rewrite !app_nil_r.
Qed.

(** An entry leaves the series of the other names as they are; an entry
    named "__proto__" leaves every series as it is. *)
Lemma addPair_other o t d (p : Pair) k :
  name p <> k -> lookup (addPair o t d p) k = lookup d k.
Proof.
  intros Hk. unfold addPair.
  destruct (String.eqb (name p) "time"); [reflexivity|].
  destruct (isNaN (value p)); [reflexivity|].
  destruct (String.eqb (name p) "__proto__"); [reflexivity|].
  apply String.eqb_neq in Hk. rewrite lookup_update, Hk.
  destruct (negb (hasOwnProperty d (name p))); [|reflexivity].
  rewrite lookup_app_single, Hk. now destruct (lookup d k).
Qed.

Lemma addPair_proto o t d (p : Pair) :
  lookup (addPair o t d p) "__proto__" = lookup d "__proto__".
Proof.
  destruct (String.eqb (name p) "__proto__") eqn:E.
  - unfold addPair. rewrite E.
    destruct (String.eqb (name p) "time"); [reflexivity|].
    now destruct (isNaN (value p)).
  - apply addPair_other. now apply String.eqb_neq.
Qed.

Lemma storedValues_cons (p : Pair) sample k :
  storedValues (p :: sample) k
  = (if storedUnder k p then [value p] else []) ++ storedValues sample k.
Proof.
  unfold storedValues. cbn [filter].
  now destruct (storedUnder k p).
Qed.

Lemma fold_addPair_appends o t sample d k :
  k <> "__proto__"%string ->
  seriesTs (fold_left (addPair o t) sample d) k
  = seriesTs d k ++ repeat t (length (storedValues sample k))
  /\ seriesVs (fold_left (addPair o t) sample d) k
     = seriesVs d k ++ storedValues sample k.
Proof.
  intros Hk. revert d. induction sample as [|p sample IH]; intros d.
  - cbn. now rewrite !app_nil_r.
  - cbn [fold_left]. destruct (IH (addPair o t d p)) as [-> ->].
    destruct (addPair_appends o t d p k Hk) as [-> ->].
    rewrite storedValues_cons, <- !app_assoc.
    destruct (storedUnder k p); cbn; now split.
Qed.

(** A sample without a pair named "time" has the time NaN. *)
Lemma sampleTime_noTimePair (sample : Sample) :
  noTimePair sample -> sampleTime sample = NaN.
Proof.
  unfold sampleTime, noTimePair.
  assert (G : forall acc,
             (forall p, In p sample -> name p <> "time"%string) ->
             fold_left
               (fun acc p => if String.eqb (name p) "time" then value p
                             else acc) sample acc = acc);
    [|intros H; now apply G].
  induction sample as [|p sample IH]; intros acc H; [reflexivity|].
  cbn [fold_left].
  destruct (String.eqb (name p) "time") eqn:E.
  - apply String.eqb_eq in E. exfalso. apply (H p); [now left|assumption].
  - apply IH. intros q Hq. apply H. now right.
Qed.

(** [add] runs [addSample] over the batch, in order. *)
Lemma add_data samples now (g : GraphState) :
  data (add samples now g) = fold_left (addSample (options g)) samples (data g).
Proof.
  unfold add.
  now destruct (isNaN (beginGraphNowMs g) && (0 <? length samples)%nat).
Qed.

(** [add] appends to each series what the batch holds for its name. *)
Lemma add_appends samples now (g : GraphState) k :
  k <> "__proto__"%string ->
  seriesTs (data (add samples now g)) k
  = seriesTs (data g) k ++ batchTs samples k
  /\ seriesVs (data (add samples now g)) k
     = seriesVs (data g) k ++ batchVs samples k.
Proof.
  intros Hk.
  rewrite add_data. generalize (data g) as d. generalize (options g) as o.
  intros o. induction samples as [|sample samples IH]; intros d.
  - cbn. now rewrite !app_nil_r.
  - cbn [fold_left batchTs batchVs flat_map].
    destruct (IH (addSample o d sample)) as [-> ->].
    unfold addSample.
    destruct (fold_addPair_appends o (sampleTime sample) sample d k Hk)
      as [-> ->].
    now rewrite <- !app_assoc.
Qed.

(** [add] stores nothing under the name "__proto__". *)
Lemma add_proto samples now (g : GraphState) :
  lookup (data (add samples now g)) "__proto__"
  = lookup (data g) "__proto__".
Proof.
  rewrite add_data. generalize (data g) as d.
  induction samples as [|sample samples IH]; intros d; [reflexivity|].
  cbn [fold_left]. rewrite IH. unfold addSample.
  generalize (sampleTime sample) as t. intros t. revert d.
  induction sample as [|p sample IHs]; intros d; [reflexivity|].
  cbn [fold_left]. rewrite IHs. apply addPair_proto.
Qed.

(** [add] never buffers a NaN value. *)
Lemma addPair_values_not_NaN o t d (p : Pair) :
  allValues (fun v => negb (isNaN v)) d ->
  allValues (fun v => negb (isNaN v)) (addPair o t d p).
Proof.
  intros Hd. unfold addPair.
  destruct (String.eqb (name p) "time"); [exact Hd|].
  destruct (isNaN (value p)) eqn:En; [exact Hd|].
  destruct (String.eqb (name p) "__proto__"); [exact Hd|].
  set (d' := if negb (hasOwnProperty d (name p))
             then d ++ [(name p, mkSeries [] [] (nextColor o d))] else d).
  assert (Hd' : allValues (fun v => negb (isNaN v)) d').
  { unfold d'. destruct (negb (hasOwnProperty d (name p))); [|exact Hd].
    intros k s v Hin Hv. apply in_app_or in Hin.
    destruct Hin as [Hin|[E|[]]]; [now apply (Hd k s v)|].
    injection E as _ <-. destruct Hv. }
  clearbody d'. clear Hd.
  induction d' as [|[k0 s0] d' IH]; cbn [update]; [exact Hd'|].
  assert (Htl : allValues (fun v => negb (isNaN v)) d')
    by (intros k s v Hin Hv; apply (Hd' k s v); [now right|assumption]).
  destruct (String.eqb k0 (name p)).
  - intros k s v [E|Hin] Hv; [|now apply (Htl k s v)].
    injection E as _ <-. cbn [vs] in Hv. unfold JsArray.push in Hv.
    apply in_app_or in Hv. destruct Hv as [Hv|[<-|[]]].
    + apply (Hd' k0 s0 v); [now left|assumption].
    + now rewrite En.
  - intros k s v [E|Hin] Hv; [|now apply (IH Htl k s v)].
    injection E as _ <-. apply (Hd' k0 s0 v); [now left|assumption].
Qed.

Lemma add_values_not_NaN samples now (g : GraphState) :
  allValues (fun v => negb (isNaN v)) (data g) ->
  allValues (fun v => negb (isNaN v)) (data (add samples now g)).
Proof.
  rewrite add_data. generalize (data g) as d.
  induction samples as [|sample samples IH]; intros d Hd; [exact Hd|].
  cbn [fold_left]. apply IH. unfold addSample.
  generalize (sampleTime sample) as t. intros t. revert d Hd.
  induction sample as [|p sample IHs]; intros d Hd; [exact Hd|].
  cbn [fold_left]. apply IHs. now apply addPair_values_not_NaN.
Qed.

(** So no graph built from a fresh one by [add] calls holds a NaN value. *)
Lemma addAll_values_not_NaN calls o :
  allValues (fun v => negb (isNaN v)) (data (addAll calls (reset o))).
Proof.
  unfold addAll.
  assert (G : forall g,
             allValues (fun v => negb (isNaN v)) (data g) ->
             allValues (fun v => negb (isNaN v))
                       (data (fold_left (fun g c => add (fst c) (snd c) g)
                                        calls g))).
  { induction calls as [|c calls IH]; intros g Hg; [exact Hg|].
    cbn [fold_left]. apply IH. now apply add_values_not_NaN. }
  apply G. intros k s v [].
Qed.

End Buffer.

(* ================================================================== *)
(** * Pruning and rendering *)
(* ================================================================== *)

Section Render.
Import JsNumber Graph.

Implicit Types (o : Options) (d : Data) (k : string) (g : GraphState).
Implicit Types (t now : number) (ts vs : list number).

Lemma expired_NaN o now : expired o now NaN = false.
Proof. reflexivity. Qed.

(** An older entry expires whenever a newer one does. *)
Lemma expired_antitone o now t1 t2 :
  le t1 t2 = true -> expired o now t2 = true -> expired o now t1 = true.
Proof.
  unfold expired. generalize (windowMs o) as win. intros win H1 H2.
  destruct win as [| | |u].
  - destruct t2, now; discriminate.
  - destruct t1, t2, now; cbn in *; congruence.
  - destruct t2, now; discriminate.
  - apply le_lt_trans_number with (plus (plus t2 (Fin u)) (num 250));
      [|assumption].
    unfold num. now apply plus_le_mono_r, plus_le_mono_r.
Qed.

Lemma le_not_expired o now t :
  le now (plus (plus t (windowMs o)) (num 250)) = true ->
  expired o now t = false.
Proof.
  unfold expired.
  destruct (plus (plus t (windowMs o)) (num 250)) as [| | |p],
           now as [| | |n]; cbv [le lt]; intros H;
    try discriminate; try reflexivity.
  apply Qlt_bool_false_iff. now apply Qle_bool_iff.
Qed.

(** In a series whose timestamps never go down, nothing behind a live
    front entry has expired. *)
Lemma live_front_keeps_all o now t ts vs :
  nondecreasing (t :: ts) = true -> expired o now t = false ->
  filter (fun p => negb (expired o now (fst p))) (plotted (t :: ts) vs)
  = plotted (t :: ts) vs.
Proof.
  revert t vs. induction ts as [|t2 ts IH]; intros t vs Hs Ht.
  - cbn. now rewrite Ht.
  - cbn [nondecreasing] in Hs. apply andb_true_iff in Hs.
    destruct Hs as [Hle Hs].
    assert (Ht2 : expired o now t2 = false).
    { destruct (expired o now t2) eqn:E; [|reflexivity].
      rewrite (expired_antitone o now t t2 Hle E) in Ht. discriminate. }
    cbn [plotted filter fst]. rewrite Ht. cbn [negb]. f_equal.
    apply (IH t2 (tl vs) Hs Ht2).
Qed.

Lemma nondecreasing_tail t ts :
  nondecreasing (t :: ts) = true -> nondecreasing ts = true.
Proof.
  destruct ts as [|t2 ts]; [reflexivity|]. cbn [nondecreasing].
  intros H. now apply andb_true_iff in H.
Qed.

(** On such a series the loop leaves exactly the entries that have not
    expired. *)
Lemma pruneLoop_filter o now ts vs :
  nondecreasing ts = true ->
  plotted (fst (pruneLoop o now ts vs)) (snd (pruneLoop o now ts vs))
  = filter (fun p => negb (expired o now (fst p))) (plotted ts vs).
Proof.
  revert vs. induction ts as [|t ts IH]; intros vs Hs; [reflexivity|].
  cbn [pruneLoop]. destruct (expired o now t) eqn:E.
  - cbn [plotted filter fst]. rewrite E. cbn [negb].
    apply IH. now apply nondecreasing_tail in Hs.
  - cbn [fst snd]. symmetry. now apply live_front_keeps_all.
Qed.

(** Whatever the order of the timestamps, the loop only drops expired
    entries, so every entry that [keep] holds on to stays. *)
Lemma pruneLoop_keeps o now (keep : number * option number -> bool) ts vs :
  (forall p, expired o now (fst p) = true -> keep p = false) ->
  filter keep
         (plotted (fst (pruneLoop o now ts vs)) (snd (pruneLoop o now ts vs)))
  = filter keep (plotted ts vs).
Proof.
  intros Hkeep. revert vs. induction ts as [|t ts IH]; intros vs;
    [reflexivity|].
  cbn [pruneLoop]. destruct (expired o now t) eqn:E; [|reflexivity].
  cbn [plotted filter]. rewrite (Hkeep (t, hd_error vs) E). apply IH.
Qed.

(** Pruning a pruned series changes nothing. *)
Lemma pruneLoop_idempotent o now ts vs :
  pruneLoop o now (fst (pruneLoop o now ts vs)) (snd (pruneLoop o now ts vs))
  = pruneLoop o now ts vs.
Proof.
  revert vs. induction ts as [|t ts IH]; intros vs; [reflexivity|].
  cbn [pruneLoop]. destruct (expired o now t) eqn:E; [apply IH|].
  cbn [fst snd pruneLoop]. now rewrite E.
Qed.

Lemma pruneSeries_fields o now (s : Series) :
  ts (pruneSeries o now s) = fst (pruneLoop o now (ts s) (vs s))
  /\ vs (pruneSeries o now s) = snd (pruneLoop o now (ts s) (vs s))
  /\ color (pruneSeries o now s) = color s.
Proof.
  unfold pruneSeries. now destruct (pruneLoop o now (ts s) (vs s)).
Qed.

Lemma pruneSeries_idempotent o now (s : Series) :
  pruneSeries o now (pruneSeries o now s) = pruneSeries o now s.
Proof.
  destruct (pruneSeries_fields o now s) as (Ht & Hv & Hc).
  unfold pruneSeries at 1. rewrite Ht, Hv, Hc, pruneLoop_idempotent.
  unfold pruneSeries. now destruct (pruneLoop o now (ts s) (vs s)).
Qed.

Lemma prune_idempotent o now d : prune o now (prune o now d) = prune o now d.
Proof.
  unfold prune. rewrite map_map. apply map_ext. intros [k s]. cbn [fst snd].
  now rewrite pruneSeries_idempotent.
Qed.

Lemma lookup_prune o now d k :
  lookup (prune o now d) k = option_map (pruneSeries o now) (lookup d k).
Proof.
  induction d as [|[k0 s0] d IH]; [reflexivity|].
  cbn [prune map lookup fst snd]. fold (prune o now d).
  now destruct (String.eqb k0 k).
Qed.

(** The graph [render] leaves behind. *)
Lemma render_state g now :
  fst (fst (render g now))
  = if isNaN (beginGraphNowMs g) then g
    else mkGraph (options g) (prune (options g) (graphNow g now) (data g))
                 (beginGraphNowMs g) (beginRenderTimeMs g).
Proof.
  unfold render. destruct (isNaN (beginGraphNowMs g)); [reflexivity|].
  cbn [data].
  now destruct (allEmpty (prune (options g) (graphNow g now) (data g))).
Qed.

Lemma expired_at_NaN o t : expired o NaN t = false.
Proof.
  unfold expired. now destruct (plus (plus t (windowMs o)) (num 250)).
Qed.

Lemma graphNow_unanchored g now :
  isNaN (beginGraphNowMs g) = true -> graphNow g now = NaN.
Proof.
  unfold graphNow. destruct (beginGraphNowMs g); try discriminate.
  reflexivity.
Qed.

(** C5 (window pruning).  Take a [render] call at the render time
    [graphNowMs] and a series [k] whose timestamps never go down.  The
    samples left to plot for [k] are those of before whose timestamp [t]
    does not satisfy [t + windowMs + 250 < graphNowMs], in their order:
    every sample that satisfies it is gone, and every sample with
    [t + windowMs + 250 >= graphNowMs] is still there. *)
Theorem prune_window g now k :
  nondecreasing (seriesTs (data g) k) = true ->
  let o := options g in
  let graphNowMs := graphNow g now in
  let g' := fst (fst (render g now)) in
  plottedPoints g' k
  = filter (fun p => negb (expired o graphNowMs (fst p))) (plottedPoints g k)
  /\ (forall p, In p (plottedPoints g k) ->
                expired o graphNowMs (fst p) = true ->
                ~ In p (plottedPoints g' k))
  /\ (forall p, In p (plottedPoints g k) ->
                le graphNowMs (plus (plus (fst p) (windowMs o)) (num 250))
                = true ->
                In p (plottedPoints g' k)).
Proof.
  intros Hsorted o graphNowMs g'.
  assert (E : plottedPoints g' k
              = filter (fun p => negb (expired o graphNowMs (fst p)))
                       (plottedPoints g k)).
  { unfold g', plottedPoints. rewrite render_state.
    destruct (isNaN (beginGraphNowMs g)) eqn:Hanch.
    - (* not anchored: no pruning, and no entry counts as expired *)
      unfold graphNowMs. rewrite (graphNow_unanchored g now Hanch).
      symmetry. apply forallb_filter_id, forallb_forall.
      intros p _. now rewrite expired_at_NaN.
    - cbn [data]. rewrite lookup_prune. unfold seriesTs in Hsorted.
      destruct (lookup (data g) k) as [s|]; [|reflexivity].
      cbn [option_map].
      destruct (pruneSeries_fields (options g) (graphNow g now) s)
        as (-> & -> & _).
      now apply pruneLoop_filter. }
  split; [exact E|]. split.
  - intros p _ Hexp Hin. rewrite E in Hin. apply filter_In in Hin.
    destruct Hin as [_ Hlive]. rewrite Hexp in Hlive. discriminate.
  - intros p Hin Hle. rewrite E. apply filter_In. split; [assumption|].
    now rewrite (le_not_expired o graphNowMs (fst p) Hle).
Qed.

Lemma prune_window_witness :
  let g := mkGraph DEFAULT_OPTIONS
                   [("a"%string,
                     mkSeries [num 0; num 300; num 6000]
                              [num 1; num 2; num 3] None)]
                   (num 5750) (num 0) in
  plottedPoints (fst (fst (render g (num 100)))) "a"
  = [(num 6000, Some (num 3))].
Proof.
  intros g.
  destruct (prune_window g (num 100) "a") as (E & _ & _).
  - reflexivity.
  - rewrite E. reflexivity.
Defined.

(** Once the loop variable of [getTicks] is at or below the maximum and
    adding the spacing gives it back, the loop never ends. *)
Lemma tickLoop_stuck (axis : Axis) i :
  le i (max axis) = true -> plus i (spacing axis) = i ->
  forall fuel ticks, tickLoop fuel axis i ticks = None.
Proof.
  intros Hle Hfix fuel. induction fuel as [|fuel IH]; intros ticks;
    [reflexivity|].
  cbn [tickLoop]. rewrite Hle, Hfix. apply IH.
Qed.

(** C7 (render result), a defect of the code.  [render] does not return
    true in all the cases in which it does not return false, and is not
    safe to call every frame: [renderGraph] calls [getTicks], whose loop
    [for (let i = axis.min; i <= axis.max; i += axis.spacing)] makes no
    progress once the spacing is at most half the distance from [i] to
    the next binary64 value.  One buffered value 5e15 is enough: the two
    extremes are equal, the axis is computed for 5e15 - 1 and 5e15 + 1 and
    runs from 4999999999999999 to 5000000000000002 with the spacing 0.5;
    the first addition rounds 4999999999999999.5 to 5000000000000000, and
    from then on 5000000000000000.5 rounds back to 5000000000000000.  The
    call passes both guards, draws the key, and never comes back from
    [getTicks], whatever the number of rounds. *)
Theorem render_hangs_in_getTicks :
  let g := add [[mkPair "time" (num 0); mkPair "a" (num 5000000000000000)]]
               (num 0) (reset DEFAULT_OPTIONS) in
  let now := num 16 in
  let axis := getYAxisScaling g in
  render g now
  = (g, Draw (num (-234)),
     [ClearCanvas; ScaleToCssPixels; RenderKey ["a"%string]])
  /\ axis = mkAxis (num 4999999999999999) (num 5000000000000002)
                   (Fin (1 # 2))
  /\ plus (num 4999999999999999) (spacing axis) = num 5000000000000000
  /\ plus (num 5000000000000000) (spacing axis) = num 5000000000000000
  /\ forall fuel,
       getTicks fuel axis = None
       /\ renderGraph fuel g (num (-234)) = None
       /\ renderCall fuel g now = None.
Proof.
  cbn zeta.
  set (g := add [[mkPair "time" (num 0); mkPair "a" (num 5000000000000000)]]
                (num 0) (reset DEFAULT_OPTIONS)).
  assert (Hr : render g (num 16)
               = (g, Draw (num (-234)),
                  [ClearCanvas; ScaleToCssPixels; RenderKey ["a"%string]]))
    by (vm_compute; reflexivity).
  assert (Ha : getYAxisScaling g
               = mkAxis (num 4999999999999999) (num 5000000000000002)
                        (Fin (1 # 2)))
    by (vm_compute; reflexivity).
  assert (H1 : plus (num 4999999999999999) (Fin (1 # 2))
               = num 5000000000000000) by (vm_compute; reflexivity).
  assert (H2 : plus (num 5000000000000000) (Fin (1 # 2))
               = num 5000000000000000) by (vm_compute; reflexivity).
  split; [exact Hr|]. split; [exact Ha|]. rewrite Ha. cbn [spacing].
  split; [exact H1|]. split; [exact H2|].
  assert (Ht : forall fuel,
             getTicks fuel
                      (mkAxis (num 4999999999999999) (num 5000000000000002)
                              (Fin (1 # 2))) = None).
  { intros [|fuel]; [reflexivity|].
    unfold getTicks. cbn [tickLoop min max spacing].
    replace (le (num 4999999999999999) (num 5000000000000002)) with true
      by (vm_compute; reflexivity).
    rewrite H1. apply tickLoop_stuck; [vm_compute; reflexivity|exact H2]. }
  intros fuel. split; [apply Ht|].
  assert (Hg : renderGraph fuel g (num (-234)) = None)
    by (unfold renderGraph; rewrite Ha, Ht; reflexivity).
  split; [exact Hg|]. unfold renderCall. rewrite Hr, Hg. reflexivity.
Qed.

(** C10 (samples without a time).  A sample with no pair named "time" has
    the time NaN; wherever it stands in a batch, [add] puts each of its
    values that is not NaN at the end of the series of its name with the
    timestamp NaN (after what the samples before it append, before what
    the samples after it append), for every name but "__proto__", under
    which the language stores no property (see [add_proto]).  The pruning
    of [render] never drops an entry stamped NaN: after any run of
    [render] calls the entries stamped NaN of every series are those of
    before. *)
Theorem nan_stamped_entries g (pre post : list Sample) (sample : Sample)
        now k :
  noTimePair sample ->
  k <> "__proto__"%string ->
  let g' := add (pre ++ sample :: post) now g in
  sampleTime sample = NaN
  /\ seriesTs (data g') k
     = seriesTs (data g) k ++ batchTs pre k
       ++ repeat NaN (length (storedValues sample k)) ++ batchTs post k
  /\ seriesVs (data g') k
     = seriesVs (data g) k ++ batchVs pre k
       ++ storedValues sample k ++ batchVs post k
  /\ (forall g0 (clock : list number) k',
        filter nanStamped (plottedPoints (renderAll clock g0) k')
        = filter nanStamped (plottedPoints g0 k')).
Proof.
  intros Hnt Hk g'. pose proof (sampleTime_noTimePair sample Hnt) as Ht.
  split; [exact Ht|].
  destruct (add_appends (pre ++ sample :: post) now g k Hk) as [E1 E2].
  fold g' in E1, E2. rewrite E1, E2.
  unfold batchTs, batchVs. rewrite !flat_map_app. cbn [flat_map].
  rewrite Ht. split; [reflexivity|]. split; [reflexivity|].
  intros g0 clock k'. revert g0.
  induction clock as [|t clock IH]; intros g0; [reflexivity|].
  unfold renderAll in *. cbn [fold_left]. rewrite IH.
  unfold plottedPoints. rewrite render_state.
  destruct (isNaN (beginGraphNowMs g0)); [reflexivity|]. cbn [data].
  rewrite lookup_prune.
  destruct (lookup (data g0) k') as [s|]; [|reflexivity]. cbn [option_map].
  destruct (pruneSeries_fields (options g0) (graphNow g0 t) s)
    as (-> & -> & _).
  apply pruneLoop_keeps. intros [u v] Hexp. unfold nanStamped. cbn [fst] in *.
  destruct u; [rewrite expired_NaN in Hexp; discriminate|reflexivity..].
Qed.

Lemma nan_stamped_entries_witness :
  let pre := [[mkPair "time" (num 0); mkPair "a" (num 7)]] in
  let sample := [mkPair "a" (num 1); mkPair "b" NaN; mkPair "a" (num 2)] in
  let post := [[mkPair "a" (num 3); mkPair "time" (num 40)]] in
  let g' := add (pre ++ sample :: post) (num 1000) (reset DEFAULT_OPTIONS) in
  seriesTs (data g') "a" = [num 0; NaN; NaN; num 40]
  /\ seriesVs (data g') "a" = [num 7; num 1; num 2; num 3]
  /\ seriesTs (data (renderAll [num 1000; num 9000] g')) "a" = [NaN; NaN; num 40].
Proof.
  intros pre sample post g'.
  destruct (nan_stamped_entries (reset DEFAULT_OPTIONS) pre post sample
                                (num 1000) "a")
    as (_ & H1 & H2 & _).
  - intros p [<-|[<-|[<-|[]]]]; discriminate.
  - discriminate.
  - split; [exact H1|]. split; [exact H2|reflexivity].
Defined.

End Render.

(* ================================================================== *)
(** * Axis scaling *)
(* ================================================================== *)

Section Axis.
Import JsNumber Graph.

Implicit Types (o : Options) (d : Data) (g : GraphState).
Implicit Types (a b c : number) (p q r : Q).

Local Open Scope Q_scope.


(** ** The raw extremes *)







(** ** The axis *)

(** C8 (axis scaling of the values 10, 12, 47).  With at most 7 ticks
    [getAxisScaling 10 47 7] is the axis from 10 to 50 with ticks 10 apart:
    its minimum is at most 10, its maximum at least 47, and the tick
    spacing is 1 x 10^1. *)
Theorem axis_scaling_example :
  let axis := getAxisScaling (num 10) (num 47) (num 7) in
  axis = mkAxis (num 10) (num 50) (num 10)
  /\ le (min axis) (num 10) = true
  /\ le (num 47) (max axis) = true
  /\ exists (f k : Z) (q : Q),
       In f [1; 2; 5; 10]%Z
       /\ spacing axis = Fin q
       /\ q == inject_Z f * 10 ^ k.
Proof.
  cbn zeta. split; [vm_compute; reflexivity|].
  split; [vm_compute; reflexivity|]. split; [vm_compute; reflexivity|].
  exists 1%Z, 1%Z, (inject_Z 10). split; [now left|].
  split; [vm_compute; reflexivity|]. reflexivity.
Qed.


(** ** Nice numbers and the axis, between powers of two *)

Lemma pow2_add (a b : Z) : 2 ^ (a + b) == 2 ^ a * 2 ^ b.
Proof. apply Qpower_plus. discriminate. Qed.


Lemma divide_Fin p q : ~ q == 0 -> divide (Fin p) (Fin q) = round64 (p / q).
Proof.
  intros Hq. cbn [divide].
  destruct (Qeq_bool q 0) eqn:E; [|reflexivity].
  apply Qeq_bool_iff in E. contradiction.
Qed.

Lemma Qdiv_le_pow2 p q (a b : Z) :
  0 <= p -> p <= 2 ^ a -> 2 ^ b <= q -> p / q <= 2 ^ (a - b).
Proof.
  intros Hp0 Hp Hq. pose proof (pow2_pos b) as Hb.
  apply Qle_shift_div_r; [lra|].
  unfold Zminus. rewrite pow2_add, Qpower_opp.
  apply Qle_trans with (2 ^ a * / 2 ^ b * 2 ^ b).
  - rewrite <- Qmult_assoc, (Qmult_comm (/ 2 ^ b)), Qmult_inv_r by lra. lra.
  - apply Qmult_le_l; [|assumption].
    apply Qmult_lt_0_compat; [apply pow2_pos|].
    apply Qinv_lt_0_compat. assumption.
Qed.









End Axis.

(* ================================================================== *)
(** * More on the history reducer *)
(* ================================================================== *)

Section HistoryMore.
Import JsArray ConfigurableLayout.

Implicit Types (s : StateHistoryReducerState) (p h : GridSnapshot).

Local Abbreviation len s := (Z.of_nat (length (gridStateHistory s))).
Local Abbreviation pos s := (currentHistoryPosition s).

Lemma isEqual_true (value : option GridSnapshot) p :
  isEqual value p = true <-> value = Some p.
Proof.
  unfold isEqual. destruct value as [v|]; [|split; discriminate].
  destruct (GridSnapshot_eq_dec v p) as [->|N]; split; auto;
    try discriminate. intros E. injection E as E. contradiction.
Qed.

Lemma at_index_firstn_push {A} (l : list A) (v : A) (i : Z) :
  0 <= i < Z.of_nat (length l) ->
  at_index (firstn (Z.to_nat (i + 1)) l ++ [v]) i = at_index l i
  /\ at_index (firstn (Z.to_nat (i + 1)) l ++ [v]) (i + 1) = Some v.
Proof.
  intros Hi. unfold at_index.
  destruct (i <? 0) eqn:E; [apply Z.ltb_lt in E; lia|].
  destruct (i + 1 <? 0) eqn:E1; [apply Z.ltb_lt in E1; lia|].
  split.
  - rewrite nth_error_app1 by (rewrite length_firstn; lia).
    rewrite nth_error_firstn.
    destruct (Z.to_nat i <? Z.to_nat (i + 1))%nat eqn:En; [reflexivity|].
    apply Nat.ltb_ge in En. lia.
  - rewrite nth_error_app2 by (rewrite length_firstn; lia).
    rewrite length_firstn.
    replace (Z.to_nat (i + 1) - Nat.min (Z.to_nat (i + 1)) (length l))%nat
      with 0%nat by lia.
    reflexivity.
Qed.

(** With an empty history the reducer is still in its initial state. *)
Lemma reachable_empty_history s :
  reachable s -> gridStateHistory s = [] -> s = initialState.
Proof.
  induction 1 as [|s a Hs IH]; [reflexivity|].
  pose proof (reachable_cursorOk s Hs) as Hok.
  pose proof (cursorOk_bounds s Hok) as Hb.
  destruct a as [p| |].
  - destruct (shouldAppend s p) eqn:Happ.
    + rewrite append_applied by assumption. cbn [gridStateHistory].
      intros E. apply app_eq_nil in E. destruct E as [_ E]. discriminate.
    + cbn [stateHistoryReducer]. rewrite Happ. exact IH.
  - cbn [stateHistoryReducer]. destruct (pos s >? 0) eqn:E; [|exact IH].
    cbn [gridStateHistory]. intros Hnil. rewrite Hnil in Hb. cbn in Hb.
    apply Z.gtb_lt in E. lia.
  - cbn [stateHistoryReducer].
    destruct (pos s <? len s - 1) eqn:E; [|exact IH].
    cbn [gridStateHistory]. intros Hnil. rewrite Hnil in Hb, E. cbn in Hb, E.
    apply Z.ltb_lt in E. lia.
Qed.

(** In a reachable state with a history the head is the snapshot under
    the cursor. *)
Lemma reachable_head s :
  reachable s -> gridStateHistory s <> [] ->
  0 <= pos s < len s
  /\ exists h, at_index (gridStateHistory s) (pos s) = Some h
               /\ currentHead s = Some h.
Proof.
  intros Hs Hne. destruct (reachable_cursorOk s Hs) as [[H0 _]|[Hb Hh]].
  - destruct (gridStateHistory s); [congruence|discriminate].
  - split; [exact Hb|].
    destruct (at_index_in_range (gridStateHistory s) (pos s) Hb) as [h Eh].
    exists h. split; [exact Eh|]. now rewrite Hh.
Qed.

(** An append is suppressed exactly when there is a history and the
    payload is the head. *)
Lemma shouldAppend_false_iff s p :
  reachable s ->
  shouldAppend s p = false
  <-> gridStateHistory s <> [] /\ currentHead s = Some p.
Proof.
  intros Hs. unfold shouldAppend.
  destruct (gridStateHistory s) as [|h0 hist] eqn:Eh.
  - cbn. split; [discriminate|]. intros [N _]. congruence.
  - cbn [length Nat.eqb].
    assert (Hne : gridStateHistory s <> []) by (rewrite Eh; discriminate).
    destruct (reachable_head s Hs Hne) as (_ & h & Hat & Hhead).
    rewrite Eh in Hat. rewrite Hat, Hhead.
    destruct (isEqual (Some h) p) eqn:E.
    + apply isEqual_true in E. injection E as ->.
      split; [intros _; split; [discriminate|reflexivity]|].
      intros _. now destruct (lastActionMovedCursor (actionHistory s)).
    + split.
      * destruct (lastActionMovedCursor (actionHistory s)); discriminate.
      * intros [_ E']. apply isEqual_true in E'. congruence.
Qed.

(** X1.  Cursor invariant.  In every state the reducer can reach, either
    the history is empty and the state is the initial one, or the cursor
    is an index of the history and the head is the snapshot stored
    there. *)
Theorem cursor_stays_in_bounds s :
  reachable s ->
  (gridStateHistory s = [] /\ s = initialState)
  \/ (0 <= pos s < len s
      /\ exists h, at_index (gridStateHistory s) (pos s) = Some h
                   /\ currentHead s = Some h).
Proof.
  intros Hs. destruct (gridStateHistory s) as [|h0 hist] eqn:E.
  - left. split; [reflexivity|]. now apply reachable_empty_history.
  - right. rewrite <- E. apply reachable_head; [assumption|].
    rewrite E. discriminate.
Qed.

Lemma cursor_stays_in_bounds_witness :
  let s := stateHistoryReducer
             (appendAll [DEFAULT_GRID; DEFAULT_GRID_MEDIUM] initialState)
             Action_UNDO in
  pos s = 0 /\ currentHead s = Some DEFAULT_GRID.
Proof.
  intros s.
  assert (Hreach : reachable s).
  { unfold s, appendAll. cbn [fold_left]. repeat constructor. }
  destruct (cursor_stays_in_bounds s Hreach)
    as [[E _]|(_ & h & _ & Hh)].
  - vm_compute in E. discriminate.
  - split; [reflexivity|]. rewrite Hh. vm_compute in Hh.
    injection Hh as <-. reflexivity.
Defined.

(** X2.  After an APPEND the head is the payload, whether the append was
    applied or suppressed. *)
Theorem append_shows_payload s p :
  reachable s ->
  currentHead (stateHistoryReducer s (Action_APPEND p)) = Some p.
Proof.
  intros Hs. destruct (shouldAppend s p) eqn:Happ.
  - rewrite append_applied; [reflexivity| |assumption].
    now apply reachable_cursorOk.
  - cbn [stateHistoryReducer]. rewrite Happ.
    now apply shouldAppend_false_iff in Happ.
Qed.

Lemma append_shows_payload_witness :
  currentHead
    (stateHistoryReducer
       (stateHistoryReducer
          (appendAll [DEFAULT_GRID; DEFAULT_GRID_MEDIUM] initialState)
          Action_UNDO)
       (Action_APPEND DEFAULT_GRID))
  = Some DEFAULT_GRID.
Proof.
  apply append_shows_payload.
  unfold appendAll. cbn [fold_left]. repeat constructor.
Defined.

(** X3.  No-op suppression.  In a reachable state an APPEND leaves the
    state as it is exactly when there is a history and the payload
    deep-equals the head; the test on the last action being UNDO or REDO
    never decides.  After an applied append the history holds the
    snapshots up to the cursor of before and the payload, and the cursor
    is on the payload. *)
Theorem append_suppressed_iff s p :
  reachable s ->
  (stateHistoryReducer s (Action_APPEND p) = s
   <-> gridStateHistory s <> [] /\ currentHead s = Some p)
  /\ (stateHistoryReducer s (Action_APPEND p) <> s ->
      len (stateHistoryReducer s (Action_APPEND p)) = pos s + 2
      /\ pos (stateHistoryReducer s (Action_APPEND p)) = pos s + 1).
Proof.
  intros Hs.
  pose proof (reachable_cursorOk s Hs) as Hok.
  pose proof (cursorOk_bounds s Hok) as Hb.
  destruct (shouldAppend s p) eqn:Happ.
  - rewrite append_applied by assumption. split.
    + split.
      * intros E. apply (f_equal currentHistoryPosition) in E.
        cbn in E. lia.
      * intros H. apply shouldAppend_false_iff in H; [congruence|assumption].
    + intros _. cbn [gridStateHistory currentHistoryPosition].
      rewrite length_app, length_firstn. cbn [length]. lia.
  - cbn [stateHistoryReducer]. rewrite Happ. split.
    + split; [intros _|reflexivity].
      now apply shouldAppend_false_iff in Happ.
    + intros N. now contradiction N.
Qed.

Lemma append_suppressed_iff_witness :
  let s := appendAll [DEFAULT_GRID; DEFAULT_GRID_MEDIUM] initialState in
  stateHistoryReducer s (Action_APPEND DEFAULT_GRID_MEDIUM) = s
  /\ len (stateHistoryReducer s (Action_APPEND DEFAULT_GRID_TALL)) = 3.
Proof.
  intros s.
  assert (Hreach : reachable s).
  { unfold s, appendAll. cbn [fold_left]. repeat constructor. }
  split.
  - apply (append_suppressed_iff s DEFAULT_GRID_MEDIUM Hreach).
    split; [discriminate|reflexivity].
  - destruct (append_suppressed_iff s DEFAULT_GRID_TALL Hreach) as [_ H].
    destruct H as [H _]; [|exact H].
    intros E. apply (f_equal currentHistoryPosition) in E.
    vm_compute in E. discriminate.
Defined.

(** X4.  Append, undo, redo.  In a reachable state with a history, after
    an applied append one UNDO shows the head of before at the cursor of
    before, and a REDO after it shows the payload again. *)
Theorem append_undo_redo s p :
  reachable s ->
  gridStateHistory s <> [] ->
  currentHead s <> Some p ->
  let s1 := stateHistoryReducer s (Action_APPEND p) in
  let s2 := stateHistoryReducer s1 Action_UNDO in
  let s3 := stateHistoryReducer s2 Action_REDO in
  currentHead s2 = currentHead s /\ pos s2 = pos s
  /\ gridStateHistory s2 = gridStateHistory s1
  /\ currentHead s3 = Some p /\ pos s3 = pos s1.
Proof.
  intros Hs Hne Hhead s1 s2 s3.
  destruct (reachable_head s Hs Hne) as (Hb & h & Hat & Hh).
  assert (Happ : shouldAppend s p = true).
  { destruct (shouldAppend s p) eqn:E; [reflexivity|].
    apply shouldAppend_false_iff in E; [|assumption].
    destruct E as [_ E]. contradiction. }
  assert (E1 : s1 = mkState
                      (firstn (Z.to_nat (pos s + 1)) (gridStateHistory s)
                       ++ [p])
                      (actionHistory s ++ [APPEND]) (pos s + 1) (Some p)).
  { unfold s1. apply append_applied; [|assumption].
    now apply reachable_cursorOk. }
  destruct (at_index_firstn_push (gridStateHistory s) p (pos s) Hb)
    as [A1 A2].
  assert (Hlen : Z.of_nat (length (firstn (Z.to_nat (pos s + 1))
                                          (gridStateHistory s) ++ [p]))
                 = pos s + 2).
  { rewrite length_app, length_firstn. cbn [length]. lia. }
  assert (E2 : s2 = mkState (gridStateHistory s1)
                            (actionHistory s1 ++ [UNDO]) (pos s)
                            (currentHead s)).
  { unfold s2. rewrite E1. cbn [stateHistoryReducer currentHistoryPosition
                                 gridStateHistory actionHistory].
    destruct (pos s + 1 >? 0) eqn:E;
      [|rewrite Z.gtb_ltb in E; apply Z.ltb_ge in E; lia].
    replace (pos s + 1 - 1) with (pos s) by lia.
    now rewrite A1, Hat, Hh. }
  assert (E3 : currentHead s3 = Some p /\ pos s3 = pos s1).
  { unfold s3. rewrite E2, E1.
    cbn [stateHistoryReducer currentHistoryPosition gridStateHistory
         actionHistory].
    rewrite Hlen.
    destruct (pos s <? pos s + 2 - 1) eqn:E;
      [|apply Z.ltb_ge in E; lia].
    cbn [currentHead currentHistoryPosition]. now rewrite A2. }
  rewrite E2. cbn [currentHead currentHistoryPosition gridStateHistory].
  destruct E3 as [E3 E4]. repeat split; assumption.
Qed.

Lemma append_undo_redo_witness :
  let s := appendAll [DEFAULT_GRID] initialState in
  let s1 := stateHistoryReducer s (Action_APPEND DEFAULT_GRID_TALL) in
  let s2 := stateHistoryReducer s1 Action_UNDO in
  currentHead s2 = Some DEFAULT_GRID
  /\ currentHead (stateHistoryReducer s2 Action_REDO)
     = Some DEFAULT_GRID_TALL.
Proof.
  intros s s1 s2.
  assert (Hreach : reachable s).
  { unfold s, appendAll. cbn [fold_left]. repeat constructor. }
  destruct (append_undo_redo s DEFAULT_GRID_TALL Hreach)
    as (H1 & _ & _ & H4 & _).
  - discriminate.
  - discriminate.
  - split; [exact H1|exact H4].
Defined.

(** X5.  UNDO and REDO undo each other.  In a reachable state whose
    cursor is above 0, UNDO then REDO gives back the history, the cursor
    and the head; in one whose cursor is below the last index, REDO then
    UNDO does. *)
Theorem undo_redo_inverse s :
  reachable s ->
  (0 < pos s ->
   let r := stateHistoryReducer (stateHistoryReducer s Action_UNDO)
                                Action_REDO in
   gridStateHistory r = gridStateHistory s /\ pos r = pos s
   /\ currentHead r = currentHead s)
  /\ (pos s < len s - 1 ->
      let u := stateHistoryReducer (stateHistoryReducer s Action_REDO)
                                   Action_UNDO in
      gridStateHistory u = gridStateHistory s /\ pos u = pos s
      /\ currentHead u = currentHead s).
Proof.
  intros Hs.
  pose proof (reachable_cursorOk s Hs) as Hok.
  pose proof (cursorOk_bounds s Hok) as Hb.
  assert (Hh : 0 <= pos s ->
               currentHead s = at_index (gridStateHistory s) (pos s)).
  { intros H0. destruct Hok as [[_ E]|[_ E]]; [lia|exact E]. }
  split; intros Hp r; unfold r; cbn [stateHistoryReducer].
  - destruct (pos s >? 0) eqn:E;
      [|rewrite Z.gtb_ltb in E; apply Z.ltb_ge in E; lia].
    cbn [currentHistoryPosition gridStateHistory].
    destruct (pos s - 1 <? len s - 1) eqn:E1;
      [|apply Z.ltb_ge in E1; lia].
    cbn [currentHistoryPosition gridStateHistory currentHead].
    replace (pos s - 1 + 1) with (pos s) by lia.
    rewrite Hh by lia. repeat split.
  - assert (H0 : 0 <= pos s).
    { destruct Hok as [[E0 _]|[Hb' _]]; [|lia].
      rewrite E0 in Hp. cbn in Hp. lia. }
    destruct (pos s <? len s - 1) eqn:E; [|apply Z.ltb_ge in E; lia].
    cbn [currentHistoryPosition gridStateHistory].
    destruct (pos s + 1 >? 0) eqn:E1;
      [|rewrite Z.gtb_ltb in E1; apply Z.ltb_ge in E1; lia].
    cbn [currentHistoryPosition gridStateHistory currentHead].
    replace (pos s + 1 - 1) with (pos s) by lia.
    rewrite Hh by lia. repeat split.
Qed.

Lemma undo_redo_inverse_witness :
  let s := appendAll [DEFAULT_GRID; DEFAULT_GRID_MEDIUM] initialState in
  currentHead
    (stateHistoryReducer (stateHistoryReducer s Action_UNDO) Action_REDO)
  = Some DEFAULT_GRID_MEDIUM.
Proof.
  intros s.
  assert (Hreach : reachable s).
  { unfold s, appendAll. cbn [fold_left]. repeat constructor. }
  destruct (undo_redo_inverse s Hreach) as [H _].
  destruct H as (_ & _ & H); [vm_compute; reflexivity|].
  rewrite H. reflexivity.
Defined.

End HistoryMore.

(* ================================================================== *)
(** * The handlers and the reducer *)
(* ================================================================== *)

Section Handlers.
Import JsArray ConfigurableLayout LayoutHandlers.

Implicit Types (s : StateHistoryReducerState) (p cur : GridSnapshot).
Implicit Types (e : GridItemType) (rid : string).

Local Abbreviation len s := (Z.of_nat (length (gridStateHistory s))).
Local Abbreviation pos s := (currentHistoryPosition s).

(** An applied append on a history, then UNDO: the head of before. *)
Lemma applied_append_then_undo s p :
  reachable s -> gridStateHistory s <> [] -> currentHead s <> Some p ->
  stateHistoryReducer s (Action_APPEND p) <> s
  /\ currentHead (stateHistoryReducer s (Action_APPEND p)) = Some p
  /\ currentHead (stateHistoryReducer
                    (stateHistoryReducer s (Action_APPEND p)) Action_UNDO)
     = currentHead s.
Proof.
  intros Hs Hne Hhead.
  destruct (reachable_head s Hs Hne) as (Hb & cur & Hat & Hh).
  assert (Happ : shouldAppend s p = true).
  { destruct (shouldAppend s p) eqn:E; [reflexivity|].
    apply shouldAppend_false_iff in E; [|assumption].
    destruct E as [_ E]. contradiction. }
  rewrite append_applied by (try apply reachable_cursorOk; assumption).
  split; [|split; [reflexivity|]].
  - intros E. apply (f_equal currentHistoryPosition) in E. cbn in E. lia.
  - cbn [stateHistoryReducer currentHistoryPosition gridStateHistory].
    destruct (pos s + 1 >? 0) eqn:E;
      [|rewrite Z.gtb_ltb in E; apply Z.ltb_ge in E; lia].
    cbn [currentHead]. replace (pos s + 1 - 1) with (pos s) by lia.
    destruct (at_index_firstn_push (gridStateHistory s) p (pos s) Hb)
      as [-> _].
    now rewrite Hat, Hh.
Qed.

Lemma removeItem_absent cur rid :
  ~ In rid (map id cur) -> removeItem cur rid = cur.
Proof.
  intros Hn. unfold removeItem. apply forallb_filter_id, forallb_forall.
  intros e He. apply negb_true_iff, String.eqb_neq. intros E.
  apply Hn. rewrite <- E. now apply in_map.
Qed.

Lemma removeItem_gone cur rid : ~ In rid (map id (removeItem cur rid)).
Proof.
  intros Hin. apply in_map_iff in Hin. destruct Hin as (e & E & He).
  apply filter_In in He. destruct He as [_ He].
  apply negb_true_iff, String.eqb_neq in He. contradiction.
Qed.

Lemma removeItem_present cur rid :
  In rid (map id cur) -> removeItem cur rid <> cur.
Proof.
  intros Hin E. apply (removeItem_gone cur rid). now rewrite E.
Qed.

(** X6.  [removeItem] and the history.  In a reachable state with a
    history whose head is [cur]: removing an id that no panel carries
    leaves the state as it is; removing an id that some panel carries
    shows the grid without every panel of that id, the other panels in
    their order, and one UNDO shows [cur] again. *)
Theorem removeItem_dispatch s cur rid :
  reachable s ->
  gridStateHistory s <> [] ->
  currentHead s = Some cur ->
  let s' := stateHistoryReducer s (Action_APPEND (removeItem cur rid)) in
  (~ In rid (map id cur) -> s' = s)
  /\ (In rid (map id cur) ->
      currentHead s' = Some (removeItem cur rid)
      /\ ~ In rid (map id (removeItem cur rid))
      /\ (forall e, In e cur -> id e <> rid -> In e (removeItem cur rid))
      /\ currentHead (stateHistoryReducer s' Action_UNDO) = Some cur).
Proof.
  intros Hs Hne Hh s'. split.
  - intros Hn. unfold s'. rewrite removeItem_absent by assumption.
    cbn [stateHistoryReducer].
    assert (E : shouldAppend s cur = false)
      by (apply shouldAppend_false_iff; auto).
    now rewrite E.
  - intros Hin.
    assert (Hd : currentHead s <> Some (removeItem cur rid)).
    { rewrite Hh. intros E. injection E as E.
      now apply (removeItem_present cur rid Hin). }
    destruct (applied_append_then_undo s (removeItem cur rid) Hs Hne Hd)
      as (_ & H1 & H2).
    split; [exact H1|]. split; [apply removeItem_gone|].
    split; [|now rewrite <- Hh].
    intros e He Hid. apply filter_In. split; [assumption|].
    now apply negb_true_iff, String.eqb_neq.
Qed.

Lemma removeItem_dispatch_witness :
  let s := appendAll [DEFAULT_GRID] initialState in
  stateHistoryReducer s (Action_APPEND (removeItem DEFAULT_GRID "uuid-9"))
  = s
  /\ currentHead
       (stateHistoryReducer s
          (Action_APPEND (removeItem DEFAULT_GRID "uuid-1")))
     = Some [ item "uuid-0" FIELD_VIEW 0 0 2 9;
              item "uuid-2" CONFIG_VIEW 4 0 2 7;
              item "uuid-3" TELEMETRY_VIEW 4 7 2 2 ].
Proof.
  intros s.
  assert (Hreach : reachable s).
  { unfold s, appendAll. cbn [fold_left]. repeat constructor. }
  split.
  - destruct (removeItem_dispatch s DEFAULT_GRID "uuid-9" Hreach) as [H _];
      [discriminate|reflexivity|].
    apply H. cbn. intros [E|[E|[E|[E|[]]]]]; discriminate.
  - destruct (removeItem_dispatch s DEFAULT_GRID "uuid-1" Hreach) as [_ H];
      [discriminate|reflexivity|].
    destruct H as (H & _); [cbn; tauto|]. exact H.
Defined.

Lemma find_layoutProp cur e :
  NoDup (map id cur) -> In e cur ->
  find (fun it => String.eqb (Rgl.i it) (id e)) (layoutProp cur)
  = Some (Rgl.mkLayout (id e) (x (layout e)) (y (layout e))
                       (w (layout e)) (h (layout e))
                       (Some (isDraggable (layout e)))
                       (Some (isResizable (layout e)))).
Proof.
  induction cur as [|e0 cur' IH]; intros Hnd Hin; [destruct Hin|].
  cbn [layoutProp map find Rgl.i].
  inversion Hnd as [|? ? Hnot Hnd']; subst.
  destruct (String.eqb (id e0) (id e)) eqn:E.
  - apply String.eqb_eq in E. destruct Hin as [->|Hin]; [reflexivity|].
    exfalso. apply Hnot. rewrite E. now apply in_map.
  - destruct Hin as [->|Hin]; [rewrite String.eqb_refl in E; discriminate|].
    now apply IH.
Qed.

(** X7.  [onLayoutChange].  Whatever layout the grid reports, the payload
    has the panels of the head with their ids and views, in their order;
    a panel the layout does not name is kept as it is.  When the ids of
    the head are distinct, reporting back the layout the grid was given
    yields the head itself, so that in a reachable state with a history
    this dispatch leaves the state as it is. *)
Theorem onLayoutChange_roundtrip cur (layout_ : list Rgl.Layout) :
  map id (onLayoutChange cur layout_) = map id cur
  /\ map view (onLayoutChange cur layout_) = map view cur
  /\ (forall e, In e cur ->
                (forall it, In it layout_ -> Rgl.i it <> id e) ->
                In e (onLayoutChange cur layout_))
  /\ (NoDup (map id cur) ->
      onLayoutChange cur (layoutProp cur) = cur
      /\ forall s, reachable s -> gridStateHistory s <> [] ->
                   currentHead s = Some cur ->
                   stateHistoryReducer
                     s (Action_APPEND (onLayoutChange cur (layoutProp cur)))
                   = s).
Proof.
  split; [|split; [|split]].
  - unfold onLayoutChange. rewrite map_map. apply map_ext. intros e.
    now destruct (find _ layout_).
  - unfold onLayoutChange. rewrite map_map. apply map_ext. intros e.
    now destruct (find _ layout_).
  - intros e He Hnone. unfold onLayoutChange. apply in_map_iff.
    exists e. split; [|assumption].
    destruct (find (fun it => String.eqb (Rgl.i it) (id e)) layout_)
      as [it|] eqn:F; [|reflexivity].
    apply find_some in F. destruct F as [Hit E].
    apply String.eqb_eq in E. exfalso. now apply (Hnone it).
  - intros Hnd.
    assert (E : onLayoutChange cur (layoutProp cur) = cur).
    { unfold onLayoutChange.
      transitivity (map (fun e : GridItemType => e) cur);
        [|apply map_id].
      apply map_ext_in. intros e He.
      rewrite (find_layoutProp cur e Hnd He). cbn.
      destruct e as [i0 v0 [x0 y0 w0 h0 d0 r0]]. reflexivity. }
    split; [exact E|]. intros s Hs Hne Hh. rewrite E.
    cbn [stateHistoryReducer].
    assert (F : shouldAppend s cur = false)
      by (apply shouldAppend_false_iff; auto).
    now rewrite F.
Qed.

Lemma onLayoutChange_roundtrip_witness :
  onLayoutChange DEFAULT_GRID (layoutProp DEFAULT_GRID) = DEFAULT_GRID.
Proof.
  destruct (onLayoutChange_roundtrip DEFAULT_GRID (layoutProp DEFAULT_GRID))
    as (_ & _ & _ & H).
  destruct H as [H _]; [|exact H].
  repeat (apply NoDup_cons;
          [cbn; intros Hin;
           repeat (destruct Hin as [Hin|Hin]; [discriminate|]); exact Hin|]).
  apply NoDup_nil.
Defined.

(** X8.  [addItem] and the history.  In a reachable state whose head is
    [cur], the dispatch of [addItem] is always applied: the head becomes
    [cur] followed by one new 2x4 panel with the given id and view, whose
    two flags are the negation of the lock; with a history, one UNDO shows
    [cur] again. *)
Theorem addItem_dispatch s cur locked uuid v :
  reachable s ->
  currentHead s = Some cur ->
  let e' := newItem cur locked uuid v in
  let s' :=
    stateHistoryReducer s (Action_APPEND (addItem cur locked uuid v)) in
  currentHead s' = Some (cur ++ [e'])
  /\ s' <> s
  /\ id e' = uuid /\ view e' = v
  /\ w (layout e') = ITEM_WIDTH /\ h (layout e') = ITEM_HEIGHT
  /\ isDraggable (layout e') = negb locked
  /\ isResizable (layout e') = negb locked
  /\ (gridStateHistory s <> [] ->
      currentHead (stateHistoryReducer s' Action_UNDO) = Some cur).
Proof.
  intros Hs Hh e' s'.
  assert (Hd : currentHead s <> Some (addItem cur locked uuid v)).
  { rewrite Hh. intros E. injection E as E.
    apply (f_equal (@length _)) in E. unfold addItem in E.
    rewrite length_app in E. cbn in E. lia. }
  assert (Happ : shouldAppend s (addItem cur locked uuid v) = true).
  { destruct (shouldAppend s _) eqn:E; [reflexivity|].
    apply shouldAppend_false_iff in E; [|assumption].
    destruct E as [_ E]. contradiction. }
  assert (Hfields : id e' = uuid /\ view e' = v
                    /\ w (layout e') = ITEM_WIDTH
                    /\ h (layout e') = ITEM_HEIGHT
                    /\ isDraggable (layout e') = negb locked
                    /\ isResizable (layout e') = negb locked).
  { unfold e', newItem. destruct (placement cur). cbn. tauto. }
  split; [|split].
  - unfold s'. rewrite append_applied
      by (try apply reachable_cursorOk; assumption). reflexivity.
  - unfold s'. rewrite append_applied
      by (try apply reachable_cursorOk; assumption).
    intros E. apply (f_equal currentHistoryPosition) in E. cbn in E. lia.
  - destruct Hfields as (F1 & F2 & F3 & F4 & F5 & F6).
    repeat (split; [assumption|]).
    intros Hne.
    destruct (applied_append_then_undo s (addItem cur locked uuid v)
                                       Hs Hne Hd) as (_ & _ & H).
    now rewrite <- Hh.
Qed.

Lemma addItem_dispatch_witness :
  let s := appendAll [DEFAULT_GRID] initialState in
  let s' := stateHistoryReducer
              s (Action_APPEND (addItem DEFAULT_GRID false "uuid-4"
                                        CAMERA_VIEW)) in
  currentHead s'
  = Some (DEFAULT_GRID
          ++ [mkItem "uuid-4" CAMERA_VIEW (mkLayout 0 9 2 4 true true)])
  /\ currentHead (stateHistoryReducer s' Action_UNDO) = Some DEFAULT_GRID.
Proof.
  intros s s'.
  assert (Hreach : reachable s).
  { unfold s, appendAll. cbn [fold_left]. repeat constructor. }
  destruct (addItem_dispatch s DEFAULT_GRID false "uuid-4" CAMERA_VIEW
                             Hreach eq_refl)
    as (H1 & _ & _ & _ & _ & _ & _ & _ & H9).
  split; [exact H1|]. apply H9. discriminate.
Defined.

(** X9.  The new panel lies in the grid.  On panels of the grid quadrant
    the refined [addItem] places the new panel within the 6 columns, at a
    row that is not negative, with its bottom edge at the bottom-most edge
    or below.  [addItem] of ConfigurableLayout.tsx places it within the 6
    columns with its bottom edge at the bottom-most edge or below; its row
    is negative exactly when the grid is not empty, the panel does not
    wrap and the bottom-most edge is less than 4. *)
Theorem new_panel_in_grid (items : GridSnapshot) locked uuid v :
  Forall inQuadrant items ->
  (exists e,
      RefinedLayout.newItem items locked uuid v = Some e
      /\ 0 <= x (layout e) /\ x (layout e) + w (layout e) <= GRID_COL
      /\ 0 <= y (layout e)
      /\ bottomMost items <= y (layout e) + h (layout e))
  /\ (let e := newItem items locked uuid v in
      0 <= x (layout e) /\ x (layout e) + w (layout e) <= COLS
      /\ bottomMost items <= y (layout e) + h (layout e)
      /\ (y (layout e) < 0
          <-> items <> [] /\ wraps items = false
              /\ bottomMost items < ITEM_HEIGHT)).
Proof.
  intros Hq.
  pose proof (bottomMost_nonneg items Hq) as Hbm.
  assert (Hre : 0 <= rightEdgeAtBottom items).
  { destruct items as [|e0 items'] eqn:E; [cbn; lia|].
    destruct (rightEdge_attained (e0 :: items') ltac:(discriminate))
      as (em & Hin & _ & <-).
    rewrite Forall_forall in Hq. now destruct (Hq em Hin). }
  split.
  - unfold RefinedLayout.newItem, RefinedLayout.tentative.
    rewrite reduce_maxArray_bottomMost by assumption.
    destruct (rightEdgeAtBottom items + ITEM_WIDTH >? GRID_COL) eqn:W;
      rewrite Z.gtb_ltb in W;
      [apply Z.ltb_lt in W|apply Z.ltb_ge in W];
      eexists; (split; [reflexivity|]); cbn [layout x y w h];
      match goal with
      | |- context [RefinedLayout.newItemTopMin items ?l] =>
          assert (0 <= RefinedLayout.newItemTopMin items l)
            by (unfold RefinedLayout.newItemTopMin;
                match goal with
                | |- 0 <= fold_left _ ?bs 0 =>
                    change (0 <= fold_left Z.max bs 0);
                    apply fold_max_ge_init
                end)
      end;
      unfold ITEM_WIDTH, ITEM_HEIGHT, GRID_COL in *; lia.
  - cbn zeta. unfold newItem.
    destruct items as [|e0 items'] eqn:E.
    + change (placement []) with (0, 0).
      change (bottomMost []) with 0. cbn [layout x y w h].
      unfold COLS, ITEM_WIDTH, ITEM_HEIGHT.
      split; [lia|]. split; [lia|]. split; [lia|]. split.
      * intros H. lia.
      * intros [N _]. congruence.
    + rewrite <- E in *.
      assert (Hne : items <> []) by (rewrite E; discriminate).
      rewrite placement_nonempty by assumption.
      unfold wraps.
      destruct (rightEdgeAtBottom items <=? COLS - ITEM_WIDTH) eqn:L;
        [apply Z.leb_le in L|apply Z.leb_gt in L];
        cbn [layout x y w h];
        destruct (rightEdgeAtBottom items + ITEM_WIDTH >? GRID_COL) eqn:W;
        rewrite Z.gtb_ltb in W;
        [apply Z.ltb_lt in W|apply Z.ltb_ge in W
        |apply Z.ltb_lt in W|apply Z.ltb_ge in W];
        unfold COLS, ITEM_WIDTH, ITEM_HEIGHT, GRID_COL in *;
        repeat split; try lia; try tauto;
        try (intros (_ & F & _); discriminate);
        try (intros; discriminate).
Qed.

Lemma new_panel_in_grid_witness :
  y (layout (newItem [item "uuid-0" FIELD_VIEW 0 0 2 2] true "uuid-1"
                     GRAPH_VIEW)) < 0
  /\ exists e,
       RefinedLayout.newItem [item "uuid-0" FIELD_VIEW 0 0 2 2] true
                             "uuid-1" GRAPH_VIEW = Some e
       /\ 0 <= y (layout e).
Proof.
  destruct (new_panel_in_grid [item "uuid-0" FIELD_VIEW 0 0 2 2] true
                              "uuid-1" GRAPH_VIEW)
    as [(e & He & _ & _ & Hy & _) (_ & _ & _ & Hneg)].
  - apply Forall_cons; [split; cbn; lia|apply Forall_nil].
  - split.
    + apply Hneg. split; [discriminate|]. split; reflexivity.
    + exists e. split; [exact He|exact Hy].
Defined.

End Handlers.

(* ================================================================== *)
(** * The lock toggle and the shared item objects *)
(* ================================================================== *)

Section Shared.
Import JsArray.

Local Abbreviation Heap := SharedLayout.Heap.
Local Abbreviation Snapshot := SharedLayout.Snapshot.
Local Abbreviation deref := SharedLayout.deref.
Local Abbreviation assign := SharedLayout.assign.
Local Abbreviation itemsOf := SharedLayout.itemsOf.
Local Abbreviation allocated := SharedLayout.allocated.
Local Abbreviation hist s := (SharedLayout.gridStateHistory s).
Local Abbreviation pos s := (SharedLayout.currentHistoryPosition s).
Local Abbreviation head s := (SharedLayout.currentHead s).

Implicit Types (heap : Heap) (s : SharedLayout.StateHistoryReducerState).
Implicit Types (snap payload : Snapshot) (r : SharedLayout.ref).

(** ** The reducer over references is the reducer over items *)

Lemma contents_itemsOf heap snap :
  allocated heap snap ->
  SharedLayout.contents heap snap = map Some (itemsOf heap snap).
Proof.
  unfold SharedLayout.allocated, SharedLayout.contents, SharedLayout.itemsOf,
    SharedLayout.deref.
  induction snap as [|r snap IH]; intros Ha; [reflexivity|].
  inversion Ha as [|? ? Hr Ha']; subst. cbn [map flat_map].
  destruct (nth_error heap r) as [e|] eqn:E.
  - cbn. f_equal. now apply IH.
  - apply nth_error_None in E. lia.
Qed.

Lemma map_Some_inj {A} (l1 l2 : list A) :
  map Some l1 = map Some l2 -> l1 = l2.
Proof.
  revert l2. induction l1 as [|a l1 IH]; intros [|b l2] E;
    try discriminate; [reflexivity|].
  cbn in E. injection E as -> E. f_equal. now apply IH.
Qed.

Lemma isEqual_itemsOf heap (value : option Snapshot) payload :
  (forall v, value = Some v -> allocated heap v) ->
  allocated heap payload ->
  SharedLayout.isEqual heap value payload
  = isEqual (option_map (itemsOf heap) value) (itemsOf heap payload).
Proof.
  intros Hv Hp. unfold SharedLayout.isEqual, isEqual.
  destruct value as [v|]; [|reflexivity]. cbn [option_map].
  rewrite (contents_itemsOf heap v) by (now apply Hv).
  rewrite (contents_itemsOf heap payload) by assumption.
  destruct (list_eq_dec SharedLayout.option_item_eq_dec
                        (map Some (itemsOf heap v))
                        (map Some (itemsOf heap payload))) as [E|N];
    destruct (GridSnapshot_eq_dec (itemsOf heap v) (itemsOf heap payload))
      as [E'|N']; try reflexivity.
  - apply map_Some_inj in E. contradiction.
  - rewrite E' in N. contradiction.
Qed.

Lemma at_index_map {A B} (f : A -> B) (l : list A) (i : Z) :
  at_index (map f l) i = option_map f (at_index l i).
Proof.
  unfold at_index. destruct (i <? 0); [reflexivity|].
  apply nth_error_map.
Qed.

Lemma at_index_allocated heap (l : list Snapshot) (i : Z) snap :
  Forall (allocated heap) l -> at_index l i = Some snap ->
  allocated heap snap.
Proof.
  intros Hl. unfold at_index. destruct (i <? 0); [discriminate|].
  intros E. apply nth_error_In in E. rewrite Forall_forall in Hl.
  now apply Hl.
Qed.

Lemma splice_map {A B} (f : A -> B) (l : list A) (a b : Z) :
  splice (map f l) a b = map f (splice l a b).
Proof.
  unfold splice. rewrite length_map, map_app, firstn_map, skipn_map.
  reflexivity.
Qed.

Lemma shouldAppend_itemsOf heap s payload :
  SharedLayout.stateAllocated heap s -> allocated heap payload ->
  SharedLayout.shouldAppend heap s payload
  = ConfigurableLayout.shouldAppend (SharedLayout.stateOf heap s)
                                    (itemsOf heap payload).
Proof.
  intros [Hh Hc] Hp.
  unfold SharedLayout.shouldAppend, ConfigurableLayout.shouldAppend,
    SharedLayout.stateOf.
  cbn [ConfigurableLayout.gridStateHistory ConfigurableLayout.actionHistory
       ConfigurableLayout.currentHistoryPosition
       ConfigurableLayout.currentHead].
  rewrite length_map, at_index_map.
  rewrite !isEqual_itemsOf; auto.
  intros v Ev. now apply (at_index_allocated heap (hist s) (pos s)).
Qed.

(** With the item objects left alone, a step over references is the step
    of [ConfigurableLayout.stateHistoryReducer] on the items they point
    to. *)
Lemma shared_reducer_step heap s (a : SharedLayout.StateHistoryAction) :
  SharedLayout.stateAllocated heap s ->
  SharedLayout.actionAllocated heap a ->
  SharedLayout.stateOf heap (SharedLayout.stateHistoryReducer heap s a)
  = ConfigurableLayout.stateHistoryReducer (SharedLayout.stateOf heap s)
                                           (SharedLayout.actionOf heap a).
Proof.
  intros Hs Ha. destruct a as [payload| |];
    cbn [SharedLayout.stateHistoryReducer SharedLayout.actionOf
         ConfigurableLayout.stateHistoryReducer].
  - rewrite <- shouldAppend_itemsOf by assumption.
    destruct (SharedLayout.shouldAppend heap s payload); [|reflexivity].
    unfold SharedLayout.stateOf.
    cbn [SharedLayout.gridStateHistory SharedLayout.actionHistory
         SharedLayout.currentHistoryPosition SharedLayout.currentHead
         ConfigurableLayout.gridStateHistory ConfigurableLayout.actionHistory
         ConfigurableLayout.currentHistoryPosition
         ConfigurableLayout.currentHead].
    rewrite length_map.
    assert (E : map (itemsOf heap)
                    (push (if negb (pos s =? Z.of_nat (length (hist s)) - 1)
                           then splice (hist s) (pos s + 1)
                                       (Z.of_nat (length (hist s)) - pos s)
                           else hist s) payload)
                = push (if negb (pos s =? Z.of_nat (length (hist s)) - 1)
                        then splice (map (itemsOf heap) (hist s)) (pos s + 1)
                                    (Z.of_nat (length (hist s)) - pos s)
                        else map (itemsOf heap) (hist s))
                       (itemsOf heap payload)).
    { unfold push. rewrite map_app. cbn [map]. f_equal.
      destruct (negb (pos s =? Z.of_nat (length (hist s)) - 1));
        [now rewrite splice_map|reflexivity]. }
    rewrite E. f_equal. rewrite <- E. now rewrite at_index_map.
  - unfold SharedLayout.stateOf.
    cbn [ConfigurableLayout.gridStateHistory ConfigurableLayout.actionHistory
         ConfigurableLayout.currentHistoryPosition
         ConfigurableLayout.currentHead].
    destruct (pos s >? 0);
      cbn [SharedLayout.gridStateHistory SharedLayout.actionHistory
           SharedLayout.currentHistoryPosition SharedLayout.currentHead];
      [now rewrite at_index_map|reflexivity].
  - unfold SharedLayout.stateOf.
    cbn [ConfigurableLayout.gridStateHistory ConfigurableLayout.actionHistory
         ConfigurableLayout.currentHistoryPosition
         ConfigurableLayout.currentHead].
    rewrite length_map.
    destruct (pos s <? Z.of_nat (length (hist s)) - 1);
      cbn [SharedLayout.gridStateHistory SharedLayout.actionHistory
           SharedLayout.currentHistoryPosition SharedLayout.currentHead];
      [now rewrite at_index_map|reflexivity].
Qed.

(** ** The cursor invariant over references *)

Lemma push_after_cursor {A} (l : list A) (i : Z) (v : A) :
  -1 <= i < Z.of_nat (length l) ->
  let l' := push (if negb (i =? Z.of_nat (length l) - 1)
                  then splice l (i + 1) (Z.of_nat (length l) - i)
                  else l) v in
  l' = firstn (Z.to_nat (i + 1)) l ++ [v]
  /\ at_index l' (i + 1) = Some v
  /\ Z.of_nat (length l') = i + 2.
Proof.
  intros Hi l'.
  assert (E : l' = firstn (Z.to_nat (i + 1)) l ++ [v]).
  { unfold l', push. f_equal.
    destruct (i =? Z.of_nat (length l) - 1) eqn:E; cbn [negb].
    - apply Z.eqb_eq in E. rewrite firstn_all2; [reflexivity|lia].
    - apply splice_after_cursor. lia. }
  split; [exact E|]. rewrite E. split.
  - replace (i + 1)
      with (Z.of_nat (length (firstn (Z.to_nat (i + 1)) l))) at 2
      by (rewrite length_firstn; lia).
    apply at_index_push.
  - rewrite length_app, length_firstn. cbn [length]. lia.
Qed.

Lemma sharedReachable_cursor s :
  sharedReachable s ->
  (length (hist s) = 0%nat /\ pos s = -1)
  \/ (0 <= pos s < Z.of_nat (length (hist s))
      /\ head s = at_index (hist s) (pos s)).
Proof.
  induction 1 as [|heap s a _ IH]; [left; split; reflexivity|].
  assert (Hb : -1 <= pos s < Z.of_nat (length (hist s)))
    by (destruct IH as [[H0 H1]|[H0 _]]; lia).
  destruct a as [payload| |]; cbn [SharedLayout.stateHistoryReducer].
  - destruct (SharedLayout.shouldAppend heap s payload); [|exact IH].
    right.
    cbn [SharedLayout.gridStateHistory SharedLayout.currentHistoryPosition
         SharedLayout.currentHead].
    destruct (push_after_cursor (hist s) (pos s) payload Hb)
      as (_ & _ & Hlen).
    cbn zeta in Hlen. split; [lia|reflexivity].
  - destruct (pos s >? 0) eqn:E; [|exact IH]. apply Z.gtb_lt in E.
    right.
    cbn [SharedLayout.gridStateHistory SharedLayout.currentHistoryPosition
         SharedLayout.currentHead].
    split; [lia|reflexivity].
  - destruct (pos s <? Z.of_nat (length (hist s)) - 1) eqn:E; [|exact IH].
    apply Z.ltb_lt in E. right.
    cbn [SharedLayout.gridStateHistory SharedLayout.currentHistoryPosition
         SharedLayout.currentHead].
    split; [lia|reflexivity].
Qed.

(** ** Assignments to the item objects *)

Lemma deref_assign heap r r' (f : GridItemType -> GridItemType) :
  deref (assign heap r f) r'
  = if (r =? r')%nat then option_map f (deref heap r) else deref heap r'.
Proof.
  unfold SharedLayout.deref. revert r r'.
  induction heap as [|e heap IH]; intros r r'.
  - assert (Hnil : forall n, nth_error (@nil GridItemType) n = None)
      by (intros [|n]; reflexivity).
    replace (assign [] r f) with (@nil GridItemType) by (now destruct r).
    rewrite !Hnil. now destruct (r =? r')%nat.
  - destruct r as [|r], r' as [|r']; cbn; try reflexivity. apply IH.
Qed.

Lemma length_assign heap r (f : GridItemType -> GridItemType) :
  length (assign heap r f) = length heap.
Proof.
  revert r. induction heap as [|e heap IH]; intros [|r]; cbn; auto.
Qed.

(** A run of assignments of an idempotent update changes exactly the
    objects it names, each as one assignment does. *)
Lemma deref_assign_all (f : GridItemType -> GridItemType) refs heap r :
  (forall e, f (f e) = f e) ->
  deref (fold_left (fun hp r0 => assign hp r0 f) refs heap) r
  = if in_dec Nat.eq_dec r refs then option_map f (deref heap r)
    else deref heap r.
Proof.
  intros Hf. revert heap. induction refs as [|r0 refs IH]; intros heap.
  - reflexivity.
  - cbn [fold_left]. rewrite IH, deref_assign.
    destruct (in_dec Nat.eq_dec r refs) as [Hin|Hn];
      destruct (in_dec Nat.eq_dec r (r0 :: refs)) as [Hin'|Hn'];
      destruct (r0 =? r)%nat eqn:E;
      try (apply Nat.eqb_eq in E; subst r0);
      try (apply Nat.eqb_neq in E);
      try reflexivity;
      try (exfalso; apply Hn'; cbn; tauto).
    + destruct (deref heap r); cbn; [now rewrite Hf|reflexivity].
    + destruct Hin' as [E'|Hin']; [congruence|contradiction].
Qed.

Lemma setLock_idempotent (b : bool) (e : GridItemType) :
  LayoutHandlers.setLock b (LayoutHandlers.setLock b e)
  = LayoutHandlers.setLock b e.
Proof. reflexivity. Qed.

Lemma shared_isEqual_refl heap snap :
  SharedLayout.isEqual heap (Some snap) snap = true.
Proof.
  unfold SharedLayout.isEqual.
  now destruct (list_eq_dec SharedLayout.option_item_eq_dec
                            (SharedLayout.contents heap snap)
                            (SharedLayout.contents heap snap)).
Qed.

(** X10.  The lock toggle and the history.  In a reachable state with a
    history, [clickFAB] never adds a snapshot: its payload holds the item
    objects of the snapshot under the cursor, which it has just assigned
    to, so the payload deep-equals that snapshot and the reducer state
    stays as it is.  The assignments change the item objects themselves:
    every object of the head gets both flags set to the previous value of
    the lock, in whatever snapshot of the history it also sits, and no
    other object changes. *)
Theorem clickFAB_rewrites_history heap s (isLayoutLocked : bool) :
  sharedReachable s ->
  hist s <> [] ->
  exists cur heap',
    head s = Some cur
    /\ at_index (hist s) (pos s) = Some cur
    /\ SharedLayout.clickFAB heap s isLayoutLocked
       = Some (heap', s, negb isLayoutLocked)
    /\ length heap' = length heap
    /\ (forall r e, In r cur -> deref heap r = Some e ->
                    deref heap' r
                    = Some (LayoutHandlers.setLock (negb isLayoutLocked) e))
    /\ (forall r, ~ In r cur -> deref heap' r = deref heap r)
    /\ (forall snap r e,
          In snap (hist s) -> In r snap -> In r cur ->
          deref heap' r = Some e ->
          isDraggable (layout e) = isLayoutLocked
          /\ isResizable (layout e) = isLayoutLocked).
Proof.
  intros Hs Hne.
  destruct (sharedReachable_cursor s Hs) as [[H0 _]|[Hb Hh]].
  { destruct (hist s); [congruence|discriminate]. }
  destruct (at_index_in_range (hist s) (pos s) Hb) as [cur Hat].
  set (f := LayoutHandlers.setLock (negb isLayoutLocked)).
  set (heap' := fold_left (fun hp r0 => assign hp r0 f) cur heap).
  assert (Hd : forall r,
             deref heap' r
             = if in_dec Nat.eq_dec r cur then option_map f (deref heap r)
               else deref heap r).
  { intros r. unfold heap'. apply deref_assign_all.
    intros e. apply setLock_idempotent. }
  exists cur, heap'. split; [now rewrite Hh|]. split; [exact Hat|].
  split; [|split; [|split; [|split]]].
  - unfold SharedLayout.clickFAB. rewrite Hh, Hat. fold f. fold heap'.
    cbn [SharedLayout.stateHistoryReducer].
    assert (E : SharedLayout.shouldAppend heap' s cur = false).
    { unfold SharedLayout.shouldAppend.
      destruct (length (hist s) =? 0)%nat eqn:E0.
      - apply Nat.eqb_eq in E0. destruct (hist s); [congruence|discriminate].
      - rewrite Hh, !Hat, !shared_isEqual_refl.
        now destruct (ConfigurableLayout.lastActionMovedCursor
                        (SharedLayout.actionHistory s)). }
    now rewrite E.
  - unfold heap'. clear. revert heap.
    induction cur as [|r cur IH]; intros heap; [reflexivity|].
    cbn [fold_left]. now rewrite IH, length_assign.
  - intros r e Hin He. rewrite Hd.
    destruct (in_dec Nat.eq_dec r cur); [|contradiction].
    now rewrite He.
  - intros r Hn. rewrite Hd.
    destruct (in_dec Nat.eq_dec r cur); [contradiction|reflexivity].
  - intros snap r e _ _ Hin He. rewrite Hd in He.
    destruct (in_dec Nat.eq_dec r cur); [|contradiction].
    destruct (deref heap r) as [e0|]; [|discriminate].
    cbn in He. injection He as <-. unfold f. cbn.
    now rewrite negb_involutive.
Qed.

Lemma clickFAB_rewrites_history_witness :
  let heap := [ConfigurableLayout.item "uuid-0" FIELD_VIEW 0 0 2 9;
               ConfigurableLayout.item "uuid-1" GRAPH_VIEW 2 0 2 9] in
  let s := SharedLayout.stateHistoryReducer
             heap
             (SharedLayout.stateHistoryReducer
                heap SharedLayout.initialState
                (SharedLayout.Action_APPEND [0%nat]))
             (SharedLayout.Action_APPEND [0%nat; 1%nat]) in
  exists heap',
    SharedLayout.clickFAB heap s false = Some (heap', s, true)
    /\ SharedLayout.itemsOf heap' [0%nat]
       = [mkItem "uuid-0" FIELD_VIEW (mkLayout 0 0 2 9 false false)].
Proof.
  intros heap s.
  assert (Hreach : sharedReachable s) by (repeat constructor).
  destruct (clickFAB_rewrites_history heap s false Hreach)
    as (cur & heap' & Hc & _ & Hclick & _ & Hset & _ & _).
  - discriminate.
  - exists heap'. split; [exact Hclick|].
    injection Hc as <-.
    unfold SharedLayout.itemsOf. cbn [flat_map].
    rewrite (Hset 0%nat (ConfigurableLayout.item "uuid-0" FIELD_VIEW 0 0 2 9));
      [reflexivity|now left|reflexivity].
Defined.

End Shared.

(* ================================================================== *)
(** * Invariants of the sample buffer *)
(* ================================================================== *)

Section BufferInvariants.
Import JsNumber Graph.

Implicit Types (o : Options) (d : Data) (k : string) (g : GraphState).

Lemma lookup_None_keys d k : lookup d k = None <-> ~ In k (map fst d).
Proof.
  induction d as [|[k0 s0] d IH]; cbn [lookup map fst In]; [tauto|].
  destruct (String.eqb k0 k) eqn:E.
  - apply String.eqb_eq in E. split; [discriminate|]. intros N.
    exfalso. apply N. now left.
  - apply String.eqb_neq in E. rewrite IH. tauto.
Qed.

Lemma update_keys d k (f : Series -> Series) :
  map fst (update d k f) = map fst d.
Proof.
  induction d as [|[k0 s0] d IH]; [reflexivity|]. cbn [update].
  destruct (String.eqb k0 k); cbn [map fst]; [reflexivity|].
  now rewrite IH.
Qed.

Lemma update_In d k (f : Series -> Series) k' s' :
  In (k', s') (update d k f) ->
  exists s0, In (k', s0) d /\ (s' = s0 \/ s' = f s0).
Proof.
  induction d as [|[k0 s0] d IH]; [intros []|]. cbn [update].
  destruct (String.eqb k0 k).
  - intros [E|Hin].
    + injection E as <- <-. exists s0. split; [now left|now right].
    + exists s'. split; [now right|now left].
  - intros [E|Hin].
    + injection E as <- <-. exists s0. split; [now left|now left].
    + destruct (IH Hin) as (s1 & H1 & H2). exists s1.
      split; [now right|assumption].
Qed.

Lemma addPair_bufferOk o t d (p : Pair) :
  bufferOk d -> bufferOk (addPair o t d p).
Proof.
  intros (Hnd & Ht & Hl). unfold addPair.
  destruct (String.eqb (name p) "time") eqn:Et; [repeat split; assumption|].
  destruct (isNaN (value p)); [repeat split; assumption|].
  destruct (String.eqb (name p) "__proto__"); [repeat split; assumption|].
  apply String.eqb_neq in Et.
  set (d' := if negb (hasOwnProperty d (name p))
             then d ++ [(name p, mkSeries [] [] (nextColor o d))] else d).
  assert (Hd' : bufferOk d').
  { unfold d', hasOwnProperty.
    destruct (lookup d (name p)) eqn:El; cbn [negb];
      [repeat split; assumption|].
    apply lookup_None_keys in El.
    split; [|split].
    - rewrite map_app. cbn [map fst].
      apply NoDup_app; [assumption|repeat constructor; tauto|].
      intros k Hk [<-|[]]. contradiction.
    - rewrite map_app, in_app_iff. cbn. intros [H|[H|[]]]; auto.
    - intros k s Hin. apply in_app_or in Hin.
      destruct Hin as [Hin|[E|[]]]; [now apply (Hl k s)|].
      now injection E as _ <-. }
  clearbody d'. destruct Hd' as (Hnd' & Ht' & Hl').
  split; [|split].
  - now rewrite update_keys.
  - now rewrite update_keys.
  - intros k s Hin. apply update_In in Hin.
    destruct Hin as (s0 & H0 & [->| ->]); [now apply (Hl' k s0)|].
    cbn [ts vs]. unfold JsArray.push. rewrite !length_app.
    now rewrite (Hl' k s0 H0).
Qed.

Lemma add_bufferOk samples now g :
  bufferOk (data g) -> bufferOk (data (add samples now g)).
Proof.
  rewrite add_data. generalize (data g) as d. generalize (options g) as o.
  intros o. induction samples as [|sample samples IH]; intros d Hd;
    [exact Hd|].
  cbn [fold_left]. apply IH. unfold addSample.
  generalize (sampleTime sample) as t. intros t. revert d Hd.
  induction sample as [|p sample IHs]; intros d Hd; [exact Hd|].
  cbn [fold_left]. apply IHs. now apply addPair_bufferOk.
Qed.

(** The loop drops the same number of entries at the front of both
    arrays, all of them expired, and stops at a live entry. *)
Lemma pruneLoop_prefix o now (ts vs : list number) :
  exists n,
    fst (pruneLoop o now ts vs) = skipn n ts
    /\ snd (pruneLoop o now ts vs) = skipn n vs
    /\ (n <= length ts)%nat
    /\ Forall (fun t => expired o now t = true) (firstn n ts)
    /\ match skipn n ts with
       | [] => True
       | t :: _ => expired o now t = false
       end.
Proof.
  revert vs. induction ts as [|t ts IH]; intros vs.
  - exists 0%nat. cbn. repeat split; auto.
  - cbn [pruneLoop]. destruct (expired o now t) eqn:E.
    + destruct (IH (JsArray.shift vs)) as (n & H1 & H2 & H3 & H4 & H5).
      exists (S n). cbn [skipn firstn length].
      split; [exact H1|]. split.
      * rewrite H2. unfold JsArray.shift. destruct vs; [|reflexivity].
        cbn. now destruct n.
      * split; [lia|]. split; [constructor; assumption|exact H5].
    + exists 0%nat. cbn [skipn firstn fst snd].
      repeat split; auto. lia.
Qed.

Lemma pruneSeries_lengths o now (s : Series) :
  length (ts s) = length (vs s) ->
  length (ts (pruneSeries o now s)) = length (vs (pruneSeries o now s)).
Proof.
  intros Hl. destruct (pruneSeries_fields o now s) as (-> & -> & _).
  destruct (pruneLoop_prefix o now (ts s) (vs s)) as (n & -> & -> & _).
  rewrite !length_skipn. lia.
Qed.

Lemma prune_In o now d k s' :
  In (k, s') (prune o now d) ->
  exists s, In (k, s) d /\ s' = pruneSeries o now s.
Proof.
  unfold prune. intros Hin. apply in_map_iff in Hin.
  destruct Hin as ([k0 s0] & E & Hin). cbn [fst snd] in E.
  injection E as <- <-. eauto.
Qed.

Lemma prune_keys o now d : map fst (prune o now d) = map fst d.
Proof. unfold prune. rewrite map_map. now apply map_ext. Qed.

Lemma render_bufferOk g now :
  bufferOk (data g) -> bufferOk (data (fst (fst (render g now)))).
Proof.
  intros (Hnd & Ht & Hl). rewrite render_state.
  destruct (isNaN (beginGraphNowMs g)); [repeat split; assumption|].
  cbn [data]. split; [|split]; rewrite ?prune_keys; try assumption.
  intros k s' Hin. apply prune_In in Hin. destruct Hin as (s & Hin & ->).
  apply pruneSeries_lengths. now apply (Hl k s).
Qed.

Lemma render_values_not_NaN g now :
  allValues (fun v => negb (isNaN v)) (data g) ->
  allValues (fun v => negb (isNaN v)) (data (fst (fst (render g now)))).
Proof.
  intros Hv. rewrite render_state.
  destruct (isNaN (beginGraphNowMs g)); [exact Hv|]. cbn [data].
  intros k s' v Hin Hin'. apply prune_In in Hin.
  destruct Hin as (s & Hin & ->).
  destruct (pruneSeries_fields (options g) (graphNow g now) s)
    as (_ & Ev & _).
  destruct (pruneLoop_prefix (options g) (graphNow g now) (ts s) (vs s))
    as (n & _ & E2 & _).
  rewrite Ev, E2 in Hin'. apply (Hv k s v Hin).
  rewrite <- (firstn_skipn n (vs s)). apply in_or_app. now right.
Qed.

Lemma render_options g now : options (fst (fst (render g now))) = options g.
Proof.
  rewrite render_state. now destruct (isNaN (beginGraphNowMs g)).
Qed.

Lemma add_options samples now g : options (add samples now g) = options g.
Proof.
  unfold add.
  now destruct (isNaN (beginGraphNowMs g) && (0 <? length samples)%nat).
Qed.

Lemma graphReachable_invariants o g :
  graphReachable o g ->
  options g = o /\ bufferOk (data g)
  /\ allValues (fun v => negb (isNaN v)) (data g).
Proof.
  intros Hg.
  induction Hg as [|g samples now _ (IH1 & IH2 & IH3)
                    |g now _ (IH1 & IH2 & IH3)].
  - split; [reflexivity|]. split.
    + split; [constructor|]. split; [intros []|intros k s []].
    + intros k s v [].
  - split; [now rewrite add_options|].
    split; [now apply add_bufferOk|now apply add_values_not_NaN].
  - split; [now rewrite render_options|].
    split; [now apply render_bufferOk|now apply render_values_not_NaN].
Qed.

(** X11.  Buffer invariant.  Whatever [add] and [render] calls a fresh
    graph goes through: the options stay, the names of the series are
    distinct and none is "time", the two arrays of every series have the
    same length, and no buffered value is NaN. *)
Theorem buffer_invariant o g :
  graphReachable o g ->
  options g = o
  /\ NoDup (map fst (data g))
  /\ ~ In "time"%string (map fst (data g))
  /\ (forall k s, In (k, s) (data g) -> length (ts s) = length (vs s))
  /\ (forall k s v, In (k, s) (data g) -> In v (vs s) -> isNaN v = false).
Proof.
  intros Hg.
  destruct (graphReachable_invariants o g Hg) as (H1 & (H2 & H3 & H4) & H5).
  repeat (split; [assumption|]).
  intros k s v Hin Hv. apply negb_true_iff. now apply (H5 k s v).
Qed.

Lemma buffer_invariant_witness :
  let g := fst (fst (render
                       (add [[mkPair "time" (num 0); mkPair "a" (num 1)];
                             [mkPair "b" (num 2); mkPair "a" NaN]]
                            (num 1000) (reset DEFAULT_OPTIONS))
                       (num 7000))) in
  NoDup (map fst (data g)) /\ options g = DEFAULT_OPTIONS.
Proof.
  intros g.
  destruct (buffer_invariant DEFAULT_OPTIONS g) as (H1 & H2 & _).
  - unfold g. repeat constructor.
  - split; assumption.
Defined.

Lemma update_nth d k (f : Series -> Series) (i : nat) k' s' :
  nth_error (update d k f) i = Some (k', s') ->
  exists s0, nth_error d i = Some (k', s0) /\ (s' = s0 \/ s' = f s0).
Proof.
  revert i. induction d as [|[k0 s0] d IH]; intros i.
  - cbn. now destruct i.
  - cbn [update]. destruct (String.eqb k0 k).
    + destruct i as [|i]; cbn.
      * intros E. injection E as <- <-. eauto.
      * intros E. eauto.
    + destruct i as [|i]; cbn.
      * intros E. injection E as <- <-. eauto.
      * apply IH.
Qed.

Lemma addPair_colours o t d (p : Pair) :
  (forall i k s, nth_error d i = Some (k, s) ->
                 color s = GraphLines.lineColor o i) ->
  forall i k s, nth_error (addPair o t d p) i = Some (k, s) ->
                color s = GraphLines.lineColor o i.
Proof.
  intros Hd. unfold addPair.
  destruct (String.eqb (name p) "time"); [exact Hd|].
  destruct (isNaN (value p)); [exact Hd|].
  destruct (String.eqb (name p) "__proto__"); [exact Hd|].
  set (d' := if negb (hasOwnProperty d (name p))
             then d ++ [(name p, mkSeries [] [] (nextColor o d))] else d).
  assert (Hd' : forall i k s, nth_error d' i = Some (k, s) ->
                              color s = GraphLines.lineColor o i).
  { unfold d'. destruct (negb (hasOwnProperty d (name p))); [|exact Hd].
    intros i k s E.
    destruct (Nat.lt_ge_cases i (length d)) as [Hlt|Hge].
    - rewrite nth_error_app1 in E by assumption. now apply (Hd i k s).
    - rewrite nth_error_app2 in E by assumption.
      destruct (i - length d)%nat as [|j] eqn:Ej.
      + cbn in E. injection E as _ <-. cbn [color].
        replace i with (length d) by lia. reflexivity.
      + cbn in E. now destruct j. }
  intros i k s E. apply update_nth in E.
  destruct E as (s0 & E0 & [->| ->]); now apply (Hd' i k s0).
Qed.

(** The colour stored with a series is the palette colour of its place in
    the order of creation. *)
Lemma creation_colours o g (i : nat) k (s : Series) :
  graphReachable o g ->
  nth_error (data g) i = Some (k, s) ->
  color s = GraphLines.lineColor (options g) i.
Proof.
  intros Hg. revert i k s.
  induction Hg as [|g samples now Hg IH|g now Hg IH]; intros i k s.
  - cbn. now destruct i.
  - rewrite add_options, add_data.
    assert (G : forall d,
               (forall i k s, nth_error d i = Some (k, s) ->
                              color s = GraphLines.lineColor (options g) i) ->
               forall i k s,
                 nth_error (fold_left (addSample (options g)) samples d) i
                 = Some (k, s) ->
                 color s = GraphLines.lineColor (options g) i).
    { clear. induction samples as [|sample samples IHs]; intros d Hd;
        [exact Hd|].
      cbn [fold_left]. apply IHs. unfold addSample.
      generalize (sampleTime sample) as t. intros t. revert d Hd.
      induction sample as [|p sample IHp]; intros d Hd; [exact Hd|].
      cbn [fold_left]. apply IHp. now apply addPair_colours. }
    apply G. exact IH.
  - rewrite render_options, render_state.
    destruct (isNaN (beginGraphNowMs g)); [apply IH|]. cbn [data].
    unfold prune. rewrite nth_error_map.
    destruct (nth_error (data g) i) as [[k0 s0]|] eqn:E; [|discriminate].
    cbn [option_map fst snd]. intros E'. injection E' as <- <-.
    destruct (pruneSeries_fields (options g) (graphNow g now) s0)
      as (_ & _ & ->).
    now apply (IH i k0 s0).
Qed.

(** Without array indices among the names, [Object.keys] lists the names
    in the order of creation. *)
Lemma Object_keys_plain d :
  (forall k, In k (map fst d) -> arrayIndex k = None) ->
  Object_keys d = map fst d.
Proof.
  intros H. unfold Object_keys.
  assert (E1 : indexKeys d = []).
  { induction d as [|[k s] d IH]; [reflexivity|]. cbn [indexKeys fold_right fst].
    fold (indexKeys d). rewrite (H k) by now left.
    apply IH. intros k' Hk'. apply H. now right. }
  rewrite E1. cbn [map app]. unfold stringKeys.
  apply forallb_filter_id, forallb_forall. intros k Hk. now rewrite (H k Hk).
Qed.

Lemma lookup_NoDup d k s :
  NoDup (map fst d) -> In (k, s) d -> lookup d k = Some s.
Proof.
  induction d as [|[k0 s0] d IH]; [intros _ []|]. cbn [map fst lookup].
  intros Hnd [E|Hin].
  - injection E as -> ->. now rewrite String.eqb_refl.
  - apply NoDup_cons_iff in Hnd. destruct Hnd as [Hk0 Hnd].
    destruct (String.eqb k0 k) eqn:E; [|now apply IH].
    apply String.eqb_eq in E. subst k0. exfalso. apply Hk0.
    apply in_map_iff. now exists (k, s).
Qed.

(** With an array index among the names the two colours can differ: the
    series "1", created second, keeps the second colour of the palette,
    and its line, the first of [Object.keys], is drawn in the first. *)
Lemma index_name_colours_differ :
  let g := add [[mkPair "time" (num 0); mkPair "b" (num 1);
                 mkPair "1" (num 2)]]
               (num 1000) (reset DEFAULT_OPTIONS) in
  Object_keys (data g) = ["1"; "b"]%string
  /\ option_map color (lookup (data g) "1") = Some (Some "#dd2c00"%string)
  /\ GraphLines.lineColor (options g) 0 = Some "#2979ff"%string.
Proof. cbn zeta. split; [|split]; vm_compute; reflexivity. Qed.

(** X12.  Legend and line colours agree.  In every graph made of a fresh
    one by [add] and [render] calls in which no series name is an array
    index, the colour stored with the [i]-th name of
    [Object.keys(this.data)] (the colour [renderKey] shows) is
    [colors[i % colors.length]], the colour [renderGraphLines] draws the
    line of that name with. *)
Theorem legend_colour_is_line_colour o g (i : nat) k (s : Series) :
  graphReachable o g ->
  (forall k', In k' (map fst (data g)) -> arrayIndex k' = None) ->
  nth_error (Object_keys (data g)) i = Some k ->
  lookup (data g) k = Some s ->
  color s = GraphLines.lineColor (options g) i.
Proof.
  intros Hg Hplain Hi Hk.
  rewrite (Object_keys_plain _ Hplain), nth_error_map in Hi.
  destruct (nth_error (data g) i) as [[k0 s0]|] eqn:E; [|discriminate].
  cbn [option_map fst] in Hi. injection Hi as ->.
  destruct (graphReachable_invariants o g Hg) as (_ & (Hnd & _ & _) & _).
  rewrite (lookup_NoDup _ k s0 Hnd (nth_error_In _ _ E)) in Hk.
  injection Hk as <-. now apply (creation_colours o g i k s0).
Qed.

Lemma legend_colour_is_line_colour_witness :
  let g := add [[mkPair "time" (num 0); mkPair "a" (num 1);
                 mkPair "b" (num 2)]]
               (num 1000) (reset DEFAULT_OPTIONS) in
  GraphLines.lineColor DEFAULT_OPTIONS 1 = Some "#dd2c00"%string
  /\ exists s, lookup (data g) "b" = Some s
               /\ color s = Some "#dd2c00"%string.
Proof.
  intros g. split; [reflexivity|].
  eexists. split; [reflexivity|].
  rewrite (legend_colour_is_line_colour DEFAULT_OPTIONS g 1 "b" _);
    [reflexivity|unfold g; repeat constructor| |reflexivity|reflexivity].
  intros k' [<-|[<-|[]]]; reflexivity.
Defined.

(** X13.  What [render] leaves alone.  A [render] call keeps the options,
    the clock anchor and the names of the series in their order (a series
    that runs empty stays in the legend), and of every series it keeps the
    colour and drops the same number of leading entries of both arrays,
    each of them expired; what is then at the front has not expired. *)
Theorem render_frame g now :
  let g' := fst (fst (render g now)) in
  options g' = options g
  /\ anchor g' = anchor g
  /\ map fst (data g') = map fst (data g)
  /\ forall k s,
       lookup (data g) k = Some s ->
       exists n s',
         lookup (data g') k = Some s'
         /\ color s' = color s
         /\ ts s' = skipn n (ts s) /\ vs s' = skipn n (vs s)
         /\ Forall (fun t => expired (options g) (graphNow g now) t = true)
                   (firstn n (ts s))
         /\ (isNaN (beginGraphNowMs g) = false ->
             match ts s' with
             | [] => True
             | t :: _ => expired (options g) (graphNow g now) t = false
             end).
Proof.
  cbn zeta. rewrite render_state.
  destruct (isNaN (beginGraphNowMs g)) eqn:Ea.
  - repeat split; auto. intros k s Hl. exists 0%nat, s.
    cbn [skipn firstn]. repeat split; auto. discriminate.
  - cbn [options data]. split; [reflexivity|]. split; [reflexivity|].
    split; [apply prune_keys|].
    intros k s Hl. rewrite lookup_prune, Hl. cbn [option_map].
    destruct (pruneSeries_fields (options g) (graphNow g now) s)
      as (Et & Ev & Ec).
    destruct (pruneLoop_prefix (options g) (graphNow g now) (ts s) (vs s))
      as (n & E1 & E2 & _ & Hexp & Hfront).
    exists n, (pruneSeries (options g) (graphNow g now) s).
    rewrite Et, Ev, Ec, E1, E2. repeat split; auto.
Qed.

End BufferInvariants.

(* ================================================================== *)
(** * How add and render compose *)
(* ================================================================== *)

Section AddRender.
Import JsNumber Graph.

Implicit Types (o : Options) (d : Data) (k : string) (g : GraphState).
Implicit Types (t : number) (s : Series).

Lemma lookup_In d k s : lookup d k = Some s -> In (k, s) d.
Proof.
  induction d as [|[k0 s0] d IH]; [discriminate|]. cbn [lookup].
  destruct (String.eqb k0 k) eqn:E.
  - apply String.eqb_eq in E. intros H. injection H as <-. subst. now left.
  - intros H. right. now apply IH.
Qed.

Lemma allEmpty_false d k s :
  In (k, s) d -> ts s <> [] -> allEmpty d = false.
Proof.
  induction d as [|[k0 s0] d IH]; [intros []|]. cbn [allEmpty].
  intros [E|Hin] Hne.
  - injection E as _ <-. destruct (ts s0); [congruence|reflexivity].
  - destruct (length (ts s0) =? 0)%nat; [now apply IH|reflexivity].
Qed.

(** A live entry anywhere in the series stops the loop before the series
    runs empty. *)
Lemma pruneLoop_live o now t (l vs : list number) :
  In t l -> expired o now t = false -> fst (pruneLoop o now l vs) <> [].
Proof.
  intros Hin Hlive.
  destruct (pruneLoop_prefix o now l vs) as (n & -> & _ & _ & Hexp & _).
  rewrite <- (firstn_skipn n l) in Hin. apply in_app_or in Hin.
  destruct Hin as [Hin|Hin].
  - rewrite Forall_forall in Hexp. rewrite (Hexp t Hin) in Hlive.
    discriminate.
  - intros E. rewrite E in Hin. destruct Hin.
Qed.

Lemma batchTs_app (l1 l2 : list Sample) k :
  batchTs (l1 ++ l2) k = batchTs l1 k ++ batchTs l2 k.
Proof. unfold batchTs. apply flat_map_app. Qed.

Lemma batchTs_last (samples : list Sample) k :
  samples <> [] ->
  batchTs samples k
  = batchTs (removelast samples) k
    ++ repeat (sampleTime (last samples []))
              (length (storedValues (last samples []) k)).
Proof.
  intros Hne. rewrite (app_removelast_last [] Hne) at 1.
  rewrite batchTs_app. cbn [batchTs flat_map]. now rewrite app_nil_r.
Qed.

(** X14.  The first batch passes the guards at once.  Let a graph that
    is not anchored receive a batch that is not empty, whose last sample
    carries a finite time and stores a value under some name other than
    "__proto__", and let the window be a finite number of at least
    -250 ms.  Then a [render] at the clock reading of that [add] does not
    return false: it keeps that sample and goes on to draw the key and
    the graph. *)
Theorem first_batch_renders g (samples : list Sample) k (T wms n : Q) :
  isNaN (beginGraphNowMs g) = true ->
  samples <> [] ->
  lastSampleTime samples = Fin T ->
  storedValues (last samples []) k <> [] ->
  k <> "__proto__"%string ->
  windowMs (options g) = Fin wms ->
  (-250 <= wms)%Q ->
  let g1 := add samples (Fin n) g in
  snd (fst (render g1 (Fin n))) = Draw (graphNow g1 (Fin n))
  /\ In (Fin T) (seriesTs (data (fst (fst (render g1 (Fin n))))) k)
  /\ forall fuel, renderCall fuel g1 (Fin n)
                  <> Some (fst (fst (render g1 (Fin n))), false,
                           [ClearCanvas]).
Proof.
  intros Han Hne HT Hst Hk Hw Hwms g1.
  assert (Ha : anchor g1 = (minus (Fin T) (num 250), Fin n)).
  { unfold g1. rewrite add_anchor, Han, HT.
    destruct samples; [congruence|reflexivity]. }
  unfold anchor in Ha. injection Ha as Hb Hr.
  assert (Ho : options g1 = options g) by apply add_options.
  assert (Hin : In (Fin T) (seriesTs (data g1) k)).
  { destruct (add_appends samples (Fin n) g k Hk) as [E _]. fold g1 in E.
    rewrite E. apply in_or_app. right.
    rewrite (batchTs_last samples k Hne).
    apply in_or_app. right.
    unfold lastSampleTime in HT. rewrite HT.
    destruct (storedValues (last samples []) k); [congruence|now left]. }
  assert (Hnan : isNaN (beginGraphNowMs g1) = false).
  { rewrite Hb. apply isNaN_round64. }
  assert (Hlive : expired (options g1) (graphNow g1 (Fin n)) (Fin T)
                  = false).
  { apply le_not_expired. unfold graphNow. rewrite Hb, Hr, Ho, Hw.
    assert (E0 : minus (Fin n) (Fin n) = Fin 0).
    { cbn [minus]. unfold round64.
      assert (E : (n - n ?= 0)%Q = Eq) by (apply Qeq_alt; ring).
      now rewrite E. }
    rewrite E0. unfold num.
    apply le_trans_number with (plus (plus (Fin T) (Fin wms)) (Fin 0)).
    - apply plus_le_mono_r. cbn [plus]. apply round64_mono.
      unfold inject_Z. lra.
    - cbn [plus].
      destruct (round64_cases (T + wms)) as [-> |[-> |[r ->]]];
        try reflexivity.
      cbn [plus]. apply round64_mono. unfold inject_Z. lra. }
  unfold seriesTs in Hin.
  destruct (lookup (data g1) k) as [s|] eqn:El; [|destruct Hin].
  assert (E : allEmpty (prune (options g1) (graphNow g1 (Fin n)) (data g1))
              = false).
  { apply (allEmpty_false _ k
             (pruneSeries (options g1) (graphNow g1 (Fin n)) s)).
    - apply lookup_In. rewrite lookup_prune, El. reflexivity.
    - destruct (pruneSeries_fields (options g1) (graphNow g1 (Fin n)) s)
        as (-> & _ & _).
      now apply (pruneLoop_live _ _ (Fin T)). }
  assert (Er : snd (fst (render g1 (Fin n))) = Draw (graphNow g1 (Fin n))).
  { unfold render. rewrite Hnan. cbn [data]. now rewrite E. }
  split; [exact Er|]. split.
  - rewrite render_state, Hnan. cbn [data]. unfold seriesTs.
    rewrite lookup_prune, El. cbn [option_map].
    destruct (pruneSeries_fields (options g1) (graphNow g1 (Fin n)) s)
      as (-> & _ & _).
    destruct (pruneLoop_prefix (options g1) (graphNow g1 (Fin n))
                               (ts s) (vs s))
      as (m & -> & _ & _ & Hexp & _).
    rewrite <- (firstn_skipn m (ts s)) in Hin. apply in_app_or in Hin.
    destruct Hin as [Hin|Hin]; [|exact Hin].
    rewrite Forall_forall in Hexp. rewrite (Hexp _ Hin) in Hlive.
    discriminate.
  - intros fuel. unfold renderCall.
    destruct (render g1 (Fin n)) as [[g' next] ops]. cbn [fst snd] in Er.
    subst next. destruct (renderGraph fuel g' (graphNow g1 (Fin n)));
      intros N; discriminate.
Qed.

Lemma first_batch_renders_witness :
  let g1 := add [[mkPair "time" (num 0); mkPair "a" (num 1)];
                 [mkPair "time" (num 300); mkPair "a" (num 2)]]
                (num 1000) (reset DEFAULT_OPTIONS) in
  snd (fst (render g1 (num 1000))) = Draw (num 50).
Proof.
  intros g1.
  destruct (first_batch_renders (reset DEFAULT_OPTIONS)
              [[mkPair "time" (num 0); mkPair "a" (num 1)];
               [mkPair "time" (num 300); mkPair "a" (num 2)]]
              "a" (inject_Z 300) (inject_Z 5000) (inject_Z 1000))
    as (H & _).
  - reflexivity.
  - discriminate.
  - reflexivity.
  - discriminate.
  - discriminate.
  - reflexivity.
  - discriminate.
  - exact (eq_trans H eq_refl).
Defined.

(** ** Rendering again later *)

Lemma nondecreasing_skipn (n : nat) (l : list number) :
  nondecreasing l = true -> nondecreasing (skipn n l) = true.
Proof.
  revert l. induction n as [|n IH]; intros l Hl; [exact Hl|].
  destruct l as [|t l]; [reflexivity|]. cbn [skipn]. apply IH.
  now apply nondecreasing_tail in Hl.
Qed.

Lemma render_seriesTs g now k :
  exists n,
    seriesTs (data (fst (fst (render g now)))) k
    = skipn n (seriesTs (data g) k).
Proof.
  rewrite render_state. destruct (isNaN (beginGraphNowMs g)).
  - now exists 0%nat.
  - cbn [data]. unfold seriesTs. rewrite lookup_prune.
    destruct (lookup (data g) k) as [s|]; cbn [option_map].
    + destruct (pruneSeries_fields (options g) (graphNow g now) s)
        as (-> & _ & _).
      destruct (pruneLoop_prefix (options g) (graphNow g now) (ts s) (vs s))
        as (n & -> & _). now exists n.
    + now exists 0%nat.
Qed.

(** What is left to plot after a [render], on a series whose timestamps
    never go down. *)
Lemma render_plotted g now k :
  nondecreasing (seriesTs (data g) k) = true ->
  plottedPoints (fst (fst (render g now))) k
  = filter (fun p => negb (expired (options g) (graphNow g now) (fst p)))
           (plottedPoints g k).
Proof.
  intros Hsorted. unfold plottedPoints. rewrite render_state.
  destruct (isNaN (beginGraphNowMs g)) eqn:Hanch.
  - rewrite (graphNow_unanchored g now Hanch).
    symmetry. apply forallb_filter_id, forallb_forall.
    intros p _. now rewrite expired_at_NaN.
  - cbn [data]. rewrite lookup_prune. unfold seriesTs in Hsorted.
    destruct (lookup (data g) k) as [s|]; [|reflexivity].
    cbn [option_map].
    destruct (pruneSeries_fields (options g) (graphNow g now) s)
      as (-> & -> & _).
    now apply pruneLoop_filter.
Qed.

Lemma filter_filter_implied {A} (f f' : A -> bool) (l : list A) :
  (forall a, f a = true -> f' a = true) ->
  filter f (filter f' l) = filter f l.
Proof.
  intros H. induction l as [|a l IH]; [reflexivity|]. cbn [filter].
  destruct (f' a) eqn:E'; cbn [filter].
  - now rewrite IH.
  - destruct (f a) eqn:E; [|exact IH].
    rewrite (H a E) in E'. discriminate.
Qed.

(** What has expired stays expired at a later render time. *)
Lemma expired_later o (now1 now2 : number) t :
  le now1 now2 = true -> expired o now1 t = true -> expired o now2 t = true.
Proof.
  unfold expired.
  destruct (plus (plus t (windowMs o)) (num 250)) as [| | |a],
           now1 as [| | |n1], now2 as [| | |n2];
    cbv [le lt]; intros H1 H2; try discriminate; try reflexivity.
  apply Qle_bool_iff in H1. apply Qlt_bool_iff in H2. apply Qlt_bool_iff.
  lra.
Qed.

(** X15.  Rendering again later.  On an anchored graph with finite clock
    fields and a series whose timestamps never go down, a [render] at a
    clock reading followed by a [render] at a later one leaves the same
    samples to plot as the later [render] alone. *)
Theorem render_twice g k (b r n1 n2 : Q) :
  beginGraphNowMs g = Fin b ->
  beginRenderTimeMs g = Fin r ->
  nondecreasing (seriesTs (data g) k) = true ->
  (n1 <= n2)%Q ->
  plottedPoints
    (fst (fst (render (fst (fst (render g (Fin n1)))) (Fin n2)))) k
  = plottedPoints (fst (fst (render g (Fin n2)))) k.
Proof.
  intros Hb Hr Hsorted Hn.
  set (g1 := fst (fst (render g (Fin n1)))).
  assert (Ho : options g1 = options g) by apply render_options.
  assert (Hg : graphNow g1 (Fin n2) = graphNow g (Fin n2)).
  { unfold g1, graphNow. rewrite render_state, Hb. reflexivity. }
  assert (Hs1 : nondecreasing (seriesTs (data g1) k) = true).
  { destruct (render_seriesTs g (Fin n1) k) as (n & E). fold g1 in E.
    rewrite E. now apply nondecreasing_skipn. }
  rewrite (render_plotted g1 (Fin n2) k Hs1), Ho, Hg.
  unfold g1. rewrite (render_plotted g (Fin n1) k Hsorted).
  rewrite (render_plotted g (Fin n2) k Hsorted).
  apply filter_filter_implied. intros p Hp.
  destruct (expired (options g) (graphNow g (Fin n1)) (fst p)) eqn:E;
    [|reflexivity].
  rewrite (expired_later (options g) (graphNow g (Fin n1))
                         (graphNow g (Fin n2)) (fst p)) in Hp;
    [discriminate| |exact E].
  unfold graphNow. rewrite Hb, Hr. apply plus_le_mono_l.
  cbn [minus]. apply round64_mono. lra.
Qed.

Lemma render_twice_witness :
  let g := mkGraph DEFAULT_OPTIONS
                   [("a"%string,
                     mkSeries [num 0; num 300; num 6000]
                              [num 1; num 2; num 3] None)]
                   (num 5000) (num 0) in
  plottedPoints (fst (fst (render (fst (fst (render g (num 400))))
                                  (num 900)))) "a"
  = [(num 6000, Some (num 3))].
Proof.
  intros g.
  assert (Hn : (inject_Z 400 <= inject_Z 900)%Q) by discriminate.
  exact (eq_trans
           (render_twice g "a" (inject_Z 5000) (inject_Z 0) (inject_Z 400)
                         (inject_Z 900) eq_refl eq_refl eq_refl Hn)
           eq_refl).
Defined.

(** ** Timestamps in order *)

Local Abbreviation leT := (fun a b : number => le a b = true).

Lemma nondecreasing_pairs (l : list number) :
  nondecreasing l = true <-> ForallOrdPairs leT l.
Proof.
  split.
  - induction l as [|a l IH]; intros H; [constructor|].
    assert (Hl : nondecreasing l = true) by (now apply nondecreasing_tail in H).
    constructor; [|now apply IH].
    specialize (IH Hl). clear Hl.
    destruct l as [|b l]; [constructor|].
    cbn [nondecreasing] in H. apply andb_true_iff in H.
    destruct H as [Hab _]. inversion IH as [|? ? Hb _]; subst.
    constructor; [exact Hab|].
    rewrite Forall_forall in *. intros c Hc.
    now apply (le_trans_number a b c Hab), Hb.
  - induction l as [|a l IH]; intros H; [reflexivity|].
    inversion H as [|? ? Ha Hl]; subst. specialize (IH Hl).
    destruct l as [|b l]; [reflexivity|]. cbn [nondecreasing].
    apply andb_true_iff. split; [|exact IH].
    now apply Forall_inv in Ha.
Qed.

Lemma pairs_app (l1 l2 : list number) :
  ForallOrdPairs leT (l1 ++ l2)
  <-> ForallOrdPairs leT l1 /\ ForallOrdPairs leT l2
      /\ (forall a b, In a l1 -> In b l2 -> le a b = true).
Proof.
  induction l1 as [|a l1 IH]; cbn [app].
  - split; [intros H; repeat split; [constructor|assumption|intros ? ? []]|].
    now intros (_ & H & _).
  - split.
    + intros H. inversion H as [|? ? Ha Hl]; subst.
      apply IH in Hl. destruct Hl as (H1 & H2 & H3).
      apply Forall_app in Ha. destruct Ha as [Ha1 Ha2].
      split; [now constructor|]. split; [assumption|].
      intros x y [<-|Hx] Hy.
      * rewrite Forall_forall in Ha2. now apply Ha2.
      * now apply H3.
    + intros (H1 & H2 & H3). inversion H1 as [|? ? Ha Hl]; subst.
      constructor.
      * apply Forall_app. split; [assumption|].
        apply Forall_forall. intros y Hy. apply H3; [now left|assumption].
      * apply IH. split; [assumption|]. split; [assumption|].
        intros x y Hx Hy. apply H3; [now right|assumption].
Qed.

Lemma batchTs_In (samples : list Sample) k t :
  In t (batchTs samples k) -> In t (map sampleTime samples).
Proof.
  unfold batchTs. intros H. apply in_flat_map in H.
  destruct H as (sample & Hs & Ht). apply repeat_spec in Ht. subst t.
  now apply in_map.
Qed.

Lemma pairs_repeat t (n : nat) :
  le t t = true -> ForallOrdPairs leT (repeat t n).
Proof.
  intros Ht. induction n as [|n IH]; [constructor|]. cbn [repeat].
  constructor; [|exact IH]. apply Forall_forall. intros u Hu.
  apply repeat_spec in Hu. now subst u.
Qed.

Lemma pairs_batchTs (samples : list Sample) k :
  (forall sample, In sample samples -> isNaN (sampleTime sample) = false) ->
  ForallOrdPairs leT (map sampleTime samples) ->
  ForallOrdPairs leT (batchTs samples k).
Proof.
  induction samples as [|sample samples IH]; intros Hn H; [constructor|].
  cbn [map] in H. inversion H as [|? ? Ha Hl]; subst.
  cbn [batchTs flat_map]. apply pairs_app. split; [|split].
  - apply pairs_repeat.
    assert (Ht : isNaN (sampleTime sample) = false) by (apply Hn; now left).
    destruct (sampleTime sample); try discriminate; try reflexivity.
    cbn. apply Qle_bool_iff, Qle_refl.
  - apply IH; [|assumption]. intros s' Hs'. apply Hn. now right.
  - intros a b Ha' Hb. apply repeat_spec in Ha'. subst a.
    apply batchTs_In in Hb. rewrite Forall_forall in Ha. now apply Ha.
Qed.

(** X16.  [add] keeps the timestamps in order.  If no sample of the batch
    has the time NaN and the timestamps buffered for a series, followed
    by the times of the samples of the batch, never go down, then the
    timestamps of the series never go down after [add]. *)
Theorem add_keeps_order (samples : list Sample) now g k :
  (forall sample, In sample samples -> isNaN (sampleTime sample) = false) ->
  nondecreasing (seriesTs (data g) k ++ map sampleTime samples) = true ->
  nondecreasing (seriesTs (data (add samples now g)) k) = true.
Proof.
  intros Hn H. apply nondecreasing_pairs in H.
  apply pairs_app in H. destruct H as (H1 & H2 & H3).
  apply nondecreasing_pairs.
  destruct (string_dec k "__proto__") as [->|Hk].
  { unfold seriesTs in *. now rewrite add_proto. }
  destruct (add_appends samples now g k Hk) as [-> _].
  apply pairs_app. split; [assumption|].
  split; [now apply pairs_batchTs|].
  intros a b Ha Hb. apply H3; [assumption|]. now apply batchTs_In in Hb.
Qed.

Lemma add_keeps_order_witness :
  let g := add [[mkPair "time" (num 0); mkPair "a" (num 1)]] (num 1000)
               (reset DEFAULT_OPTIONS) in
  nondecreasing
    (seriesTs
       (data (add [[mkPair "time" (num 300); mkPair "a" (num 2);
                    mkPair "a" (num 3)];
                   [mkPair "time" (num 300); mkPair "b" (num 4)]]
                  (num 1300) g)) "a") = true.
Proof.
  intros g. apply add_keeps_order.
  - intros sample [<-|[<-|[]]]; reflexivity.
  - reflexivity.
Defined.

End AddRender.

(* ================================================================== *)
(** * Order and finiteness of the plot coordinates *)
(* ================================================================== *)

Section Coordinates.
Import JsNumber Graph GraphLines.
Local Open Scope Q_scope.

Implicit Types (o : Options) (axis : Axis).

Lemma round64_abs_between (k : Z) (x : Q) :
  (-1074 <= k <= 1023)%Z -> - 2 ^ k <= x -> x <= 2 ^ k ->
  exists r, round64 x = Fin r /\ - 2 ^ k <= r /\ r <= 2 ^ k.
Proof.
  intros Hk H1 H2. pose proof (pow2_pos k) as Hp.
  destruct (Qlt_le_dec x 0) as [Hneg|Hpos].
  - destruct (round64_nonneg_between k (- x)) as (r & E & Hr1 & Hr2);
      [assumption|lra|lra|].
    unfold round64 in E |- *.
    assert (E1 : (- x ?= 0) = Gt) by (apply Qgt_alt; lra).
    assert (E2 : (x ?= 0) = Lt) by (now apply Qlt_alt).
    rewrite E1 in E. rewrite E2, E. cbn [neg].
    exists (- r). split; [reflexivity|lra].
  - destruct (round64_nonneg_between k x) as (r & E & Hr1 & Hr2);
      [assumption|assumption|assumption|].
    exists r. split; [assumption|lra].
Qed.

Lemma Qmult_abs_le (f e F E : Q) :
  - F <= f -> f <= F -> - E <= e -> e <= E ->
  - (F * E) <= f * e /\ f * e <= F * E.
Proof. intros. split; nra. Qed.

Lemma Qdiv_abs_pow2 (p q : Q) (a b : Z) :
  - 2 ^ a <= p -> p <= 2 ^ a -> 2 ^ b <= q ->
  - 2 ^ (a - b) <= p / q /\ p / q <= 2 ^ (a - b).
Proof.
  intros H1 H2 Hq. pose proof (pow2_pos b) as Hb.
  pose proof (pow2_pos (a - b)) as Hab.
  destruct (Qlt_le_dec p 0) as [Hneg|Hpos].
  - assert (E : p / q == - (- p / q)) by (field; lra).
    assert (H : - p / q <= 2 ^ (a - b)) by (apply Qdiv_le_pow2; lra).
    assert (H0 : 0 <= - p / q) by (apply Qle_shift_div_l; lra).
    rewrite E. lra.
  - assert (H : p / q <= 2 ^ (a - b)) by (apply Qdiv_le_pow2; lra).
    assert (H0 : 0 <= p / q) by (apply Qle_shift_div_l; lra).
    lra.
Qed.

Lemma plus_Fin_inv c (y : number) x :
  plus (Fin c) y = Fin x -> exists p, y = Fin p.
Proof. destruct y as [| | |p]; cbn [plus]; try discriminate. eauto. Qed.

Lemma times_Fin_inv (a b : number) x :
  times a b = Fin x -> exists f e, a = Fin f /\ b = Fin e.
Proof.
  destruct a as [| | |f], b as [| | |e]; cbn [times]; try discriminate;
    try (destruct (mulSign _ _); discriminate).
  eauto.
Qed.

Lemma round64_0 : round64 0 = Fin 0.
Proof. reflexivity. Qed.

(** The slope of [scale] has the sign of the two differences. *)
Lemma slope_nonneg (p q : Q) f :
  0 <= p -> 0 <= q ->
  divide (round64 p) (round64 q) = Fin f -> 0 <= f.
Proof.
  intros Hp Hq.
  pose proof (round64_mono 0 p Hp) as HA.
  pose proof (round64_mono 0 q Hq) as HB.
  rewrite round64_0 in HA, HB.
  destruct (round64 p) as [| | |a], (round64 q) as [| | |b];
    cbn [le] in HA, HB; try discriminate; cbn [divide sign mulSign].
  - destruct (Qlt_bool b 0); discriminate.
  - intros E. injection E as <-. apply Qle_refl.
  - apply Qle_bool_iff in HA, HB.
    destruct (Qeq_bool b 0) eqn:Eb.
    + destruct (a ?= 0); discriminate.
    + intros E.
      assert (Hb : ~ b == 0).
      { intros H. apply Qeq_bool_iff in H. congruence. }
      assert (H : 0 <= a / b) by (apply Qle_shift_div_l; lra).
      pose proof (round64_mono 0 (a / b) H) as Hm.
      rewrite round64_0, E in Hm. now apply Qle_bool_iff in Hm.
Qed.

Lemma slope_nonpos (p q : Q) f :
  p <= 0 -> 0 <= q ->
  divide (round64 p) (round64 q) = Fin f -> f <= 0.
Proof.
  intros Hp Hq.
  pose proof (round64_mono p 0 Hp) as HA.
  pose proof (round64_mono 0 q Hq) as HB.
  rewrite round64_0 in HA, HB.
  destruct (round64 p) as [| | |a], (round64 q) as [| | |b];
    cbn [le] in HA, HB; try discriminate; cbn [divide sign mulSign].
  - destruct (Qlt_bool b 0); discriminate.
  - intros E. injection E as <-. apply Qle_refl.
  - apply Qle_bool_iff in HA, HB.
    destruct (Qeq_bool b 0) eqn:Eb.
    + destruct (a ?= 0); discriminate.
    + intros E.
      assert (Hb : ~ b == 0).
      { intros H. apply Qeq_bool_iff in H. congruence. }
      assert (H : a / b <= 0) by (apply Qle_shift_div_r; lra).
      pose proof (round64_mono (a / b) 0 H) as Hm.
      rewrite round64_0, E in Hm. now apply Qle_bool_iff in Hm.
Qed.

(** [scale] keeps or reverses the order of its first argument, as the
    sign of its slope says. *)
Lemma scale_order (V V' : number) (a b c d x x' : Q) :
  a <= b -> le V V' = true ->
  scale V (Fin a) (Fin b) (Fin c) (Fin d) = Fin x ->
  scale V' (Fin a) (Fin b) (Fin c) (Fin d) = Fin x' ->
  (c <= d -> x <= x') /\ (d <= c -> x' <= x).
Proof.
  intros Hab HV. unfold scale. cbn [minus].
  pose proof (minus_le_mono_r V V' a HV) as HD.
  intros E E'.
  destruct (plus_Fin_inv _ _ _ E) as (p & Ep).
  destruct (plus_Fin_inv _ _ _ E') as (p' & Ep').
  rewrite Ep in E. rewrite Ep' in E'.
  destruct (times_Fin_inv _ _ _ Ep) as (f & e & Ef & Ee).
  destruct (times_Fin_inv _ _ _ Ep') as (f' & e' & Ef' & Ee').
  rewrite Ef in Ef'. injection Ef' as <-.
  rewrite Ee, Ee' in HD. cbn [le] in HD. apply Qle_bool_iff in HD.
  rewrite Ef, Ee in Ep. rewrite Ef, Ee' in Ep'. cbn [times] in Ep, Ep'.
  cbn [plus] in E, E'.
  split; intros Hcd.
  - assert (Hf : 0 <= f) by (apply (slope_nonneg (d - c) (b - a)); [lra|lra|exact Ef]).
    assert (H : f * e <= f * e') by nra.
    pose proof (round64_mono _ _ H) as Hm. rewrite Ep, Ep' in Hm.
    apply Qle_bool_iff in Hm.
    assert (H' : c + p <= c + p') by lra.
    pose proof (round64_mono _ _ H') as Hm'. rewrite E, E' in Hm'.
    now apply Qle_bool_iff in Hm'.
  - assert (Hf : f <= 0) by (apply (slope_nonpos (d - c) (b - a)); [lra|lra|exact Ef]).
    assert (H : f * e' <= f * e) by nra.
    pose proof (round64_mono _ _ H) as Hm. rewrite Ep, Ep' in Hm.
    apply Qle_bool_iff in Hm.
    assert (H' : c + p' <= c + p) by lra.
    pose proof (round64_mono _ _ H') as Hm'. rewrite E, E' in Hm'.
    now apply Qle_bool_iff in Hm'.
Qed.

Lemma pow2_double (k : Z) : 2 ^ k + 2 ^ k == 2 ^ (k + 1).
Proof. rewrite pow2_succ. ring. Qed.

(** [scale] of numbers of moderate size, between bounds that are not
    too close, is a finite number. *)
Lemma scale_finite (K : Z) (v a b c d : Q) :
  (0 <= K <= 300)%Z ->
  - 2 ^ K <= v <= 2 ^ K -> - 2 ^ K <= a -> b <= 2 ^ K ->
  - 2 ^ K <= c <= 2 ^ K -> - 2 ^ K <= d <= 2 ^ K ->
  2 ^ (- K) <= b - a ->
  exists x, scale (Fin v) (Fin a) (Fin b) (Fin c) (Fin d) = Fin x.
Proof.
  intros HK [Hv1 Hv2] Ha Hb [Hc1 Hc2] [Hd1 Hd2] Hgap.
  pose proof (pow2_double K) as H2K.
  pose proof (pow2_pos K) as HpK. pose proof (pow2_pos (- K)) as HnK.
  unfold scale. cbn [minus].
  destruct (round64_abs_between (K + 1) (d - c)) as (A & -> & HA1 & HA2);
    [lia|lra|lra|].
  destruct (round64_pos_between (- K) (K + 1) (b - a))
    as (B & -> & HB1 & HB2); [lia|lia|lra|lra|].
  rewrite divide_Fin by lra.
  destruct (Qdiv_abs_pow2 A B (K + 1) (- K) HA1 HA2 HB1) as [Hq1 Hq2].
  replace (K + 1 - - K)%Z with (2 * K + 1)%Z in Hq1, Hq2 by lia.
  destruct (round64_abs_between (2 * K + 1) (A / B))
    as (f & -> & Hf1 & Hf2); [lia|assumption|assumption|].
  destruct (round64_abs_between (K + 1) (v - a)) as (e & -> & He1 & He2);
    [lia|lra|lra|].
  cbn [times].
  destruct (Qmult_abs_le f e _ _ Hf1 Hf2 He1 He2) as [Hm1 Hm2].
  rewrite <- pow2_add in Hm1, Hm2.
  replace (2 * K + 1 + (K + 1))%Z with (3 * K + 2)%Z in Hm1, Hm2 by lia.
  destruct (round64_abs_between (3 * K + 2) (f * e))
    as (p & -> & Hp1 & Hp2); [lia|assumption|assumption|].
  cbn [plus].
  assert (HKK : 2 ^ K <= 2 ^ (3 * K + 2)) by (apply pow2_le; lia).
  pose proof (pow2_double (3 * K + 2)) as H3.
  replace (3 * K + 2 + 1)%Z with (3 * K + 3)%Z in H3 by lia.
  destruct (round64_abs_between (3 * K + 3) (c + p))
    as (x & -> & _ & _); [lia|lra|lra|].
  now exists x.
Qed.

(** X20.  The time axis of [renderGraphLines].  With a positive finite
    window and a width that is not negative, the x coordinates keep the
    order of the timestamps: a later sample is never drawn further left,
    whatever the rounding of the five operations in between.  The
    coordinate is a finite number as soon as the clock, the timestamp,
    the window and the width are of moderate size.  It is a rounded
    number: with the default window and a width of 333 the timestamp
    [graphNowMs] is drawn at 333 + 2^-44 (333.00000000000006), to the
    right of the width. *)
Theorem time_axis_order o (wms w now : Q) :
  windowMs o = Fin wms -> 0 < wms -> 0 <= w ->
  (forall t t' px px',
      t <= t' ->
      plotX o (Fin w) (Fin now) (Fin t) = Fin px ->
      plotX o (Fin w) (Fin now) (Fin t') = Fin px' ->
      px <= px')
  /\ (2 ^ (-60) <= wms -> wms <= 2 ^ 60 -> w <= 2 ^ 60 ->
      - 2 ^ 60 <= now <= 2 ^ 60 ->
      forall t, - 2 ^ 60 <= t <= 2 ^ 60 ->
                exists px, plotX o (Fin w) (Fin now) (Fin t) = Fin px)
  /\ plotX DEFAULT_OPTIONS (num 333) (num 6000) (num 6000)
     = Fin (5858197952790529 # 17592186044416).
Proof.
  intros Ho Hwms Hw. unfold plotX. rewrite Ho. unfold num.
  change (inject_Z 0) with 0.
  split; [|split].
  - intros t t' px px' Ht E E'.
    assert (HV : le (plus (minus (Fin t) (Fin now)) (Fin wms))
                    (plus (minus (Fin t') (Fin now)) (Fin wms)) = true).
    { apply plus_le_mono_r, minus_le_mono_r. cbn [le].
      now apply Qle_bool_iff. }
    destruct (scale_order _ _ 0 wms 0 w px px' ltac:(lra) HV E E')
      as [H _].
    apply H. assumption.
  - intros Hw1 Hw2 Hw3 [Hn1 Hn2] t [Ht1 Ht2].
    pose proof (pow2_double 60) as H61. pose proof (pow2_double 61) as H62.
    change (60 + 1)%Z with 61%Z in H61. change (61 + 1)%Z with 62%Z in H62.
    pose proof (pow2_pos 60) as Hp60.
    assert (Hn62 : 2 ^ (-62) <= 2 ^ (-60)) by (apply pow2_le; lia).
    cbn [minus].
    destruct (round64_abs_between 61 (t - now)) as (a1 & -> & Ha1 & Ha2);
      [lia|lra|lra|].
    cbn [plus].
    destruct (round64_abs_between 62 (a1 + wms)) as (v & -> & Hv1 & Hv2);
      [lia|lra|lra|].
    apply (scale_finite 62); [lia|split; assumption|lra|lra|split; lra
                             |split; lra|].
    change (- (62))%Z with (-62)%Z. lra.
  - vm_compute. reflexivity.
Qed.

Lemma time_axis_order_witness :
  exists px px',
    plotX DEFAULT_OPTIONS (num 400) (num 6000) (num 3500) = Fin px
    /\ plotX DEFAULT_OPTIONS (num 400) (num 6000) (num 6000) = Fin px'
    /\ px <= px'.
Proof.
  destruct (time_axis_order DEFAULT_OPTIONS 5000 400 6000)
    as (Hord & Hfin & _); [reflexivity|reflexivity|discriminate|].
  assert (Hb : forall z : Z, (- 2 ^ 60 <= z <= 2 ^ 60)%Z ->
                             - 2 ^ 60 <= inject_Z z <= 2 ^ 60).
  { intros z Hz. change (- 2 ^ 60) with (inject_Z (- 2 ^ 60)).
    change (2 ^ 60) with (inject_Z (2 ^ 60)). rewrite <- !Zle_Qle. exact Hz. }
  destruct (Hfin ltac:(discriminate) ltac:(discriminate) ltac:(discriminate)
                 (Hb 6000%Z ltac:(lia)) 3500 (Hb 3500%Z ltac:(lia)))
    as (px & E).
  destruct (Hfin ltac:(discriminate) ltac:(discriminate) ltac:(discriminate)
                 (Hb 6000%Z ltac:(lia)) 6000 (Hb 6000%Z ltac:(lia)))
    as (px' & E').
  exists px, px'. split; [exact E|]. split; [exact E'|].
  apply (Hord 3500 6000 px px'); [discriminate|exact E|exact E'].
Defined.

(** X21.  The value axis of [renderGraphLines].  With a finite axis whose
    minimum is not above its maximum and a height that is not negative,
    the y coordinates reverse the order of the values: a larger value is
    never drawn further down, whatever the rounding.  The coordinate is
    a finite number as soon as the axis, the value and the height are of
    moderate size and the axis is not too short.  It is a rounded
    number: on the axis from 0.1 to 0.3 with the height 437.5 the value
    0.3 is drawn at 2^-44, not at 0. *)
Theorem value_axis_order axis (lo hi h : Q) :
  min axis = Fin lo -> max axis = Fin hi -> lo <= hi -> 0 <= h ->
  (forall v v' py py',
      v <= v' ->
      plotY axis (Fin h) (Fin v) = Fin py ->
      plotY axis (Fin h) (Fin v') = Fin py' ->
      py' <= py)
  /\ (2 ^ (-60) <= hi - lo -> - 2 ^ 60 <= lo -> hi <= 2 ^ 60 ->
      h <= 2 ^ 60 ->
      forall v, - 2 ^ 60 <= v <= 2 ^ 60 ->
                exists py, plotY axis (Fin h) (Fin v) = Fin py)
  /\ plotY (mkAxis (round64 (1 # 10)) (round64 (3 # 10)) (round64 (1 # 20)))
           (Fin (875 # 2)) (round64 (3 # 10))
     = Fin (1 # 17592186044416).
Proof.
  intros Hmin Hmax Hlh Hh. unfold plotY. rewrite Hmin, Hmax. unfold num.
  change (inject_Z 0) with 0.
  split; [|split].
  - intros v v' py py' Hv E E'.
    assert (HV : le (Fin v) (Fin v') = true)
      by (cbn [le]; now apply Qle_bool_iff).
    destruct (scale_order _ _ lo hi h 0 py py' Hlh HV E E') as [_ H].
    apply H. assumption.
  - intros Hgap Hlo Hhi Hh2 v Hv.
    pose proof (pow2_pos 60) as Hp60.
    apply (scale_finite 60); [lia|assumption|assumption|assumption
                             |split; lra|split; lra|].
    change (- (60))%Z with (-60)%Z. assumption.
  - vm_compute. reflexivity.
Qed.

Lemma value_axis_order_witness :
  let axis := getAxisScaling (num 10) (num 47) (num 7) in
  exists py py',
    plotY axis (num 300) (num 12) = Fin py
    /\ plotY axis (num 300) (num 47) = Fin py'
    /\ py' <= py.
Proof.
  intros axis.
  destruct (value_axis_order axis 10 50 300)
    as (Hord & Hfin & _);
    [vm_compute; reflexivity|vm_compute; reflexivity|discriminate
    |discriminate|].
  assert (Hb : forall z : Z, (- 2 ^ 60 <= z <= 2 ^ 60)%Z ->
                             - 2 ^ 60 <= inject_Z z <= 2 ^ 60).
  { intros z Hz. change (- 2 ^ 60) with (inject_Z (- 2 ^ 60)).
    change (2 ^ 60) with (inject_Z (2 ^ 60)). rewrite <- !Zle_Qle. exact Hz. }
  destruct (Hfin ltac:(discriminate) ltac:(discriminate) ltac:(discriminate)
                 ltac:(discriminate) 12 (Hb 12%Z ltac:(lia)))
    as (py & E).
  destruct (Hfin ltac:(discriminate) ltac:(discriminate) ltac:(discriminate)
                 ltac:(discriminate) 47 (Hb 47%Z ltac:(lia)))
    as (py' & E').
  exists py, py'. split; [exact E|]. split; [exact E'|].
  apply (Hord 12 47 py py'); [discriminate|exact E|exact E'].
Defined.

End Coordinates.

(* ================================================================== *)
(** * The guards of [render] and the loop of [getTicks] *)
(* ================================================================== *)

Section RenderCall.
Import JsNumber Graph.

Implicit Types (o : Options) (d : Data) (k : string) (g : GraphState).

(** The pruning loop empties a series exactly when every timestamp of
    the series has expired. *)
Lemma pruneLoop_empty o now (ts vs : list number) :
  fst (pruneLoop o now ts vs) = []
  <-> forall t, In t ts -> expired o now t = true.
Proof.
  revert vs. induction ts as [|t ts IH]; intros vs.
  - cbn. split; [intros _ t []|reflexivity].
  - cbn [pruneLoop]. destruct (expired o now t) eqn:E.
    + rewrite IH. split.
      * intros H u [<-|Hu]; [exact E|now apply H].
      * intros H u Hu. apply H. now right.
    + cbn [fst]. split; [discriminate|].
      intros H. rewrite (H t (or_introl eq_refl)) in E. discriminate.
Qed.

Lemma allEmpty_iff d :
  allEmpty d = true <-> forall k s, In (k, s) d -> ts s = [].
Proof.
  induction d as [|[k0 s0] d IH]; cbn [allEmpty].
  - split; [intros _ k s []|reflexivity].
  - destruct (ts s0) as [|t l] eqn:E; cbn [length Nat.eqb].
    + rewrite IH. split.
      * intros H k s [Ein|Hin]; [now injection Ein as _ <-|now apply (H k)].
      * intros H k s Hin. apply (H k). now right.
    + split; [discriminate|]. intros H.
      specialize (H k0 s0 (or_introl eq_refl)). congruence.
Qed.

Lemma allEmpty_false_ex d :
  allEmpty d = false -> exists k s, In (k, s) d /\ ts s <> [].
Proof.
  induction d as [|[k0 s0] d IH]; [discriminate|]. cbn [allEmpty].
  destruct (ts s0) as [|t l] eqn:E; cbn [length Nat.eqb].
  - intros H. destruct (IH H) as (k & s & Hin & Hs).
    exists k, s. split; [now right|assumption].
  - intros _. exists k0, s0. split; [now left|congruence].
Qed.

Lemma allEmpty_prune o now d :
  allEmpty (prune o now d) = true
  <-> forall k s t, In (k, s) d -> In t (ts s) -> expired o now t = true.
Proof.
  rewrite allEmpty_iff. split.
  - intros H k s t Hin. 
    assert (Hp : In (k, pruneSeries o now s) (prune o now d)).
    { unfold prune. apply in_map_iff. now exists (k, s). }
    specialize (H k _ Hp).
    destruct (pruneSeries_fields o now s) as (E & _ & _).
    rewrite E in H. revert t.
    exact (proj1 (pruneLoop_empty o now (ts s) (vs s)) H).
  - intros H k s' Hin. apply prune_In in Hin.
    destruct Hin as (s & Hin & ->).
    destruct (pruneSeries_fields o now s) as (-> & _ & _).
    apply (proj2 (pruneLoop_empty o now (ts s) (vs s))).
    intros t Ht. now apply (H k s t).
Qed.

Lemma render_again g now :
  render (fst (fst (render g now))) now = render g now.
Proof.
  unfold render. destruct (isNaN (beginGraphNowMs g)) eqn:Ea.
  - cbn [fst]. now rewrite Ea.
  - cbn [data].
    destruct (allEmpty (prune (options g) (graphNow g now) (data g))) eqn:Ee;
      cbn [fst options data beginGraphNowMs beginRenderTimeMs];
      rewrite Ea; unfold graphNow;
      cbn [options data beginGraphNowMs beginRenderTimeMs];
      fold (graphNow g now); now rewrite prune_idempotent, Ee.
Qed.

(** X22.  The guards of [render].  [render] returns false exactly when
    the graph is not anchored or every timestamp of every series has
    expired at the graph time of the call, that is when every series is
    empty after the pruning; it has then cleared the canvas and drawn
    nothing else.  Otherwise some series still holds a sample, the call
    goes on to draw the key and the graph, and it returns true if and
    only if [getTicks] returns.  A second call at the same clock
    reading, with no new data, leaves the graph as the first call left
    it and goes on in the same way. *)
Theorem render_guards g now :
  let g' := fst (fst (render g now)) in
  let next := snd (fst (render g now)) in
  let ops := snd (render g now) in
  (next = ReturnFalse
   <-> isNaN (beginGraphNowMs g) = true
       \/ forall k s t, In (k, s) (data g) -> In t (ts s) ->
                        expired (options g) (graphNow g now) t = true)
  /\ (next = ReturnFalse ->
      ops = [ClearCanvas]
      /\ forall fuel, renderCall fuel g now = Some (g', false, [ClearCanvas]))
  /\ (next <> ReturnFalse ->
      next = Draw (graphNow g now)
      /\ (exists k s, In (k, s) (data g') /\ ts s <> [])
      /\ forall fuel,
           (getTicks fuel (getYAxisScaling g') = None
            -> renderCall fuel g now = None)
           /\ (forall ticks,
                 getTicks fuel (getYAxisScaling g') = Some ticks ->
                 exists ops', renderCall fuel g now = Some (g', true, ops')))
  /\ render g' now = render g now.
Proof.
  cbn zeta. split; [|split; [|split; [|apply render_again]]].
  - unfold render. destruct (isNaN (beginGraphNowMs g)) eqn:Ea.
    + cbn [fst snd]. split; [now left|reflexivity].
    + cbn [data].
      destruct (allEmpty (prune (options g) (graphNow g now) (data g)))
        eqn:Ee; cbn [fst snd].
      * split; [|reflexivity]. intros _. right. now apply allEmpty_prune.
      * split; [discriminate|]. intros [H|H]; [discriminate|].
        apply allEmpty_prune in H. congruence.
  - unfold renderCall.
    destruct (render g now) as [[g' next] ops] eqn:Er. cbn [fst snd].
    intros ->.
    assert (Eo : ops = [ClearCanvas]).
    { unfold render in Er. destruct (isNaN (beginGraphNowMs g));
        [now injection Er as _ <-|].
      destruct (allEmpty _); [now injection Er as _ <-|discriminate]. }
    subst ops. split; reflexivity.
  - unfold renderCall, renderGraph.
    destruct (render g now) as [[g' next] ops] eqn:Er. cbn [fst snd].
    intros Hnext.
    unfold render in Er. destruct (isNaN (beginGraphNowMs g));
      [injection Er as _ <- _; congruence|].
    cbn [data] in Er.
    destruct (allEmpty (prune (options g) (graphNow g now) (data g)))
      eqn:Ee; [injection Er as _ <- _; congruence|].
    injection Er as <- <- <-. split; [reflexivity|]. split.
    + cbn [data]. now apply allEmpty_false_ex.
    + intros fuel. split.
      * intros ->. reflexivity.
      * intros ticks ->. eexists. reflexivity.
Qed.

Lemma render_guards_witness :
  let g := mkGraph DEFAULT_OPTIONS
                   [("a"%string,
                     mkSeries [num 0; num 300] [num 1; num 2] None)]
                   (num 5750) (num 0) in
  snd (fst (render g (num 100))) = ReturnFalse
  /\ renderCall 10 g (num 100)
     = Some (fst (fst (render g (num 100))), false, [ClearCanvas]).
Proof.
  intros g.
  destruct (render_guards g (num 100)) as (H1 & H2 & _).
  assert (E : snd (fst (render g (num 100))) = ReturnFalse).
  { apply H1. right. intros k s t [Ein|[]] Ht. injection Ein as _ <-.
    destruct Ht as [<-|[<-|[]]]; reflexivity. }
  split; [exact E|]. destruct (H2 E) as [_ H]. apply H.
Defined.

(** ** The loop of [getTicks] *)

Lemma tickLoop_from (axis : Axis) (n : nat) :
  forall (j fuel : nat) (ticks : list number),
    (forall i, (j <= i < j + n)%nat ->
               le (tickAt axis i) (max axis) = true) ->
    le (tickAt axis (j + n)) (max axis) = false ->
    tickLoop fuel axis (tickAt axis j) ticks
    = if (n <? fuel)%nat
      then Some (ticks ++ map (tickAt axis) (seq j n))
      else None.
Proof.
  induction n as [|n IH]; intros j fuel ticks Hle Hgt.
  - rewrite Nat.add_0_r in Hgt. destruct fuel as [|fuel]; [reflexivity|].
    cbn [tickLoop Nat.ltb Nat.leb seq map]. rewrite Hgt.
    now rewrite app_nil_r.
  - destruct fuel as [|fuel]; [reflexivity|].
    cbn [tickLoop]. rewrite (Hle j) by lia.
    change (plus (tickAt axis j) (spacing axis)) with (tickAt axis (S j)).
    rewrite (IH (S j) fuel).
    + change (S n <? S fuel)%nat with (n <? fuel)%nat.
      destruct (n <? fuel)%nat; [|reflexivity].
      unfold JsArray.push. cbn [seq map]. now rewrite <- app_assoc.
    + intros i Hi. apply Hle. lia.
    + now replace (S j + n)%nat with (j + S n)%nat by lia.
Qed.

Lemma tickLoop_forever (axis : Axis) :
  (forall i, le (tickAt axis i) (max axis) = true) ->
  forall (fuel j : nat) (ticks : list number),
    tickLoop fuel axis (tickAt axis j) ticks = None.
Proof.
  intros H fuel. induction fuel as [|fuel IH]; intros j ticks;
    [reflexivity|].
  cbn [tickLoop]. rewrite (H j).
  change (plus (tickAt axis j) (spacing axis)) with (tickAt axis (S j)).
  apply IH.
Qed.

(** X23.  What [getTicks] returns, and when.  The loop variable runs
    through [min], [min + spacing], [(min + spacing) + spacing], ...,
    every sum rounded.  If the [n]-th of these values is the first that is
    not at or below [max] (it is greater, or NaN), the loop ends after
    [n] rounds with the [n] values before it as ticks, whatever bound
    above [n] is put on the number of rounds.  If every one of them is
    at or below [max], as when the sum of some value and the spacing
    rounds back to the value, the loop never ends. *)
Theorem getTicks_spec (axis : Axis) :
  (forall n,
      (forall i, (i < n)%nat -> le (tickAt axis i) (max axis) = true) ->
      le (tickAt axis n) (max axis) = false ->
      forall fuel,
        getTicks fuel axis
        = if (n <? fuel)%nat then Some (map (tickAt axis) (seq 0 n))
          else None)
  /\ ((forall i, le (tickAt axis i) (max axis) = true) ->
      forall fuel, getTicks fuel axis = None)
  /\ (forall j,
        (forall i, (i <= j)%nat -> le (tickAt axis i) (max axis) = true) ->
        tickAt axis (S j) = tickAt axis j ->
        forall fuel, getTicks fuel axis = None).
Proof.
  split; [|split].
  - intros n Hle Hgt fuel. unfold getTicks.
    change (min axis) with (tickAt axis 0).
    rewrite (tickLoop_from axis n 0 fuel []); [reflexivity| |exact Hgt].
    intros i Hi. apply Hle. lia.
  - intros H fuel. unfold getTicks. change (min axis) with (tickAt axis 0).
    now apply tickLoop_forever.
  - intros j Hle Hfix fuel. unfold getTicks.
    change (min axis) with (tickAt axis 0).
    apply tickLoop_forever.
    assert (Hstay : forall i, tickAt axis (j + i) = tickAt axis j).
    { induction i as [|i IH]; [now rewrite Nat.add_0_r|].
      replace (j + S i)%nat with (S (j + i)) by lia.
      change (tickAt axis (S (j + i)))
        with (plus (tickAt axis (j + i)) (spacing axis)).
      rewrite IH. exact Hfix. }
    intros i. destruct (Nat.le_gt_cases i j) as [Hi|Hi]; [now apply Hle|].
    replace i with (j + (i - j))%nat by lia. rewrite Hstay. now apply Hle.
Qed.

Lemma getTicks_spec_witness :
  getTicks 9 (mkAxis (num 10) (num 50) (num 10))
  = Some [num 10; num 20; num 30; num 40; num 50].
Proof.
  destruct (getTicks_spec (mkAxis (num 10) (num 50) (num 10))) as (H & _).
  rewrite (H 5%nat).
  - vm_compute. reflexivity.
  - intros i Hi.
    do 5 (destruct i as [|i]; [vm_compute; reflexivity|]). lia.
  - vm_compute. reflexivity.
Defined.

End RenderCall.
